(** * GraphOfGrid wrappers: a shallow embedding of
      opm/grid/GraphOfGridWrappers.hpp and of the parts of GraphOfGrid
      it relies on.

    Conventions of the embedding.
    - [int] values (vertex ids, counts, status codes) are integers of [Z];
      container sizes are taken as they are.  The one product of [int]s
      in the code, the number of indices of the cartesian box, follows
      [int] arithmetic: a product outside of the 32-bit range is a signed
      overflow, undefined behaviour.
    - [float] weights are only copied by the wrappers; the contraction
      rule adds them.  They are rationals ([Qc]).
    - [std::unordered_map<int,V>] is a [gmap Z V]; its iteration order is
      the one of [map_to_list].  [std::map<int,V>] and [std::set<int>]
      iterate in ascending key order.
    - A raw output pointer is the list of cells it addresses; a write
      outside of it is undefined behaviour. *)

From Stdlib Require Import ZArith QArith Qcanon.
From stdpp Require Import base numbers option list gmap sets fin_maps sorting strings pretty.

Local Open Scope Z_scope.

(** ** Outcomes of a call *)

Inductive exception := logic_error | out_of_range | length_error.

Inductive outcome (A : Type) : Type :=
| Returned (a : A)
| Thrown (e : exception)
| AssertionFailed
| Undefined.
Arguments Returned {A} a.
Arguments Thrown {A} e.
Arguments AssertionFailed {A}.
Arguments Undefined {A}.

Definition obind {A B : Type} (c : outcome A) (k : A → outcome B) : outcome B :=
  match c with
  | Returned a => k a
  | Thrown e => Thrown e
  | AssertionFailed => AssertionFailed
  | Undefined => Undefined
  end.

Declare Scope outcome_scope.
Delimit Scope outcome_scope with outcome.
Notation "'let*' x := c 'in' k" := (obind c (λ x, k))
  (at level 10, x pattern, c at level 100, k at level 200) : outcome_scope.
Local Open Scope outcome_scope.

(** [assert(b)] *)
Definition assert {A : Type} (b : bool) (k : outcome A) : outcome A :=
  if b then k else AssertionFailed.

(** ** Data model *)

(** Iteration over a [std::set<int>]: ascending. *)
Definition set_iter (s : gset Z) : list Z := merge_sort Z.le (elements s).

(** [*s.begin()]; dereferencing [begin()] of an empty set has no meaning. *)
Definition set_begin (s : gset Z) : option Z := head (set_iter s).

(** Iteration over a [std::map<int,V>]: ascending by key. *)
Definition key_le {V : Type} (x y : Z * V) : Prop := x.1 ≤ y.1.

Global Instance key_le_dec {V : Type} (x y : Z * V) : Decision (key_le x y).
Proof. unfold key_le. apply _. Defined.

Definition map_iter {V : Type} (m : gmap Z V) : list (Z * V) :=
  merge_sort key_le (map_to_list m).

(** [GraphOfGrid::VertexProperties] *)
Record VertexProperties : Type := {
  nproc : Z;
  weight : Qc;
  edges : gmap Z Qc
}.

(** What the wrappers read of the grid: [logicalCartesianSize()] and
    [globalCell()]; [numCells()] is the length of the latter. *)
Record Grid : Type := {
  logicalCartesianSize : Z * Z * Z;
  globalCell : list Z
}.

Definition numCells (g : Grid) : nat := length (globalCell g).

Record GraphOfGrid : Type := {
  graph : gmap Z VertexProperties;
  wells : list (gset Z);
  getGrid : Grid
}.

Definition getWells (gog : GraphOfGrid) : list (gset Z) := wells gog.

(** ** extendImportExportList *)

(** [TheTuple] is [std::tuple<int,int,char>] or
    [std::tuple<int,int,char,int>]: the global id, and the remaining
    fields with their lexicographic [operator<]. *)
Abbreviation TheTuple Rest := (Z * Rest)%type (only parsing).

Section ListExpander.
Context {Rest : Type} (Rest_ltb : Rest → Rest → bool).

(** [operator<] of [std::tuple] *)
Definition tuple_lt (a b : TheTuple Rest) : Prop :=
  a.1 < b.1 ∨ (a.1 = b.1 ∧ Rest_ltb a.2 b.2 = true).

Global Instance tuple_lt_dec a b : Decision (tuple_lt a b).
Proof. unfold tuple_lt. apply _. Defined.

(** comparator of the [std::sort] call, as the order it sorts into *)
Definition gID_le (a b : TheTuple Rest) : Prop := a.1 ≤ b.1.

Global Instance gID_le_dec a b : Decision (gID_le a b).
Proof. unfold gID_le. apply _. Defined.

(** [std::inplace_merge]: on a tie the element of the first range goes
    first *)
Definition first_range_first (a b : TheTuple Rest) : Prop := ¬ tuple_lt b a.

Global Instance first_range_first_dec a b : Decision (first_range_first a b).
Proof. unfold first_range_first. apply _. Defined.

Definition inplace_merge (l1 l2 : list (TheTuple Rest)) : list (TheTuple Rest) :=
  list_merge first_range_first l1 l2.

(** first loop: [wellMap[*well.begin()] = (well.begin(), well.end())] *)
Fixpoint fill_wellMap (ws : list (gset Z)) (wellMap : gmap Z (gset Z))
  : outcome (gmap Z (gset Z)) :=
  match ws with
  | [] => Returned wellMap
  | well :: ws' =>
      match set_begin well with
      | Some k => fill_wellMap ws' (<[k := well]> wellMap)
      | None => Undefined
      end
  end.

(** the inner loop over a well: a copy of [cellProperties] for every
    member but the one already in the list *)
Definition wellCells (cellProperties : TheTuple Rest) (well : gset Z) : list (TheTuple Rest) :=
  (λ pgID, (pgID, cellProperties.2)) <$>
    filter (λ pgID, pgID ≠ cellProperties.1) (set_iter well).

(** the loop over [cellList], with its [erase] and its [break] *)
Fixpoint expand_loop (wellMap : gmap Z (gset Z)) (cellList addToList : list (TheTuple Rest))
  : list (TheTuple Rest) :=
  match cellList with
  | [] => addToList
  | cellProperties :: rest =>
      let '(wellMap', addToList') :=
        match wellMap !! cellProperties.1 with
        | Some well =>
            (delete cellProperties.1 wellMap, addToList ++ wellCells cellProperties well)
        | None => (wellMap, addToList)
        end in
      if decide (wellMap' = ∅) then addToList'
      else expand_loop wellMap' rest addToList'
  end.

Definition extendImportExportList (gog : GraphOfGrid) (cellList : list (TheTuple Rest))
  : outcome (list (TheTuple Rest)) :=
  let* wellMap := fill_wellMap (getWells gog) ∅ in
  let addToList := expand_loop wellMap cellList [] in
  let addToList := merge_sort gID_le addToList in
  Returned (inplace_merge cellList addToList).

End ListExpander.

(** *** What the list expander is to produce *)

Section ListExpanderSpec.
Context {Rest : Type}.
Implicit Types (cellList : list (TheTuple Rest)) (ws : list (gset Z)).

(** the registry as the data model has it: no well is empty, and no two
    wells have the same representative *)
Definition wells_represented ws : Prop :=
  Forall (λ w, w ≠ ∅) ws ∧ NoDup (set_begin <$> ws).

(** [gID] is the representative, the least member, of the well *)
Definition represents (gID : Z) (w : gset Z) : Prop := set_begin w = Some gID.

Global Instance represents_dec gID w : Decision (represents gID w).
Proof. unfold represents. apply _. Defined.

(** the representative of the well is the global id of some tuple *)
Definition referenced cellList (w : gset Z) : Prop :=
  Exists (λ t, represents t.1 w) cellList.

Global Instance referenced_dec cellList w : Decision (referenced cellList w).
Proof. unfold referenced. apply _. Defined.

(** at most one tuple of the list has the representative of a given
    well as its global id *)
Definition one_tuple_per_well ws cellList : Prop :=
  ∀ w r, w ∈ ws → represents r w →
    (length (filter (λ t, t.1 = r) cellList) ≤ 1)%nat.

(** the tuples to add: for every tuple whose global id represents a
    well, a copy for every other member of the well *)
Definition added ws cellList : list (TheTuple Rest) :=
  t ← cellList; w ← filter (represents t.1) ws; wellCells t w.

(** what the loop adds for one tuple, read off the map *)
Definition expansion (wellMap : gmap Z (gset Z)) (t : TheTuple Rest)
  : list (TheTuple Rest) :=
  w ← option_list (wellMap !! t.1); wellCells t w.
End ListExpanderSpec.

(** ** The graph operations the wrappers call *)

(** Modelled from the spec: [GraphOfGrid::size], [numEdges], [edgeList]
    and [getVertex] are declared in opm/grid/GraphOfGrid.hpp, which is
    not among the sources.  [size] is the number of live vertices;
    [numEdges] is the number of neighbours, or the sentinel [-1] for an
    id that is not live; [edgeList] and [getVertex] fail with a
    [std::logic_error] for an id that is not live. *)
Definition GraphOfGrid_size (gog : GraphOfGrid) : Z :=
  Z.of_nat (size (graph gog)).

(** Modelled from the spec: [GraphOfGrid::numEdges], the number of
    neighbours of a live vertex and the sentinel [-1] otherwise. *)
Definition GraphOfGrid_numEdges (gog : GraphOfGrid) (gID : Z) : Z :=
  match graph gog !! gID with
  | Some v => Z.of_nat (size (edges v))
  | None => -1
  end.

(** Modelled from the spec: [GraphOfGrid::getVertex], which fails with a
    [std::logic_error] for an id that is not live. *)
Definition getVertex (gog : GraphOfGrid) (gID : Z) : outcome VertexProperties :=
  match graph gog !! gID with
  | Some v => Returned v
  | None => Thrown logic_error
  end.

(** Modelled from the spec: [GraphOfGrid::edgeList], the adjacency of a
    live vertex; it fails with a [std::logic_error] for an id that is not
    live (test SimpleGraph). *)
Definition edgeList (gog : GraphOfGrid) (gID : Z) : outcome (gmap Z Qc) :=
  match graph gog !! gID with
  | Some v => Returned (edges v)
  | None => Thrown logic_error
  end.

(** ** Callbacks for the partitioner *)

Definition ZOLTAN_OK : Z := 1.
Definition ZOLTAN_FATAL : Z := 0.

(** [buf[i] = x] and [buf[i]] through a raw pointer *)
Definition poke {A : Type} (i : nat) (x : A) (buf : list A) : outcome (list A) :=
  if decide (i < length buf)%nat then Returned (<[i := x]> buf) else Undefined.

Definition peek {A : Type} (i : nat) (buf : list A) : outcome A :=
  match buf !! i with
  | Some x => Returned x
  | None => Undefined
  end.

(** What a callback can reach besides its arguments: the graph behind
    [pGraph] and the messages given to [OpmLog::error]. *)
Record Store : Type := {
  pGraph : GraphOfGrid;
  OpmLog_error : list string
}.

(** A callback is run on a store; it hands back the store it leaves and
    how it ended. *)
Definition Callback (A : Type) : Type := Store → Store * outcome A.

Definition cb_ret {A : Type} (a : A) : Callback A := λ s, (s, Returned a).

Definition cb_lift {A : Type} (o : outcome A) : Callback A := λ s, (s, o).

Definition cb_bind {A B : Type} (c : Callback A) (k : A → Callback B) : Callback B :=
  λ s, match c s with
       | (s', Returned a) => k a s'
       | (s', Thrown e) => (s', Thrown e)
       | (s', AssertionFailed) => (s', AssertionFailed)
       | (s', Undefined) => (s', Undefined)
       end.

Definition cb_graph : Callback GraphOfGrid := λ s, (s, Returned (pGraph s)).

Definition cb_error (msg : string) : Callback () :=
  λ s, ({| pGraph := pGraph s; OpmLog_error := OpmLog_error s ++ [msg] |}, Returned ()).

Definition cb_assert {A : Type} (b : bool) (k : Callback A) : Callback A :=
  if b then k else cb_lift AssertionFailed.

Declare Scope callback_scope.
Delimit Scope callback_scope with callback.
Notation "'let+' x := c 'in' k" := (cb_bind c (λ x, k))
  (at level 10, x pattern, c at level 100, k at level 200) : callback_scope.

(** [getGraphOfGridNumVertices]: the returned size and [*err] *)
Definition getGraphOfGridNumVertices : Callback (Z * Z) :=
  (let+ gog := cb_graph in
   let size := GraphOfGrid_size gog in
   cb_ret (size, ZOLTAN_OK))%callback.

(** the loop of [getGraphOfGridVerticesList] over the vertices *)
Fixpoint verticesList_loop (vs : list (Z * VertexProperties)) (i : nat)
    (gIDs : list Z) (objWeights : list Qc) : outcome (list Z * list Qc) :=
  match vs with
  | [] => Returned (gIDs, objWeights)
  | v :: vs' =>
      let* gIDs' := poke i v.1 gIDs in
      let* objWeights' := poke i (weight v.2) objWeights in
      verticesList_loop vs' (S i) gIDs' objWeights'
  end.

(** the buffers behind [gIDs], [lIDs], [objWeights] and [*err] as
    [getGraphOfGridVerticesList] leaves them; [lIDs] may be [nullptr] *)
Record VerticesList : Type := {
  vl_gIDs : list Z;
  vl_lIDs : option (list Z);
  vl_objWeights : list Qc;
  vl_err : Z
}.

Definition getGraphOfGridVerticesList (dimGlobalID dimLocalID : Z)
    (gIDs : list Z) (lIDs : option (list Z)) (weightDim : Z) (objWeights : list Qc)
  : Callback VerticesList :=
  cb_assert (dimGlobalID =? 1) (cb_assert (weightDim =? 1)
   (let+ gog := cb_graph in
    let+ (gIDs', objWeights') := cb_lift
        (verticesList_loop (map_to_list (graph gog)) 0 gIDs objWeights) in
    cb_ret {| vl_gIDs := gIDs'; vl_lIDs := lIDs;
              vl_objWeights := objWeights'; vl_err := ZOLTAN_OK |}))%callback.

Definition numEdges_message (gID : Z) : string :=
  "getGraphOfGridNumEdges error: Vertex with ID " +:+ pretty gID +:+ " is not in graph.".

(** the loop of [getGraphOfGridNumEdges], from index [i], with
    [n] indices left; it ends with the buffer and the status *)
Fixpoint numEdges_loop (gog : GraphOfGrid) (n i : nat) (gIDs numEdges : list Z)
  : Callback (list Z * Z) :=
  match n with
  | O => cb_ret (numEdges, ZOLTAN_OK)
  | S n' =>
      (let+ gID := cb_lift (peek i gIDs) in
       let nE := GraphOfGrid_numEdges gog gID in
       if nE =? -1 then
         (let+ _ := cb_error (numEdges_message gID) in
          cb_ret (numEdges, ZOLTAN_FATAL))
       else
         (let+ numEdges' := cb_lift (poke i nE numEdges) in
          numEdges_loop gog n' (S i) gIDs numEdges'))%callback
  end.

Record NumEdges : Type := {
  ne_lIDs : option (list Z);
  ne_numEdges : list Z;
  ne_err : Z
}.

Definition getGraphOfGridNumEdges (dimGlobalID dimLocalID : Z) (numCells : nat)
    (gIDs : list Z) (lIDs : option (list Z)) (numEdges : list Z)
  : Callback NumEdges :=
  cb_assert (dimGlobalID =? 1)
   (let+ gog := cb_graph in
    let+ (numEdges', err) := numEdges_loop gog numCells 0 gIDs numEdges in
    cb_ret {| ne_lIDs := lIDs; ne_numEdges := numEdges'; ne_err := err |})%callback.

(** the three output arrays of [getGraphOfGridEdgeList] *)
Record EdgeArrays : Type := {
  nborGIDs : list Z;
  nborProc : list Z;
  edgeWeights : list Qc
}.

Definition newline : string := String (Ascii.ascii_of_nat 10) EmptyString.

Definition edgeList_message (expected : Z) (found : nat) (gID : Z) : string :=
  "getGraphOfGridEdgeList error: Edge number disagreement"
  +:+ " between Zoltan (" +:+ pretty expected +:+ ") and Graph ("
  +:+ pretty found +:+ ") for vertex with ID " +:+ pretty gID +:+ newline.

(** the inner loop: one entry of each array per edge, from offset [id] *)
Fixpoint emit_edges (gog : GraphOfGrid) (eList : list (Z * Qc)) (id : nat)
    (out : EdgeArrays) : outcome (nat * EdgeArrays) :=
  match eList with
  | [] => Returned (id, out)
  | e :: eList' =>
      let* gs := poke id e.1 (nborGIDs out) in
      let* v := getVertex gog e.1 in
      let* ps := poke id (nproc v) (nborProc out) in
      let* ws := poke id e.2 (edgeWeights out) in
      emit_edges gog eList' (S id)
        {| nborGIDs := gs; nborProc := ps; edgeWeights := ws |}
  end.

(** the outer loop, from index [i] with [n] indices left and the next
    free offset [id] *)
Fixpoint edgeList_loop (gog : GraphOfGrid) (n i : nat) (gIDs numEdges : list Z)
    (id : nat) (out : EdgeArrays) : Callback (EdgeArrays * Z) :=
  match n with
  | O => cb_ret (out, ZOLTAN_OK)
  | S n' =>
      (let+ gID := cb_lift (peek i gIDs) in
       let+ eList := cb_lift (edgeList gog gID) in
       let+ expected := cb_lift (peek i numEdges) in
       if negb (Z.of_nat (size eList) =? expected) then
         (let+ _ := cb_error (edgeList_message expected (size eList) gID) in
          cb_ret (out, ZOLTAN_FATAL))
       else
         (let+ (id', out') := cb_lift (emit_edges gog (map_iter eList) id out) in
          edgeList_loop gog n' (S i) gIDs numEdges id' out'))%callback
  end.

Record EdgeList : Type := {
  el_lIDs : option (list Z);
  el_out : EdgeArrays;
  el_err : Z
}.

Definition getGraphOfGridEdgeList (dimGlobalID dimLocalID : Z) (numCells : nat)
    (gIDs : list Z) (lIDs : option (list Z)) (numEdges : list Z)
    (out : EdgeArrays) (weightDim : Z) : Callback EdgeList :=
  cb_assert (dimGlobalID =? 1) (cb_assert (weightDim =? 1)
   (let+ gog := cb_graph in
    let+ (out', err) := edgeList_loop gog numCells 0 gIDs numEdges 0 out in
    cb_ret {| el_lIDs := lIDs; el_out := out'; el_err := err |}))%callback.

(** A call of one of the four callbacks, with its arguments. *)
Inductive Call : Type :=
| CallNumVertices
| CallVerticesList (dimGlobalID dimLocalID : Z) (gIDs : list Z)
    (lIDs : option (list Z)) (weightDim : Z) (objWeights : list Qc)
| CallNumEdges (dimGlobalID dimLocalID : Z) (numCells : nat) (gIDs : list Z)
    (lIDs : option (list Z)) (numEdges : list Z)
| CallEdgeList (dimGlobalID dimLocalID : Z) (numCells : nat) (gIDs : list Z)
    (lIDs : option (list Z)) (numEdges : list Z) (out : EdgeArrays) (weightDim : Z).

(** how a call ended: the status it set when it returned *)
Definition call (c : Call) : Callback Z :=
  match c with
  | CallNumVertices =>
      (let+ r := getGraphOfGridNumVertices in cb_ret r.2)%callback
  | CallVerticesList dg dl gIDs lIDs wd ws =>
      (let+ r := getGraphOfGridVerticesList dg dl gIDs lIDs wd ws in cb_ret (vl_err r))%callback
  | CallNumEdges dg dl n gIDs lIDs nE =>
      (let+ r := getGraphOfGridNumEdges dg dl n gIDs lIDs nE in cb_ret (ne_err r))%callback
  | CallEdgeList dg dl n gIDs lIDs nE out wd =>
      (let+ r := getGraphOfGridEdgeList dg dl n gIDs lIDs nE out wd in cb_ret (el_err r))%callback
  end.

(** A sequence of calls.  A call that returns, with either status, is
    followed by the next one; the sequence stops at a call that does not
    return. *)
Fixpoint calls (cs : list Call) : Callback (list Z) :=
  match cs with
  | [] => cb_ret []
  | c :: cs' =>
      (let+ err := call c in let+ errs := calls cs' in cb_ret (err :: errs))%callback
  end.

(** ** Contraction of vertices and registration of wells *)

(** Modelled from the spec: the sum of two adjacency maps, a shared
    neighbour getting the sum of the two edge weights. *)
Definition merge_edges (e1 e2 : gmap Z Qc) : gmap Z Qc :=
  union_with (λ x y, Some (x + y)%Qc) e1 e2.

(** Modelled from the spec: a remaining vertex that referenced the
    removed id references the representative instead, "with weight
    combined the same way". *)
Definition redirect (gone rep : Z) (v : VertexProperties) : VertexProperties :=
  match edges v !! gone with
  | Some w =>
      {| nproc := nproc v; weight := weight v;
         edges := merge_edges (delete gone (edges v)) {[ rep := w ]} |}
  | None => v
  end.

(** Modelled from the spec: the vertex that stands for two merged ones.
    Its weight is the sum of the two weights, its adjacency the union of
    both adjacencies without the edge between the two; it keeps the owner
    of the representative. *)
Definition merged_vertex (rep gone : Z) (vrep vgone : VertexProperties)
  : VertexProperties :=
  {| nproc := nproc vrep;
     weight := (weight vrep + weight vgone)%Qc;
     edges := merge_edges (delete gone (edges vrep)) (delete rep (edges vgone)) |}.

(** Modelled from the spec: [GraphOfGrid::contractVertices] is defined
    in GraphOfGrid, which is not among the sources.  The merge is defined
    only for two distinct live ids and fails otherwise; the
    representative is the smaller id and the other id leaves the graph. *)
Definition contractVertices (a b : Z) (gog : GraphOfGrid) : outcome GraphOfGrid :=
  match graph gog !! Z.min a b, graph gog !! Z.max a b with
  | Some vrep, Some vgone =>
      if decide (a = b) then Thrown logic_error
      else
        let rep := Z.min a b in
        let gone := Z.max a b in
        Returned
          {| graph := <[ rep := merged_vertex rep gone vrep vgone ]>
                        (redirect gone rep <$> delete gone (graph gog));
             wells := wells gog;
             getGrid := getGrid gog |}
  | _, _ => Thrown logic_error
  end.

(** A sequence of contractions; one that fails leaves the graph as it
    was. *)
Definition contractions (ops : list (Z * Z)) (gog : GraphOfGrid) : GraphOfGrid :=
  foldl (λ g op, match contractVertices op.1 op.2 g with
                 | Returned g' => g'
                 | _ => g
                 end) gog ops.

(** the sum of the weights of the live vertices *)
Definition total_weight (gog : GraphOfGrid) : Qc :=
  map_fold (λ _ v acc, (weight v + acc)%Qc) 0%Qc (graph gog).

(** the weight an adjacency map gives to a neighbour, and the sum of two
    of them where both are there *)
Definition combine (x y : option Qc) : option Qc :=
  union_with (λ x y, Some (x + y)%Qc) x y.

Definition overlaps (w cellIds : gset Z) : Prop := w ∩ cellIds ≠ ∅.

Global Instance overlaps_dec w cellIds : Decision (overlaps w cellIds).
Proof. unfold overlaps. apply _. Defined.

(** Modelled from the spec: step 1 of [addWell], a scan of the registry
    in which every well that overlaps [cellIds] is united into it and
    leaves the registry.  The result is the grown [cellIds] and the wells
    that stay. *)
Fixpoint merge_overlapping (cellIds : gset Z) (ws : list (gset Z))
  : gset Z * list (gset Z) :=
  match ws with
  | [] => (cellIds, [])
  | w :: ws' =>
      if decide (overlaps w cellIds) then merge_overlapping (cellIds ∪ w) ws'
      else
        let '(cellIds', kept) := merge_overlapping cellIds ws' in
        (cellIds', w :: kept)
  end.

(** Modelled from the spec: step 3 of [addWell], a call of
    [contractVertices(representative, other)] for every other member.
    With [checkIntersections] a member that is not live any more, having
    been contracted with a well that step 1 took in, is passed over
    (scenario D of the spec: vertex count 52, then 49). *)
Fixpoint contract_members (check : bool) (rep : Z) (others : list Z) (gog : GraphOfGrid)
  : outcome GraphOfGrid :=
  match others with
  | [] => Returned gog
  | other :: others' =>
      if check && bool_decide (graph gog !! other = None)
      then contract_members check rep others' gog
      else
        let* gog' := contractVertices rep other gog in
        contract_members check rep others' gog'
  end.

(** Modelled from the spec: [GraphOfGrid::addWell], steps 1 to 4 of the
    well-add algorithm. *)
Definition GraphOfGrid_addWell (cellIds : gset Z) (checkIntersections : bool)
    (gog : GraphOfGrid) : outcome GraphOfGrid :=
  let '(cellIds', kept) :=
    if checkIntersections then merge_overlapping cellIds (wells gog)
    else (cellIds, wells gog) in
  if decide (size cellIds' < 2)%nat then Returned gog
  else
    match set_iter cellIds' with
    | [] => Returned gog
    | rep :: others =>
        let* gog' := contract_members checkIntersections rep others gog in
        Returned {| graph := graph gog'; wells := kept ++ [cellIds'];
                    getGrid := getGrid gog' |}
    end.

(** Modelled from the spec: the graph of a cartesian grid in which every
    cell is active, made by the constructor of GraphOfGrid: one vertex
    per cell, of weight 1 and owner 0, and an edge of weight 1 for every
    pair of cells that share a face.  Cell (i,j,k) has the index
    i + nx (j + ny k). *)
Definition face_neighbours (dims : Z * Z * Z) (c : Z) : list Z :=
  let '(nx, ny, nz) := dims in
  let i := c `mod` nx in
  let j := (c `div` nx) `mod` ny in
  let k := c `div` (nx * ny) in
  (if decide (0 < i) then [c - 1] else []) ++
  (if decide (i + 1 < nx) then [c + 1] else []) ++
  (if decide (0 < j) then [c - nx] else []) ++
  (if decide (j + 1 < ny) then [c + nx] else []) ++
  (if decide (0 < k) then [c - nx * ny] else []) ++
  (if decide (k + 1 < nz) then [c + nx * ny] else []).

(** Modelled from the spec: the vertex of a cell of such a grid. *)
Definition cartesian_vertex (dims : Z * Z * Z) (c : Z) : VertexProperties :=
  {| nproc := 0; weight := 1%Qc;
     edges := list_to_map ((λ n, (n, 1%Qc)) <$> face_neighbours dims c) |}.

(** Modelled from the spec: the graph of such a grid, with no well. *)
Definition createCartesian (dims : Z * Z * Z) : GraphOfGrid :=
  let '(nx, ny, nz) := dims in
  let cells := seqZ 0 (nx * ny * nz) in
  {| graph := list_to_map ((λ c, (c, cartesian_vertex dims c)) <$> cells);
     wells := [];
     getGrid := {| logicalCartesianSize := dims; globalCell := cells |} |}.

(** ** Wells given by cartesian indices *)

(** [std::vector::at] and [operator[]] with an [int] index *)
Definition vector_at {A : Type} (v : list A) (n : Z) : outcome A :=
  if decide (0 ≤ n) then
    match v !! Z.to_nat n with
    | Some x => Returned x
    | None => Thrown out_of_range
    end
  else Thrown out_of_range.

Definition vector_set {A : Type} (v : list A) (n : Z) (x : A) : outcome (list A) :=
  if decide (0 ≤ n < Z.of_nat (length v)) then Returned (<[Z.to_nat n := x]> v)
  else Undefined.

(** the loop [cartesian_to_compressed[grid.globalCell()[i]] = i] *)
Fixpoint fill_compressed (globalCell : list Z) (i : Z) (c2c : list Z) : outcome (list Z) :=
  match globalCell with
  | [] => Returned c2c
  | gc :: rest =>
      let* c2c' := vector_set c2c gc i in
      fill_compressed rest (i + 1) c2c'
  end.

(** [int] has 32 bits. *)
Definition INT_MAX : Z := 2147483647.
Definition INT_MIN : Z := -2147483648.

Definition is_int (n : Z) : Prop := INT_MIN ≤ n ≤ INT_MAX.

Global Instance is_int_dec n : Decision (is_int n).
Proof. unfold is_int. apply _. Defined.

(** The product of two [int]s.  A product that [int] cannot hold is a
    signed overflow, which is undefined behaviour. *)
Definition int_mul (a b : Z) : outcome Z :=
  if decide (is_int (a * b)) then Returned (a * b) else Undefined.

(** [std::vector<int>(n, x)] with an [int] [n]: the size is converted to
    [size_type], so that a negative [n] asks for more than [max_size()]
    elements and the constructor throws [std::length_error]. *)
Definition vector_of {A : Type} (n : Z) (x : A) : outcome (list A) :=
  if decide (0 ≤ n) then Returned (replicate (Z.to_nat n) x)
  else Thrown length_error.

(** [cpgdim[0]*cpgdim[1]*cpgdim[2]] is evaluated from the left in [int]. *)
Definition cartesian_to_compressed (grid : Grid) : outcome (list Z) :=
  let '(n0, n1, n2) := logicalCartesianSize grid in
  let* n01 := int_mul n0 n1 in
  let* size := int_mul n01 n2 in
  let* c2c := vector_of size (-1) in
  fill_compressed (globalCell grid) 0 c2c.

(** the loop over the cells of one well *)
Fixpoint translate_cells (c2c : list Z) (cells : list Z) (wellsgID : gset Z)
  : outcome (gset Z) :=
  match cells with
  | [] => Returned wellsgID
  | cell :: rest =>
      let* gID := vector_at c2c cell in
      assert (negb (gID =? -1)) (translate_cells c2c rest ({[ gID ]} ∪ wellsgID))
  end.

Section WellParsing.
(** [GraphOfGrid::addWell], declared in GraphOfGrid.hpp *)
Context (addWell : gset Z → bool → GraphOfGrid → outcome GraphOfGrid).

(** the loop over the wells *)
Fixpoint addWells_loop (c2c : list Z) (ws : list (string * gset Z))
    (checkWellIntersections : bool) (gog : GraphOfGrid) : outcome GraphOfGrid :=
  match ws with
  | [] => Returned gog
  | w :: ws' =>
      let* wellsgID := translate_cells c2c (set_iter w.2) ∅ in
      let* gog' := addWell wellsgID checkWellIntersections gog in
      addWells_loop c2c ws' checkWellIntersections gog'
  end.

Definition addFutureConnectionWells (gog : GraphOfGrid)
    (wells : gmap string (gset Z)) (checkWellIntersections : bool)
  : outcome GraphOfGrid :=
  let* c2c := cartesian_to_compressed (getGrid gog) in
  addWells_loop c2c (map_to_list wells) checkWellIntersections gog.

(** [addWellConnections]: the wells are a vector of sets of compressed
    ids *)
Fixpoint addWellConnections (gog : GraphOfGrid) (wells : list (gset Z))
    (checkWellIntersections : bool) : outcome GraphOfGrid :=
  match wells with
  | [] => Returned gog
  | w :: wells' =>
      let* gog' := addWell w checkWellIntersections gog in
      addWellConnections gog' wells' checkWellIntersections
  end.

(** A well is forwarded to [addWell] as a set of compressed ids. *)
Fixpoint forward_wells (sets : list (gset Z)) (checkWellIntersections : bool)
    (gog : GraphOfGrid) : outcome GraphOfGrid :=
  match sets with
  | [] => Returned gog
  | s :: sets' =>
      let* gog' := addWell s checkWellIntersections gog in
      forward_wells sets' checkWellIntersections gog'
  end.
End WellParsing.

(** The compressed id of a cartesian index: the position of the index in
    [globalCell] (the last one, should there be several). *)
Fixpoint compressed_from (globalCell : list Z) (i : Z) (cell : Z) : option Z :=
  match globalCell with
  | [] => None
  | gc :: rest =>
      match compressed_from rest (i + 1) cell with
      | Some j => Some j
      | None => if decide (gc = cell) then Some i else None
      end
  end.

Definition compressed (grid : Grid) (cell : Z) : option Z :=
  compressed_from (globalCell grid) 0 cell.

(** A cartesian index is that of an active cell when it is listed in
    [globalCell]. *)
Definition active (grid : Grid) (cell : Z) : Prop := cell ∈ globalCell grid.

Definition cartesianSize (grid : Grid) : Z :=
  let '(n0, n1, n2) := logicalCartesianSize grid in n0 * n1 * n2.

(** ** Notions used in the statements *)

(** a buffer in which the entries [xs] have been written from offset [i] on *)
Definition overwrite {A : Type} (i : nat) (xs : list A) (buf : list A) : list A :=
  take i buf ++ xs ++ drop (i + length xs) buf.

Definition live (gog : GraphOfGrid) (gID : Z) : Prop := is_Some (graph gog !! gID).

Global Instance live_dec gog gID : Decision (live gog gID).
Proof. unfold live. apply _. Defined.

(** the owner [getVertex(gID).nproc] of a live vertex *)
Definition owner (gog : GraphOfGrid) (gID : Z) : Z :=
  match graph gog !! gID with
  | Some v => nproc v
  | None => 0
  end.

(** the edges of a live vertex in the order its map yields them *)
Definition edges_of (gog : GraphOfGrid) (gID : Z) : list (Z * Qc) :=
  match graph gog !! gID with
  | Some v => map_iter (edges v)
  | None => []
  end.

(** the edges of a batch of ids, one id after the other *)
Definition emitted (gog : GraphOfGrid) (gIDs : list Z) : list (Z * Qc) :=
  gIDs ≫= edges_of gog.

(** the three arrays with the edges [es] written from offset [id] on *)
Definition write_edges (gog : GraphOfGrid) (id : nat) (es : list (Z * Qc))
    (out : EdgeArrays) : EdgeArrays :=
  {| nborGIDs := overwrite id es.*1 (nborGIDs out);
     nborProc := overwrite id (owner gog <$> es.*1) (nborProc out);
     edgeWeights := overwrite id es.*2 (edgeWeights out) |}.

(** the three arrays have room for [n] entries *)
Definition fits (n : nat) (out : EdgeArrays) : Prop :=
  (n ≤ length (nborGIDs out) ∧ n ≤ length (nborProc out)
   ∧ n ≤ length (edgeWeights out))%nat.

(** the graph has the vertex and as many neighbours of it as expected *)
Definition agrees (gog : GraphOfGrid) (gID expected : Z) : Prop :=
  ∃ v, graph gog !! gID = Some v ∧ Z.of_nat (size (edges v)) = expected.

(** every neighbour is a vertex of the graph *)
Definition adjacency_closed (gog : GraphOfGrid) : Prop :=
  ∀ gID v n, graph gog !! gID = Some v → is_Some (edges v !! n) → live gog n.

(** A callback that leaves the graph behind [pGraph] as it found it. *)
Definition reads_only {A : Type} (c : Callback A) : Prop :=
  ∀ s, pGraph (c s).1 = pGraph s.

Definition sum_weights (m : gmap Z VertexProperties) : Qc :=
  map_fold (λ _ v acc, (weight v + acc)%Qc) 0%Qc m.

(** no cell belongs to two wells of the registry *)
Fixpoint pairwise_disjoint (ws : list (gset Z)) : Prop :=
  match ws with
  | [] => True
  | w :: ws' => Forall (λ w', w ## w') ws' ∧ pairwise_disjoint ws'
  end.

(** the representative of every registered well is a live vertex *)
Definition representatives_live (gog : GraphOfGrid) : Prop :=
  ∀ w, w ∈ wells gog → ∃ r, set_begin w = Some r ∧ live gog r.

(** every given cell is a live vertex or a member of a registered well *)
Definition known_cells (gog : GraphOfGrid) (cellIds : gset Z) : Prop :=
  ∀ c, c ∈ cellIds → live gog c ∨ ∃ w, w ∈ wells gog ∧ c ∈ w.

(** every active cell has its cartesian index inside the logical
    cartesian box *)
Definition grid_consistent (grid : Grid) : Prop :=
  Forall (λ gc, 0 ≤ gc < cartesianSize grid) (globalCell grid).

(** the products that give the number of indices of the box are [int]s *)
Definition box_in_int (grid : Grid) : Prop :=
  let '(n0, n1, n2) := logicalCartesianSize grid in
  is_int (n0 * n1) ∧ is_int (n0 * n1 * n2).

Global Instance box_in_int_dec grid : Decision (box_in_int grid).
Proof. unfold box_in_int. destruct (logicalCartesianSize grid) as [[n0 n1] n2]. apply _. Defined.

(** the box has a number of indices, not negative, that [int]
    arithmetic gives without overflow *)
Definition box_fits (grid : Grid) : Prop :=
  box_in_int grid ∧ 0 ≤ cartesianSize grid.

Global Instance box_fits_dec grid : Decision (box_fits grid).
Proof. unfold box_fits. apply _. Defined.

(** how a call ends that cannot make its table: by the overflow of the
    product, or else by the [std::length_error] of a negative size *)
Definition without_table {A : Type} (grid : Grid) : outcome A :=
  if decide (box_in_int grid) then Thrown length_error else Undefined.

(** the text of a message contains the decimal numeral of a number *)
Definition names {A : Type} `{Pretty A} (msg : string) (n : A) : Prop :=
  ∃ before after, msg = before +:+ pretty n +:+ after.

(** the compressed ids of the cells of a well *)
Definition compress_well (grid : Grid) (cells : gset Z) : gset Z :=
  list_to_set (omap (compressed grid) (set_iter cells)).

(** how the lookup of a cell that is not active ends *)
Definition inactive_failure (grid : Grid) (cell : Z) : outcome GraphOfGrid :=
  if decide (0 ≤ cell < cartesianSize grid) then AssertionFailed
  else Thrown out_of_range.

(** the tuples of a list whose global id no earlier tuple of the list,
    and no id of [seen], has *)
Fixpoint first_occurrences_from {Rest : Type} (seen : gset Z)
    (cellList : list (TheTuple Rest)) : list (TheTuple Rest) :=
  match cellList with
  | [] => []
  | t :: rest =>
      if decide (t.1 ∈ seen) then first_occurrences_from seen rest
      else t :: first_occurrences_from ({[ t.1 ]} ∪ seen) rest
  end.

Definition first_occurrences {Rest : Type} (cellList : list (TheTuple Rest))
  : list (TheTuple Rest) :=
  first_occurrences_from ∅ cellList.

(** no tuple of the list stands for a cell that is a member of a well
    without being its representative *)
Definition only_representatives {Rest : Type} (ws : list (gset Z))
    (cellList : list (TheTuple Rest)) : Prop :=
  ∀ t w, t ∈ cellList → w ∈ ws → t.1 ∈ w → represents t.1 w.

Global Instance agrees_dec gog gID expected : Decision (agrees gog gID expected).
Proof.
  unfold agrees. destruct (graph gog !! gID) as [v|].
  - destruct (decide (Z.of_nat (size (edges v)) = expected)) as [He|He].
    + left. by exists v.
    + right. intros (v' & [= <-] & ?). done.
  - right. by intros (v' & [=] & _).
Defined.

(** the sum of a list of counts *)
Definition sum_counts (counts : list Z) : Z := foldr Z.add 0 counts.

(** the number of calls that set [ZOLTAN_FATAL] *)
Definition count_fatal (errs : list Z) : nat :=
  length (filter (λ e, e = ZOLTAN_FATAL) errs).

(** a callback that sets [ZOLTAN_OK] and writes no message, or sets
    [ZOLTAN_FATAL] and writes one message, whenever it returns *)
Definition status_logged {A : Type} (err : A → Z) (c : Callback A) : Prop :=
  ∀ s s' a, c s = (s', Returned a) →
    (err a = ZOLTAN_OK ∧ s' = s)
    ∨ (err a = ZOLTAN_FATAL
       ∧ ∃ msg, s' = {| pGraph := pGraph s; OpmLog_error := OpmLog_error s ++ [msg] |}).

(** every cell is active and has its cartesian index as compressed id *)
Definition fully_active (grid : Grid) : Prop :=
  globalCell grid = seqZ 0 (cartesianSize grid).

(** ** The grids, wells and lists of the tests *)

Definition returned_or {A : Type} (d : A) (o : outcome A) : A :=
  match o with
  | Returned a => a
  | _ => d
  end.

(** two cells side by side, with one edge *)
Definition two_cells : GraphOfGrid :=
  {| graph := {[ 0 := {| nproc := 0; weight := 1%Qc; edges := {[ 1 := 1%Qc ]} |};
                 1 := {| nproc := 0; weight := 1%Qc; edges := {[ 0 := 1%Qc ]} |} ]};
     wells := [];
     getGrid := {| logicalCartesianSize := (2, 1, 1); globalCell := [0; 1] |} |}.

(** SimpleGraph: a grid of 2 x 2 x 2 cells *)
Definition grid_2_2_2 : GraphOfGrid := createCartesian (2, 2, 2).

(** IntersectingWells: a grid of 5 x 4 x 3 cells and its first three
    wells, added without the check of intersections *)
Definition grid_5_4_3 : GraphOfGrid := createCartesian (5, 4, 3).

Definition three_wells : GraphOfGrid := Eval vm_compute in
  returned_or grid_5_4_3
    (let* g := GraphOfGrid_addWell {[ 0; 1; 2; 3; 4 ]} false grid_5_4_3 in
     let* g := GraphOfGrid_addWell {[ 52; 32; 12 ]} false g in
     GraphOfGrid_addWell {[ 59; 48; 37 ]} false g).

(** ImportExportListExpansion: a grid of 2 x 3 x 2 cells with two wells,
    and the import list.  The fields after the id are the local id, the
    attribute and the rank. *)
Definition AttributeSet_owner : Z := 0.
Definition AttributeSet_copy : Z := 2.

Definition grid_with_two_wells : GraphOfGrid := Eval vm_compute in
  returned_or (createCartesian (2, 3, 2))
    (let* g := GraphOfGrid_addWell {[ 0; 1; 2 ]} true (createCartesian (2, 3, 2)) in
     GraphOfGrid_addWell {[ 5; 8; 11 ]} true g).

Definition importTuple_ltb (a b : Z * Z * Z) : bool :=
  bool_decide (a.1.1 < b.1.1
               ∨ (a.1.1 = b.1.1 ∧ (a.1.2 < b.1.2 ∨ (a.1.2 = b.1.2 ∧ a.2 < b.2)))).

Definition exportTuple_ltb (a b : Z * Z) : bool :=
  bool_decide (a.1 < b.1 ∨ (a.1 = b.1 ∧ a.2 < b.2)).

Definition imp : list (TheTuple (Z * Z * Z)) :=
  [ (0, (1, AttributeSet_owner, 1));
    (3, (4, AttributeSet_copy, 2));
    (5, (0, AttributeSet_copy, 3)) ].

Definition store_of (gog : GraphOfGrid) : Store := {| pGraph := gog; OpmLog_error := [] |}.

(** a row of three cells of which the middle one is not active *)
Definition row_with_gap : GraphOfGrid :=
  {| graph := {[ 0 := {| nproc := 0; weight := 1%Qc; edges := ∅ |};
                 1 := {| nproc := 0; weight := 1%Qc; edges := ∅ |} ]};
     wells := [];
     getGrid := {| logicalCartesianSize := (3, 1, 1); globalCell := [0; 2] |} |}.

Definition empty_arrays (n : nat) : EdgeArrays :=
  {| nborGIDs := replicate n 0; nborProc := replicate n 0;
     edgeWeights := replicate n 0%Qc |}.

(** scenario B of the spec, with the weights read as integers *)
Definition edge_weight_to (gog : GraphOfGrid) (v n : Z) : option Qc :=
  match graph gog !! v with
  | Some pv => edges pv !! n
  | None => None
  end.

Definition weight_of (gog : GraphOfGrid) (v : Z) : option Qc :=
  match graph gog !! v with
  | Some pv => Some (weight pv)
  | None => None
  end.

Definition fourth_well : gset Z := {[ 37; 38; 39; 34 ]}.

(** a box of 2^32 indices, more than an [int] holds, without cells, and a
    box with a negative size *)
Definition box_beyond_int : GraphOfGrid :=
  {| graph := ∅; wells := [];
     getGrid := {| logicalCartesianSize := (65536, 65536, 1); globalCell := [] |} |}.

Definition box_of_negative_size : GraphOfGrid :=
  {| graph := ∅; wells := [];
     getGrid := {| logicalCartesianSize := (-1, 1, 1); globalCell := [] |} |}.

(** a grid of one cell whose cartesian index lies outside the box *)
Definition cell_outside_box : GraphOfGrid :=
  {| graph := {[ 0 := {| nproc := 0; weight := 1%Qc; edges := ∅ |} ]};
     wells := [];
     getGrid := {| logicalCartesianSize := (1, 1, 1); globalCell := [5] |} |}.

(** an import list in which the id 0, the representative of the first
    well, comes twice *)
Definition imp_repeated : list (TheTuple (Z * Z * Z)) :=
  [ (0, (1, AttributeSet_owner, 1));
    (0, (7, AttributeSet_copy, 2));
    (5, (0, AttributeSet_copy, 3)) ].

(** an import list of a cell that is in no well *)
Definition imp_outside_wells : list (TheTuple (Z * Z * Z)) :=
  [ (3, (4, AttributeSet_copy, 2)) ].

(** the vertex of cell 0 of [two_cells] *)
Definition vertex_0_of_two_cells : VertexProperties :=
  {| nproc := 0; weight := 1%Qc; edges := {[ 1 := 1%Qc ]} |}.

(** * Properties *)

(** ** The list expander *)

Section ListExpanderFacts.
Context {Rest : Type}.
Implicit Types (cellList : list (TheTuple Rest)) (ws : list (gset Z)).
Context (Rest_ltb : Rest → Rest → bool).

Lemma set_iter_perm (s : gset Z) : set_iter s ≡ₚ elements s.
Proof. apply merge_sort_Permutation. Qed.

Lemma elem_of_set_iter (s : gset Z) x : x ∈ set_iter s ↔ x ∈ s.
Proof. by rewrite set_iter_perm, elem_of_elements. Qed.

Lemma NoDup_set_iter (s : gset Z) : NoDup (set_iter s).
Proof. rewrite set_iter_perm. apply NoDup_elements. Qed.

Lemma length_set_iter (s : gset Z) : length (set_iter s) = size s.
Proof. by rewrite set_iter_perm. Qed.

Lemma set_begin_elem_of (s : gset Z) r : set_begin s = Some r → r ∈ s.
Proof. intros H. apply elem_of_set_iter. by apply head_Some_elem_of. Qed.

Lemma set_begin_is_Some (s : gset Z) : s ≠ ∅ → is_Some (set_begin s).
Proof.
  intros Hne. unfold set_begin.
  destruct (set_iter s) as [|x l] eqn:E; [|by eexists].
  destruct Hne. apply leibniz_equiv, elements_empty_inv.
  apply Permutation_nil_r. by rewrite <- set_iter_perm, E.
Qed.

Lemma length_filter_ne (l : list Z) r :
  NoDup l → r ∈ l → length (filter (λ x, x ≠ r) l) = pred (length l).
Proof.
  induction 1 as [|x l Hx Hl IH]; [by intros ?%elem_of_nil|].
  intros [->|Hin]%elem_of_cons.
  - rewrite filter_cons_False by naive_solver. simpl.
    f_equal. clear IH Hl. induction l as [|y l IH]; [done|].
    rewrite filter_cons_True by set_solver. simpl. f_equal. apply IH. set_solver.
  - rewrite filter_cons_True by set_solver. simpl. rewrite IH by done.
    destruct l; [by apply elem_of_nil in Hin|done].
Qed.

Lemma length_wellCells (t : @TheTuple Rest) w :
  represents t.1 w → length (wellCells t w) = (size w - 1)%nat.
Proof.
  intros Hr. unfold wellCells. rewrite length_fmap, length_filter_ne.
  - rewrite length_set_iter. lia.
  - apply NoDup_set_iter.
  - apply elem_of_set_iter. by apply set_begin_elem_of.
Qed.

Lemma filter_none {A} (P : A → Prop) `{!∀ x, Decision (P x)} (l : list A) :
  (∀ x, x ∈ l → ¬ P x) → filter P l = [].
Proof.
  induction l as [|x l IH]; [done|]. intros HP.
  rewrite filter_cons_False by (apply HP; left). apply IH.
  intros y Hy. apply HP. by right.
Qed.

Lemma fill_wellMap_lookup ws (m0 : gmap Z (gset Z)) :
  Forall (λ w, w ≠ ∅) ws → NoDup (set_begin <$> ws) →
  ∃ m, fill_wellMap ws m0 = Returned m ∧
    ∀ k, m !! k = match filter (represents k) ws with
                  | [] => m0 !! k
                  | w :: _ => Some w
                  end.
Proof.
  revert m0. induction ws as [|w ws IH]; intros m0 Hne Hnd; simpl.
  { by eexists. }
  apply Forall_cons in Hne as [Hw Hne].
  rewrite fmap_cons in Hnd. apply NoDup_cons in Hnd as [Hfresh Hnd].
  destruct (set_begin_is_Some w Hw) as [kw Hkw]. rewrite Hkw.
  destruct (IH (<[kw:=w]> m0) Hne Hnd) as (m & -> & Hm).
  exists m. split; [done|]. intros k. rewrite Hm.
  destruct (decide (k = kw)) as [->|Hk].
  - rewrite (filter_cons_True (represents kw)) by done.
    assert (filter (represents kw) ws = []) as ->.
    { apply filter_none. intros w' Hin Hrep.
      apply Hfresh. rewrite Hkw, <- Hrep. by apply list_elem_of_fmap_2. }
    by rewrite lookup_insert_eq.
  - rewrite (filter_cons_False (represents k)) by (unfold represents; congruence).
    by rewrite lookup_insert_ne.
Qed.

Lemma filter_represents_unique ws k :
  NoDup (set_begin <$> ws) →
  filter (represents k) ws =
    match filter (represents k) ws with [] => [] | w :: _ => [w] end.
Proof.
  induction ws as [|w ws IH]; [done|]. rewrite fmap_cons.
  intros [Hfresh Hnd]%NoDup_cons.
  destruct (decide (represents k w)) as [Hk|Hk].
  - rewrite filter_cons_True by done. f_equal.
    apply filter_none. intros w' Hin Hrep. apply Hfresh.
    rewrite Hk, <- Hrep. by apply list_elem_of_fmap_2.
  - rewrite filter_cons_False by done. by apply IH.
Qed.

Lemma bind_ext_elem_of {A B} (f g : A → list B) (l : list A) :
  (∀ x, x ∈ l → f x = g x) → l ≫= f = l ≫= g.
Proof.
  induction l as [|x l IH]; [done|]. intros Hfg.
  rewrite !bind_cons, Hfg by left. f_equal. apply IH. intros; apply Hfg. by right.
Qed.

Lemma bind_nil_elem_of {A B} (f : A → list B) (l : list A) :
  (∀ x, x ∈ l → f x = []) → l ≫= f = [].
Proof.
  induction l as [|x l IH]; [done|]. intros Hf.
  rewrite bind_cons, Hf by left. apply IH. intros; apply Hf. by right.
Qed.

Lemma expand_loop_bind (wellMap : gmap Z (gset Z)) cellList addToList :
  (∀ k, is_Some (wellMap !! k) → (length (filter (λ t, t.1 = k) cellList) ≤ 1)%nat) →
  expand_loop wellMap cellList addToList = addToList ++ (cellList ≫= expansion wellMap).
Proof.
  revert wellMap addToList.
  induction cellList as [|c rest IH]; intros m acc Hone.
  { simpl. by rewrite app_nil_r. }
  cbn [expand_loop]. rewrite bind_cons.
  assert (Hrest : ∀ k, is_Some (m !! k) →
            (length (filter (λ t : Z * Rest, t.1 = k) rest) ≤ 1)%nat).
  { intros k Hk. specialize (Hone k Hk). rewrite filter_cons in Hone.
    case_decide; simpl in Hone; lia. }
  assert (Hempty : ∀ m' : gmap Z (gset Z), m' = ∅ → rest ≫= expansion m' = []).
  { intros m' ->. apply bind_nil_elem_of. intros t _. unfold expansion.
    by rewrite lookup_empty. }
  assert (Hexp : expansion m c =
            match m !! c.1 with Some w => wellCells c w | None => [] end).
  { unfold expansion. destruct (m !! c.1); simpl; [apply app_nil_r|done]. }
  rewrite Hexp. clear Hexp. destruct (m !! c.1) as [w|] eqn:Hc.
  - assert (Hfresh : ∀ t, t ∈ rest → t.1 ≠ c.1).
    { intros t Ht Heq. specialize (Hone c.1 (mk_is_Some _ _ Hc)).
      rewrite filter_cons_True in Hone by done. simpl in Hone.
      assert (t ∈ filter (λ t : Z * Rest, t.1 = c.1) rest) as Hin
        by (by apply list_elem_of_filter).
      destruct (filter _ rest); [by apply elem_of_nil in Hin|simpl in Hone; lia]. }
    assert (Hext : rest ≫= expansion (delete c.1 m) = rest ≫= expansion m).
    { apply bind_ext_elem_of. intros t Ht. unfold expansion.
      by rewrite lookup_delete_ne by (symmetry; by apply Hfresh). }
    rewrite <- Hext. case_decide as Hm.
    + by rewrite (Hempty _ Hm), app_nil_r.
    + rewrite IH; [by rewrite app_assoc|].
      intros k [x Hk]. apply Hrest. exists x.
      apply lookup_delete_Some in Hk. tauto.
  - case_decide as Hm.
    + by rewrite (Hempty _ Hm), app_nil_r.
    + by apply IH.
Qed.

Lemma length_bind_cons {A B} (f : A → list B) x (l : list A) :
  length ((x :: l) ≫= f) = (length (f x) + length (l ≫= f))%nat.
Proof. by rewrite bind_cons, length_app. Qed.

Lemma referenced_cons c cellList w :
  referenced (c :: cellList) w ↔ represents c.1 w ∨ referenced cellList w.
Proof. unfold referenced. apply Exists_cons. Qed.

Lemma length_added ws cellList :
  NoDup (set_begin <$> ws) → one_tuple_per_well ws cellList →
  length (added ws cellList) =
    sum_list ((λ w, size w - 1)%nat <$> filter (referenced cellList) ws).
Proof.
  unfold one_tuple_per_well in *.
  intros Hnd. induction cellList as [|c rest IH]; intros Hone.
  { simpl. rewrite filter_none; [done|]. intros w _ Hw. by apply Exists_nil in Hw. }
  unfold added in *. rewrite length_bind_cons, IH; clear IH.
  2:{ intros w r Hw Hr. specialize (Hone w r Hw Hr). rewrite filter_cons in Hone.
      case_decide; simpl in Hone; lia. }
  assert (Hfresh : ∀ w, w ∈ ws → represents c.1 w → ¬ referenced rest w).
  { intros w Hw Hr (t & Ht & Hrt)%Exists_exists.
    specialize (Hone w c.1 Hw Hr). rewrite filter_cons_True in Hone by done.
    assert (t ∈ filter (λ t : Z * Rest, t.1 = c.1) rest) as Hin.
    { apply list_elem_of_filter. split; [|done].
      unfold represents in *. congruence. }
    destruct (filter _ rest); [by apply elem_of_nil in Hin|simpl in Hone; lia]. }
  clear Hone Hnd. induction ws as [|w ws IH]; [done|].
  assert (∀ w, w ∈ ws → represents c.1 w → ¬ referenced rest w) as Hfresh'.
  { intros w' Hw'. apply Hfresh. by right. }
  specialize (IH Hfresh'). specialize (Hfresh w (list_elem_of_here _ _)).
  destruct (decide (represents c.1 w)) as [Hr|Hr].
  - rewrite (filter_cons_True (represents c.1)) by done.
    rewrite (filter_cons_True (referenced (c :: rest))) by (apply referenced_cons; tauto).
    rewrite (filter_cons_False (referenced rest)) by tauto.
    rewrite length_bind_cons, length_wellCells by done.
    rewrite fmap_cons. simpl. lia.
  - rewrite (filter_cons_False (represents c.1)) by done.
    destruct (decide (referenced rest w)) as [Hw|Hw].
    + rewrite (filter_cons_True (referenced (c :: rest))) by (apply referenced_cons; tauto).
      rewrite (filter_cons_True (referenced rest)) by done.
      rewrite !fmap_cons. simpl. lia.
    + rewrite (filter_cons_False (referenced (c :: rest))) by (rewrite referenced_cons; tauto).
      rewrite (filter_cons_False (referenced rest)) by done. done.
Qed.

Global Instance gID_le_total : Total (@gID_le Rest).
Proof. intros a b. unfold gID_le. lia. Qed.

Lemma HdRel_inplace_merge x (l1 l2 : list (TheTuple Rest)) :
  HdRel gID_le x l1 → HdRel gID_le x l2 →
  HdRel gID_le x (inplace_merge Rest_ltb l1 l2).
Proof.
  unfold inplace_merge.
  destruct 1 as [|y1 l1 H1], 1 as [|y2 l2 H2];
    rewrite ?list_merge_cons; simpl; repeat case_decide; auto.
Qed.

Lemma Sorted_inplace_merge (l1 l2 : list (TheTuple Rest)) :
  Sorted gID_le l1 → Sorted gID_le l2 →
  Sorted gID_le (inplace_merge Rest_ltb l1 l2).
Proof.
  unfold inplace_merge. intros Hl1. revert l2.
  induction Hl1 as [|x1 l1 Hs1 IH1 Hh1]; intros l2 Hl2.
  { by rewrite list_merge_nil_l. }
  induction Hl2 as [|x2 l2 Hs2 IH2 Hh2].
  { rewrite list_merge_nil_r. by constructor. }
  rewrite list_merge_cons. case_decide as Hcmp.
  - constructor; [apply IH1; by constructor|].
    apply (HdRel_inplace_merge x1 l1 (x2 :: l2)); [done|]. constructor.
    unfold first_range_first, tuple_lt, gID_le in *. lia.
  - constructor; [done|].
    apply (HdRel_inplace_merge x2 (x1 :: l1) l2); [|done]. constructor.
    unfold first_range_first, tuple_lt, gID_le in *.
    destruct (decide (x2.1 ≤ x1.1)); [done|]. destruct Hcmp. lia.
Qed.

Lemma fill_wellMap_filter ws :
  wells_represented ws →
  ∃ m, fill_wellMap ws ∅ = Returned m ∧
    ∀ k, option_list (m !! k) = filter (represents k) ws.
Proof.
  intros [Hne Hnd]. destruct (fill_wellMap_lookup ws ∅ Hne Hnd) as (m & Hm & Hl).
  exists m. split; [done|]. intros k. rewrite Hl, (filter_represents_unique ws k Hnd).
  by destruct (filter (represents k) ws).
Qed.

Lemma elem_of_added ws cellList (x : TheTuple Rest) :
  x ∈ added ws cellList ↔
    ∃ t w, t ∈ cellList ∧ w ∈ ws ∧ represents t.1 w
           ∧ x.1 ∈ w ∧ x.1 ≠ t.1 ∧ x.2 = t.2.
Proof.
  unfold added. rewrite list_elem_of_bind. split.
  - intros (t & Hx & Ht). apply list_elem_of_bind in Hx as (w & Hx & Hw).
    apply list_elem_of_filter in Hw as [Hr Hw]. unfold wellCells in Hx.
    apply list_elem_of_fmap in Hx as (m & -> & Hm).
    apply list_elem_of_filter in Hm as [Hne Hm%elem_of_set_iter].
    by exists t, w.
  - intros (t & w & Ht & Hw & Hr & Hm & Hne & Hx2). exists t. split; [|done].
    apply list_elem_of_bind. exists w. split; [|by apply list_elem_of_filter].
    unfold wellCells. apply list_elem_of_fmap. exists x.1. split.
    + destruct x. simpl in *. by subst.
    + apply list_elem_of_filter. split; [done|]. by apply elem_of_set_iter.
Qed.

(** C1: for a registry whose wells are non-empty and have distinct
    representatives, and a list with at most one tuple for every well
    representative, [extendImportExportList] returns a list whose length
    is the length of the input plus the sum of [size well - 1] over the
    wells whose representative is the global id of an input tuple.  The
    output holds the input tuples and, for every input tuple whose id
    represents a well, one copy of it for every other member of the
    well, with the member's id in place of the global id and the other
    fields as they are: a tuple is in the output exactly when it is an
    input tuple, or its global id is a member, other than the
    representative, of a well whose representative is the id of an input
    tuple and its other fields are those of that tuple.  An input sorted
    by global id gives an output sorted by global id. *)
Theorem extendImportExportList_expands (gog : GraphOfGrid) cellList :
  wells_represented (getWells gog) →
  one_tuple_per_well (getWells gog) cellList →
  ∃ out, extendImportExportList Rest_ltb gog cellList = Returned out
    ∧ length out =
        (length cellList +
         sum_list ((λ w, size w - 1)%nat <$> filter (referenced cellList) (getWells gog)))%nat
    ∧ out ≡ₚ cellList ++ added (getWells gog) cellList
    ∧ (∀ x, x ∈ out ↔
         x ∈ cellList
         ∨ ∃ t w, t ∈ cellList ∧ w ∈ getWells gog ∧ represents t.1 w
                  ∧ x.1 ∈ w ∧ x.1 ≠ t.1 ∧ x.2 = t.2)
    ∧ (Sorted gID_le cellList → Sorted gID_le out).
Proof.
  intros Hwf Hone. unfold extendImportExportList.
  destruct (fill_wellMap_filter _ Hwf) as (m & -> & Hm). simpl.
  assert (Hadd : expand_loop m cellList [] = added (getWells gog) cellList).
  { rewrite expand_loop_bind.
    - simpl. unfold added. apply bind_ext_elem_of. intros t _.
      unfold expansion. by rewrite Hm.
    - intros k [w Hk]. specialize (Hm k). rewrite Hk in Hm. simpl in Hm.
      apply (Hone w k).
      + eapply (list_elem_of_filter (represents k)). rewrite <- Hm. left.
      + eapply (list_elem_of_filter (represents k) (getWells gog)). rewrite <- Hm. left. }
  rewrite Hadd. eexists. split; [done|].
  assert (Hperm : inplace_merge Rest_ltb cellList
                    (merge_sort gID_le (added (getWells gog) cellList))
                  ≡ₚ cellList ++ added (getWells gog) cellList).
  { unfold inplace_merge. by rewrite merge_Permutation, merge_sort_Permutation. }
  split; [|split; [done|split]].
  - rewrite Hperm, length_app, length_added; [done|apply Hwf|done].
  - intros x. by rewrite Hperm, elem_of_app, elem_of_added.
  - intros Hs. apply Sorted_inplace_merge; [done|]. apply Sorted_merge_sort, _.
Qed.

(** C10: with an empty registry of wells [extendImportExportList]
    returns the list it was given: the same tuples in the same order. *)
Theorem extendImportExportList_no_wells (gog : GraphOfGrid) cellList :
  getWells gog = [] →
  extendImportExportList Rest_ltb gog cellList = Returned cellList.
Proof.
  intros Hw. unfold extendImportExportList. rewrite Hw.
  cbn [fill_wellMap obind].
  assert (expand_loop ∅ cellList [] = []) as ->.
  { destruct cellList as [|c rest]; [done|]. simpl. rewrite lookup_empty.
    by rewrite decide_True. }
  change (merge_sort gID_le []) with (@nil (TheTuple Rest)).
  unfold inplace_merge. by rewrite list_merge_nil_r.
Qed.
End ListExpanderFacts.

(** ** Buffers, vertex list and edge counts *)

Section Buffers.
Context {A : Type}.
Implicit Types (buf xs : list A).

Lemma overwrite_nil i buf : overwrite i [] buf = buf.
Proof. unfold overwrite. simpl. by rewrite Nat.add_0_r, take_drop. Qed.

Lemma length_overwrite i xs buf :
  (i + length xs ≤ length buf)%nat → length (overwrite i xs buf) = length buf.
Proof.
  intros Hle. unfold overwrite. rewrite !length_app, length_take, length_drop. lia.
Qed.

Lemma poke_overwrite i x buf :
  (i < length buf)%nat → poke i x buf = Returned (overwrite i [x] buf).
Proof.
  intros Hlt. unfold poke, overwrite. rewrite decide_True by done.
  f_equal. rewrite insert_take_drop by done. simpl. by rewrite Nat.add_1_r.
Qed.

Lemma overwrite_app i xs ys buf :
  (i + length xs ≤ length buf)%nat →
  overwrite (i + length xs) ys (overwrite i xs buf) = overwrite i (xs ++ ys) buf.
Proof.
  intros Hle. unfold overwrite.
  assert (Hlen : length (take i buf ++ xs) = (i + length xs)%nat).
  { rewrite length_app, length_take. lia. }
  rewrite !(assoc_L (++) (take i buf) xs).
  rewrite take_app_length' by done.
  rewrite (drop_app_add' _ _ (i + length xs)) by done.
  rewrite drop_drop, length_app, <- !(assoc_L (++)).
  by replace (i + length xs + length ys)%nat with (i + (length xs + length ys))%nat by lia.
Qed.

Lemma overwrite_cons i x xs buf :
  (i + S (length xs) ≤ length buf)%nat →
  overwrite (S i) xs (overwrite i [x] buf) = overwrite i (x :: xs) buf.
Proof.
  intros Hle. unfold overwrite. simpl.
  assert (Hlen : length (take i buf ++ [x]) = S i).
  { rewrite length_app, length_take. simpl. lia. }
  rewrite (cons_middle x (take i buf)), !(assoc_L (++) (take i buf) [x]).
  rewrite take_app_length' by done.
  change (S (i + length xs)) with (S i + length xs)%nat.
  rewrite (drop_app_add' _ _ (S i)) by done.
  rewrite drop_drop, <- (assoc_L (++)). simpl.
  by replace (i + 1 + length xs)%nat with (i + S (length xs))%nat by lia.
Qed.

Lemma overwrite_0 xs buf : overwrite 0 xs buf = xs ++ drop (length xs) buf.
Proof. done. Qed.

Lemma take_drop_cons n i (l : list A) x r :
  take (S n) (drop i l) = x :: r → l !! i = Some x ∧ take n (drop (S i) l) = r.
Proof.
  intros Htd. destruct (l !! i) as [y|] eqn:Hl.
  - rewrite (drop_S _ _ _ Hl) in Htd. simpl in Htd. by simplify_eq.
  - rewrite drop_ge in Htd by (by apply lookup_ge_None). done.
Qed.
End Buffers.

Lemma cb_bind_lift {A B : Type} (a : A) (k : A → Callback B) s :
  cb_bind (cb_lift (Returned a)) k s = k a s.
Proof. done. Qed.

Lemma verticesList_loop_overwrite vs i gIDs objWeights :
  (i + length vs ≤ length gIDs)%nat → (i + length vs ≤ length objWeights)%nat →
  verticesList_loop vs i gIDs objWeights =
    Returned (overwrite i vs.*1 gIDs, overwrite i (weight <$> vs.*2) objWeights).
Proof.
  revert i gIDs objWeights. induction vs as [|v vs IH]; intros i gIDs ws Hg Hw.
  { simpl. by rewrite !overwrite_nil. }
  simpl in Hg, Hw. cbn [verticesList_loop].
  rewrite !poke_overwrite by lia. cbn [obind].
  rewrite IH by (rewrite length_overwrite; simpl; lia).
  rewrite !fmap_cons.
  by rewrite !overwrite_cons by (rewrite ?length_fmap; lia).
Qed.

(** C7: called with ids and weights of one entry each and with arrays
    that have room for every vertex, [getGraphOfGridVerticesList] writes
    one entry per live vertex: entry [i] of [gIDs] and of [objWeights] is
    the id and the weight of the [i]-th vertex in the iteration order of
    the graph, the entries behind them keep their content, the status is
    [ZOLTAN_OK], and [lIDs] is left as it was.  The store, and with it the
    graph, is unchanged. *)
Theorem getGraphOfGridVerticesList_fills (st : Store) (dimLocalID : Z)
    (gIDs : list Z) (lIDs : option (list Z)) (objWeights : list Qc) :
  let vertices := map_to_list (graph (pGraph st)) in
  (size (graph (pGraph st)) ≤ length gIDs)%nat →
  (size (graph (pGraph st)) ≤ length objWeights)%nat →
  length vertices = size (graph (pGraph st)) ∧
  getGraphOfGridVerticesList 1 dimLocalID gIDs lIDs 1 objWeights st =
    (st, Returned {| vl_gIDs := vertices.*1 ++ drop (length vertices) gIDs;
                     vl_lIDs := lIDs;
                     vl_objWeights :=
                       (weight <$> vertices.*2) ++ drop (length vertices) objWeights;
                     vl_err := ZOLTAN_OK |}).
Proof.
  intros vertices Hg Hw.
  assert (Hlen : length vertices = size (graph (pGraph st))) by apply length_map_to_list.
  split; [done|].
  unfold getGraphOfGridVerticesList, cb_assert, cb_bind, cb_graph, cb_lift, cb_ret. simpl.
  fold vertices. rewrite verticesList_loop_overwrite by lia.
  by rewrite !overwrite_0, !length_fmap.
Qed.

Lemma numEdges_sentinel gog gID :
  (GraphOfGrid_numEdges gog gID =? -1) = bool_decide (¬ live gog gID).
Proof.
  unfold GraphOfGrid_numEdges. case_bool_decide as Hl; unfold live in Hl;
    destruct (graph gog !! gID) as [v|] eqn:E.
  - destruct Hl. by eexists.
  - done.
  - apply Z.eqb_neq. lia.
  - by destruct Hl.
Qed.

Definition log_error (msg : string) (st : Store) : Store :=
  {| pGraph := pGraph st; OpmLog_error := OpmLog_error st ++ [msg] |}.

Lemma numEdges_loop_ok gog req : ∀ n i gIDs numEdges st,
  take n (drop i gIDs) = req → length req = n →
  (i + n ≤ length numEdges)%nat → Forall (live gog) req →
  numEdges_loop gog n i gIDs numEdges st =
    (st, Returned (overwrite i (GraphOfGrid_numEdges gog <$> req) numEdges, ZOLTAN_OK)).
Proof.
  induction req as [|g req IH]; intros n i gIDs numEdges st Hreq Hn Hlen Hlive.
  { simpl in Hn. subst n. simpl. by rewrite overwrite_nil. }
  simpl in Hn. subst n. apply take_drop_cons in Hreq as [Hi Hreq].
  apply Forall_cons in Hlive as [Hg Hlive].
  cbn [numEdges_loop]. unfold peek. rewrite Hi, cb_bind_lift.
  rewrite numEdges_sentinel, bool_decide_eq_false_2 by tauto.
  rewrite poke_overwrite by lia. rewrite cb_bind_lift.
  rewrite (IH _ _ _ _ _ Hreq) by (rewrite ?length_overwrite; simpl; done || lia).
  rewrite fmap_cons. by rewrite overwrite_cons by (rewrite length_fmap; lia).
Qed.

Lemma numEdges_loop_fatal gog pre : ∀ n i gIDs numEdges st bad post,
  take n (drop i gIDs) = pre ++ bad :: post →
  (i + length pre ≤ length numEdges)%nat → Forall (live gog) pre → ¬ live gog bad →
  numEdges_loop gog n i gIDs numEdges st =
    (log_error (numEdges_message bad) st,
     Returned (overwrite i (GraphOfGrid_numEdges gog <$> pre) numEdges, ZOLTAN_FATAL)).
Proof.
  induction pre as [|g pre IH]; intros n i gIDs numEdges st bad post Hreq Hlen Hlive Hbad;
    (destruct n as [|n]; [done|]); apply take_drop_cons in Hreq as [Hi Hreq];
    cbn [numEdges_loop]; unfold peek; rewrite Hi, cb_bind_lift, numEdges_sentinel.
  - rewrite bool_decide_eq_true_2 by done. simpl. by rewrite overwrite_nil.
  - apply Forall_cons in Hlive as [Hg Hlive]. simpl in Hlen.
    rewrite bool_decide_eq_false_2 by tauto.
    rewrite poke_overwrite by lia. rewrite cb_bind_lift.
    rewrite (IH _ _ _ _ _ _ _ Hreq) by (rewrite ?length_overwrite; simpl; done || lia).
    rewrite fmap_cons. by rewrite overwrite_cons by (rewrite length_fmap; lia).
Qed.

Lemma first_not {A} (P : A → Prop) `{!∀ x, Decision (P x)} (l : list A) :
  ¬ Forall P l → ∃ pre bad post, l = pre ++ bad :: post ∧ Forall P pre ∧ ¬ P bad.
Proof.
  induction l as [|x l IH]; intros Hn.
  { destruct Hn. constructor. }
  destruct (decide (P x)) as [Hx|Hx].
  - destruct IH as (pre & bad & post & -> & Hpre & Hbad).
    { intros Hl. apply Hn. by constructor. }
    exists (x :: pre), bad, post. split; [done|]. split; [by constructor|done].
  - exists [], x, l. split; [done|]. split; [constructor|done].
Qed.

(** C6: for a batch of [numCells] ids read from [gIDs] and a buffer
    [numEdges] with room for them, [getGraphOfGridNumEdges] does one of two
    things.  If every requested id is live it writes the number of edges
    of the [i]-th id into [numEdges[i]] for every [i] and sets the status
    [ZOLTAN_OK].  Otherwise it stops at the first requested id that is not
    live: the counts of the ids before it are written, the entry of that
    id and every later entry keep their content, one message goes to
    [OpmLog::error], in which the id stands in decimal, and the status is
    [ZOLTAN_FATAL]. *)
Theorem getGraphOfGridNumEdges_status (st : Store) (dimLocalID : Z) (numCells : nat)
    (gIDs : list Z) (lIDs : option (list Z)) (numEdges : list Z) :
  let gog := pGraph st in
  let requested := take numCells gIDs in
  (numCells ≤ length gIDs)%nat → (numCells ≤ length numEdges)%nat →
  (Forall (live gog) requested →
     getGraphOfGridNumEdges 1 dimLocalID numCells gIDs lIDs numEdges st =
       (st, Returned {| ne_lIDs := lIDs;
                        ne_numEdges := (GraphOfGrid_numEdges gog <$> requested)
                                       ++ drop numCells numEdges;
                        ne_err := ZOLTAN_OK |}))
  ∧ (¬ Forall (live gog) requested →
     ∃ pre bad post, requested = pre ++ bad :: post
       ∧ Forall (live gog) pre ∧ ¬ live gog bad
       ∧ getGraphOfGridNumEdges 1 dimLocalID numCells gIDs lIDs numEdges st =
           (log_error (numEdges_message bad) st,
            Returned {| ne_lIDs := lIDs;
                        ne_numEdges := (GraphOfGrid_numEdges gog <$> pre)
                                       ++ drop (length pre) numEdges;
                        ne_err := ZOLTAN_FATAL |})
       ∧ names (numEdges_message bad) bad).
Proof.
  intros gog requested Hg Hn.
  assert (Hlen : length requested = numCells) by (unfold requested; rewrite length_take; lia).
  unfold getGraphOfGridNumEdges, cb_assert. simpl.
  unfold cb_bind at 1. unfold cb_graph. fold gog. split.
  - intros Hlive. unfold cb_bind.
    rewrite (numEdges_loop_ok gog requested) by (done || lia).
    unfold cb_ret. by rewrite overwrite_0, length_fmap, Hlen.
  - intros (pre & bad & post & Hreq & Hpre & Hbad)%first_not; [|apply _].
    exists pre, bad, post. split; [done|]. split; [done|]. split; [done|].
    split; [|by eexists _, _].
    unfold cb_bind.
    rewrite (numEdges_loop_fatal gog pre _ _ _ _ _ bad post) by
      (done || apply (f_equal length) in Hreq; rewrite ?length_app in Hreq; simpl in *; lia).
    unfold cb_ret. by rewrite overwrite_0, length_fmap.
Qed.

(** ** Edge lists *)

Lemma map_iter_perm {V} (m : gmap Z V) : map_iter m ≡ₚ map_to_list m.
Proof. apply merge_sort_Permutation. Qed.

Lemma elem_of_map_iter {V} (m : gmap Z V) e : e ∈ map_iter m ↔ m !! e.1 = Some e.2.
Proof. rewrite map_iter_perm. destruct e. apply elem_of_map_to_list. Qed.

Lemma length_map_iter {V} (m : gmap Z V) : length (map_iter m) = size m.
Proof. rewrite map_iter_perm. apply length_map_to_list. Qed.

Lemma write_edges_nil gog id out : write_edges gog id [] out = out.
Proof. unfold write_edges. simpl. rewrite !overwrite_nil. by destruct out. Qed.

Lemma fits_write_edges gog id es n out :
  fits (id + length es) out → fits n out → fits n (write_edges gog id es out).
Proof.
  unfold fits, write_edges. simpl. intros (?&?&?) (?&?&?).
  rewrite !length_overwrite by (rewrite ?length_fmap; done). done.
Qed.

Lemma write_edges_app gog id es1 es2 out :
  fits (id + length es1) out →
  write_edges gog (id + length es1) es2 (write_edges gog id es1 out)
  = write_edges gog id (es1 ++ es2) out.
Proof.
  intros (?&?&?). unfold write_edges. simpl. rewrite !fmap_app. f_equal.
  - rewrite <- (length_fmap fst es1) at 1. apply overwrite_app. by rewrite length_fmap.
  - rewrite <- (length_fmap fst es1), <- (length_fmap (owner gog) es1.*1) at 1.
    apply overwrite_app. by rewrite !length_fmap.
  - rewrite <- (length_fmap snd es1) at 1. apply overwrite_app. by rewrite length_fmap.
Qed.

Lemma emit_edges_write gog es : ∀ id out,
  Forall (λ e, live gog e.1) es → fits (id + length es) out →
  emit_edges gog es id out = Returned ((id + length es)%nat, write_edges gog id es out).
Proof.
  induction es as [|e es IH]; intros id out Hlive Hfits.
  { simpl. by rewrite Nat.add_0_r, write_edges_nil. }
  apply Forall_cons in Hlive as [[v Hv] Hlive].
  pose proof Hfits as (Hg & Hp & Hw). simpl in Hg, Hp, Hw.
  cbn [emit_edges]. rewrite poke_overwrite by lia. cbn [obind].
  unfold getVertex. rewrite Hv. cbn [obind].
  do 2 (rewrite poke_overwrite by lia; cbn [obind]).
  assert (Hstep : {| nborGIDs := overwrite id [e.1] (nborGIDs out);
                     nborProc := overwrite id [nproc v] (nborProc out);
                     edgeWeights := overwrite id [e.2] (edgeWeights out) |}
                  = write_edges gog id [e] out).
  { unfold write_edges, owner. simpl. by rewrite Hv. }
  rewrite Hstep, IH; [|done|].
  - replace (S id) with (id + length [e])%nat by (simpl; lia).
    rewrite write_edges_app by (unfold fits; simpl; lia).
    simpl. do 2 f_equal. lia.
  - apply fits_write_edges; unfold fits in *; simpl in *; lia.
Qed.

Lemma emit_edges_of gog gID v id out :
  adjacency_closed gog → graph gog !! gID = Some v →
  fits (id + size (edges v)) out →
  emit_edges gog (map_iter (edges v)) id out
  = Returned ((id + length (edges_of gog gID))%nat, write_edges gog id (edges_of gog gID) out).
Proof.
  intros Hclosed Hv Hfits. unfold edges_of. rewrite Hv.
  apply emit_edges_write; [|by rewrite length_map_iter].
  apply Forall_forall. intros e He%elem_of_map_iter.
  eapply Hclosed; [done|]. by eexists.
Qed.

Lemma length_edges_of gog gID v :
  graph gog !! gID = Some v → length (edges_of gog gID) = size (edges v).
Proof. intros Hv. unfold edges_of. by rewrite Hv, length_map_iter. Qed.

Ltac cb_step := rewrite cb_bind_lift; cbv beta.

Section EdgeListLoop.
Context (gog : GraphOfGrid) (Hclosed : adjacency_closed gog).

Lemma edgeList_loop_ok ids : ∀ exps n i gIDs numEdges id out st,
  take n (drop i gIDs) = ids → take n (drop i numEdges) = exps →
  length ids = n → Forall2 (agrees gog) ids exps →
  fits (id + length (emitted gog ids)) out →
  edgeList_loop gog n i gIDs numEdges id out st =
    (st, Returned (write_edges gog id (emitted gog ids) out, ZOLTAN_OK)).
Proof.
  induction ids as [|g ids IH];
    intros exps n i gIDs numEdges id out st Hids Hexps Hn Hagree Hfits.
  { simpl in Hn. subst n. simpl. by rewrite write_edges_nil. }
  simpl in Hn. subst n.
  apply Forall2_cons_inv_l in Hagree as (e & exps' & (v & Hv & He) & Hagree & ->).
  apply take_drop_cons in Hids as [Hi Hids].
  apply take_drop_cons in Hexps as [Hj Hexps].
  unfold emitted in Hfits. rewrite bind_cons, length_app in Hfits.
  fold (emitted gog ids) in Hfits.
  pose proof (length_edges_of gog g v Hv) as Hlen.
  cbn [edgeList_loop]. unfold peek, edgeList.
    rewrite Hi; cb_step; rewrite Hv; cb_step; rewrite Hj; cb_step.
  rewrite (proj2 (Z.eqb_eq _ _) He). cbn [negb].
  rewrite (emit_edges_of gog g v) by (done || unfold fits in *; lia).
  cb_step.
  rewrite (IH _ _ _ _ _ _ _ _ Hids Hexps); [|done|done|].
  - rewrite write_edges_app by (unfold fits in *; lia).
    unfold emitted. by rewrite bind_cons.
  - apply fits_write_edges; unfold fits in *; lia.
Qed.

Lemma edgeList_loop_fatal pre : ∀ exps n i gIDs numEdges id out st bad post expected found,
  take n (drop i gIDs) = pre ++ bad :: post →
  take (S (length pre)) (drop i numEdges) = exps ++ [expected] →
  Forall2 (agrees gog) pre exps →
  graph gog !! bad = Some found → Z.of_nat (size (edges found)) ≠ expected →
  fits (id + length (emitted gog pre)) out →
  edgeList_loop gog n i gIDs numEdges id out st =
    (log_error (edgeList_message expected (size (edges found)) bad) st,
     Returned (write_edges gog id (emitted gog pre) out, ZOLTAN_FATAL)).
Proof.
  induction pre as [|g pre IH];
    intros exps n i gIDs numEdges id out st bad post expected found
           Hids Hexps Hagree Hbad Hne Hfits;
    (destruct n as [|n]; [done|]); apply take_drop_cons in Hids as [Hi Hids].
  - apply Forall2_nil_inv_l in Hagree as ->.
    apply take_drop_cons in Hexps as [Hj _].
    cbn [edgeList_loop]. unfold peek, edgeList.
    rewrite Hi; cb_step; rewrite Hbad; cb_step; rewrite Hj; cb_step.
    rewrite (proj2 (Z.eqb_neq _ _) Hne). cbn [negb].
    simpl. by rewrite write_edges_nil.
  - apply Forall2_cons_inv_l in Hagree as (e & exps' & (v & Hv & He) & Hagree & ->).
    apply take_drop_cons in Hexps as [Hj Hexps].
    unfold emitted in Hfits. rewrite bind_cons, length_app in Hfits.
    fold (emitted gog pre) in Hfits.
    pose proof (length_edges_of gog g v Hv) as Hlen.
    cbn [edgeList_loop]. unfold peek, edgeList.
    rewrite Hi; cb_step; rewrite Hv; cb_step; rewrite Hj; cb_step.
    rewrite (proj2 (Z.eqb_eq _ _) He). cbn [negb].
    rewrite (emit_edges_of gog g v) by (done || unfold fits in *; lia).
    cb_step.
    rewrite (IH exps' n (S i) gIDs numEdges _ _ st bad post expected found
                Hids Hexps Hagree Hbad Hne).
    + rewrite write_edges_app by (unfold fits in *; lia).
      unfold emitted. by rewrite bind_cons.
    + apply fits_write_edges; unfold fits in *; lia.
Qed.

Lemma edgeList_loop_throws pre : ∀ exps n i gIDs numEdges id out st bad post,
  take n (drop i gIDs) = pre ++ bad :: post →
  take (length pre) (drop i numEdges) = exps →
  Forall2 (agrees gog) pre exps →
  ¬ live gog bad →
  fits (id + length (emitted gog pre)) out →
  edgeList_loop gog n i gIDs numEdges id out st = (st, Thrown logic_error).
Proof.
  induction pre as [|g pre IH];
    intros exps n i gIDs numEdges id out st bad post Hids Hexps Hagree Hbad Hfits;
    (destruct n as [|n]; [done|]); apply take_drop_cons in Hids as [Hi Hids].
  - cbn [edgeList_loop]. unfold peek, edgeList. rewrite Hi; cb_step.
    destruct (graph gog !! bad) eqn:E; [|done]. destruct Hbad. by eexists.
  - rewrite <- Hexps in Hagree. cbn [length] in Hagree.
    destruct (take (S (length pre)) (drop i numEdges)) as [|e exps'] eqn:Hexps';
      [by apply Forall2_nil_inv_r in Hagree|].
    apply Forall2_cons in Hagree as [(v & Hv & He) Hagree].
    apply take_drop_cons in Hexps' as [Hj Hexps'].
    unfold emitted in Hfits. rewrite bind_cons, length_app in Hfits.
    fold (emitted gog pre) in Hfits.
    pose proof (length_edges_of gog g v Hv) as Hlen.
    cbn [edgeList_loop]. unfold peek, edgeList.
    rewrite Hi; cb_step; rewrite Hv; cb_step; rewrite Hj; cb_step.
    rewrite (proj2 (Z.eqb_eq _ _) He). cbn [negb].
    rewrite (emit_edges_of gog g v) by (done || unfold fits in *; lia).
    cb_step.
    apply (IH exps' n (S i) gIDs numEdges _ _ st bad post Hids); [by subst|done|done|].
    apply fits_write_edges; unfold fits in *; lia.
Qed.
End EdgeListLoop.

Lemma append_assoc (s1 s2 s3 : string) : (s1 +:+ s2) +:+ s3 = s1 +:+ s2 +:+ s3.
Proof.
  induction s1 as [|c s1 IH]; [done|].
  change (String c ((s1 +:+ s2) +:+ s3) = String c (s1 +:+ s2 +:+ s3)). by rewrite IH.
Qed.

Lemma edgeList_message_names (expected : Z) (found : nat) (gID : Z) :
  names (edgeList_message expected found gID) gID
  ∧ names (edgeList_message expected found gID) expected
  ∧ names (edgeList_message expected found gID) found.
Proof.
  unfold names, edgeList_message. split; [|split].
  - exists ("getGraphOfGridEdgeList error: Edge number disagreement"
            +:+ " between Zoltan (" +:+ pretty expected +:+ ") and Graph ("
            +:+ pretty found +:+ ") for vertex with ID "), newline.
    by rewrite !append_assoc.
  - exists ("getGraphOfGridEdgeList error: Edge number disagreement"
            +:+ " between Zoltan ("),
           (") and Graph (" +:+ pretty found +:+ ") for vertex with ID "
            +:+ pretty gID +:+ newline).
    by rewrite !append_assoc.
  - exists ("getGraphOfGridEdgeList error: Edge number disagreement"
            +:+ " between Zoltan (" +:+ pretty expected +:+ ") and Graph ("),
           (") for vertex with ID " +:+ pretty gID +:+ newline).
    by rewrite !append_assoc.
Qed.

(** C2, as the code has it: in a graph in which every neighbour is a vertex, and
    with output arrays that have room for the edges written, a batch
    query of [getGraphOfGridEdgeList] ends in one of three ways.
    - Every requested id is live and has as many neighbours as
      [numEdges] expects: the edges of all ids are written one after the
      other and the status is [ZOLTAN_OK].
    - The ids before [bad] are live with the expected counts, [bad] is
      live and its count differs from the expected one: the status is
      [ZOLTAN_FATAL], one message goes to [OpmLog::error], in which
      [bad], the expected count and the count of the graph stand in
      decimal, and only the edges of the ids before [bad] are written.
    - The ids before [bad] are live with the expected counts and [bad] is
      not live: [edgeList] throws [std::logic_error]; no status is set
      and no message is written. *)
Theorem getGraphOfGridEdgeList_status (st : Store) (dimLocalID : Z) (numCells : nat)
    (gIDs : list Z) (lIDs : option (list Z)) (numEdges : list Z) (out : EdgeArrays) :
  let gog := pGraph st in
  let run := getGraphOfGridEdgeList 1 dimLocalID numCells gIDs lIDs numEdges out 1 st in
  adjacency_closed gog →
  (numCells ≤ length gIDs)%nat →
  (Forall2 (agrees gog) (take numCells gIDs) (take numCells numEdges) →
   fits (length (emitted gog (take numCells gIDs))) out →
   run = (st, Returned {| el_lIDs := lIDs;
                          el_out := write_edges gog 0 (emitted gog (take numCells gIDs)) out;
                          el_err := ZOLTAN_OK |}))
  ∧ (∀ pre bad post exps expected found,
       take numCells gIDs = pre ++ bad :: post →
       take (S (length pre)) numEdges = exps ++ [expected] →
       Forall2 (agrees gog) pre exps →
       graph gog !! bad = Some found →
       Z.of_nat (size (edges found)) ≠ expected →
       fits (length (emitted gog pre)) out →
       run = (log_error (edgeList_message expected (size (edges found)) bad) st,
              Returned {| el_lIDs := lIDs;
                          el_out := write_edges gog 0 (emitted gog pre) out;
                          el_err := ZOLTAN_FATAL |})
       ∧ names (edgeList_message expected (size (edges found)) bad) bad
       ∧ names (edgeList_message expected (size (edges found)) bad) expected
       ∧ names (edgeList_message expected (size (edges found)) bad) (size (edges found)))
  ∧ (∀ pre bad post,
       take numCells gIDs = pre ++ bad :: post →
       Forall2 (agrees gog) pre (take (length pre) numEdges) →
       ¬ live gog bad →
       fits (length (emitted gog pre)) out →
       run = (st, Thrown logic_error)).
Proof.
  intros gog run Hclosed Hn. subst run gog.
  unfold getGraphOfGridEdgeList, cb_assert. simpl.
  unfold cb_bind at 1. unfold cb_graph.
  split; [|split].
  - intros Hagree Hfits. unfold cb_bind.
    rewrite (edgeList_loop_ok _ Hclosed (take numCells gIDs) (take numCells numEdges));
      [done|done|done|by rewrite length_take; lia|done|done].
  - intros pre bad post exps expected found Hids Hexps Hagree Hbad Hne Hfits.
    split; [|apply edgeList_message_names].
    unfold cb_bind.
    by rewrite (edgeList_loop_fatal _ Hclosed pre exps numCells 0 gIDs numEdges 0 out st
                  bad post expected found Hids Hexps Hagree Hbad Hne Hfits).
  - intros pre bad post Hids Hagree Hbad Hfits. unfold cb_bind.
    by rewrite (edgeList_loop_throws _ Hclosed pre _ numCells 0 gIDs numEdges 0 out st
                  bad post Hids eq_refl Hagree Hbad Hfits).
Qed.

Create HintDb reads_only discriminated.

Lemma reads_only_ret {A} (a : A) : reads_only (cb_ret a).
Proof. done. Qed.

Lemma reads_only_lift {A} (o : outcome A) : reads_only (cb_lift o).
Proof. done. Qed.

Lemma reads_only_graph : reads_only cb_graph.
Proof. done. Qed.

Lemma reads_only_error msg : reads_only (cb_error msg).
Proof. done. Qed.

Lemma reads_only_bind {A B} (c : Callback A) (k : A → Callback B) :
  reads_only c → (∀ a, reads_only (k a)) → reads_only (cb_bind c k).
Proof.
  intros Hc Hk s. unfold cb_bind. specialize (Hc s).
  destruct (c s) as [s' [a|e| |]]; simpl in *; [|done..].
  by rewrite Hk.
Qed.

Lemma reads_only_assert {A} b (c : Callback A) : reads_only c → reads_only (cb_assert b c).
Proof. intros Hc. destruct b; [done|]. apply reads_only_lift. Qed.

Lemma reads_only_if {A} (b : bool) (c1 c2 : Callback A) :
  reads_only c1 → reads_only c2 → reads_only (if b then c1 else c2).
Proof. by destruct b. Qed.

Lemma reads_only_pair {A B C} (k : A → B → Callback C) :
  (∀ a b, reads_only (k a b)) → ∀ p, reads_only (let '(a, b) := p in k a b).
Proof. intros Hk [a b]. apply Hk. Qed.

#[export] Hint Resolve reads_only_ret reads_only_lift reads_only_graph reads_only_error
  reads_only_assert reads_only_if : reads_only.
#[export] Hint Extern 2 (reads_only (cb_bind _ _)) =>
  apply reads_only_bind; [|intros ?] : reads_only.
#[export] Hint Extern 2 (reads_only (let '(_, _) := ?p in _)) =>
  destruct p : reads_only.

Lemma reads_only_numEdges_loop gog n : ∀ i gIDs numEdges,
  reads_only (numEdges_loop gog n i gIDs numEdges).
Proof. induction n; intros; cbn [numEdges_loop]; auto 10 with reads_only. Qed.

Lemma reads_only_edgeList_loop gog n : ∀ i gIDs numEdges id out,
  reads_only (edgeList_loop gog n i gIDs numEdges id out).
Proof. induction n; intros; cbn [edgeList_loop]; auto 10 with reads_only. Qed.

#[export] Hint Resolve reads_only_numEdges_loop reads_only_edgeList_loop : reads_only.

Lemma reads_only_call c : reads_only (call c).
Proof.
  destruct c; cbn [call];
    unfold getGraphOfGridNumVertices, getGraphOfGridVerticesList,
           getGraphOfGridNumEdges, getGraphOfGridEdgeList;
    auto 10 with reads_only.
Qed.

(** C9: after any sequence of calls of the four callbacks, with any
    arguments, the graph behind [pGraph] is the graph it was before, be
    it that every call returned, with [ZOLTAN_OK] or [ZOLTAN_FATAL], or
    that the sequence was stopped by a call that did not return (an
    exception of the graph, a failed assertion, or an access outside of
    a buffer, where the model stops). *)
Theorem callbacks_leave_graph (cs : list Call) (st : Store) :
  pGraph (calls cs st).1 = pGraph st.
Proof.
  revert st. change (reads_only (calls cs)).
  induction cs as [|c cs IH]; cbn [calls]; auto using reads_only_call with reads_only.
Qed.

(** ** Contraction *)

Lemma total_weight_sum gog : total_weight gog = sum_weights (graph gog).
Proof. done. Qed.

Lemma combine_comm x y : combine x y = combine y x.
Proof. destruct x, y; simpl; try done. f_equal. apply Qcplus_comm. Qed.

Lemma combine_None_r x : combine x None = x.
Proof. by destruct x. Qed.

Lemma lookup_merge_edges e1 e2 n :
  merge_edges e1 e2 !! n = combine (e1 !! n) (e2 !! n).
Proof. unfold merge_edges, combine. apply lookup_union_with. Qed.

Lemma redirect_lookup_rep gone rep pv :
  rep ≠ gone →
  edges (redirect gone rep pv) !! rep = combine (edges pv !! rep) (edges pv !! gone).
Proof.
  intros Hne. unfold redirect. destruct (edges pv !! gone) as [w|] eqn:Hg; simpl.
  - by rewrite lookup_merge_edges, lookup_delete_ne, lookup_singleton_eq.
  - by rewrite combine_None_r.
Qed.

Lemma redirect_lookup_gone gone rep pv :
  rep ≠ gone → edges (redirect gone rep pv) !! gone = None.
Proof.
  intros Hne. unfold redirect. destruct (edges pv !! gone) as [w|] eqn:Hg; simpl; [|done].
  by rewrite lookup_merge_edges, lookup_delete_eq, lookup_singleton_ne.
Qed.

Lemma weight_redirect gone rep pv : weight (redirect gone rep pv) = weight pv.
Proof. unfold redirect. by destruct (edges pv !! gone). Qed.

Lemma contractVertices_ordered gog rep gone vrep vgone :
  rep < gone → graph gog !! rep = Some vrep → graph gog !! gone = Some vgone →
  (contractVertices rep gone gog = contractVertices gone rep gog) ∧
  contractVertices rep gone gog =
    Returned
      {| graph := <[ rep := merged_vertex rep gone vrep vgone ]>
                    (redirect gone rep <$> delete gone (graph gog));
         wells := wells gog; getGrid := getGrid gog |}.
Proof.
  intros Hlt Hrep Hgone. unfold contractVertices.
  rewrite (Z.min_comm gone rep), (Z.max_comm gone rep).
  rewrite Z.min_l, Z.max_r by lia. rewrite Hrep, Hgone.
  rewrite !decide_False by lia. done.
Qed.

Section Contraction.
Context (gog : GraphOfGrid) (rep gone : Z) (vrep vgone : VertexProperties).
Context (Hlt : rep < gone).
Context (Hrep : graph gog !! rep = Some vrep) (Hgone : graph gog !! gone = Some vgone).

Local Abbreviation merged := (merged_vertex rep gone vrep vgone).
Local Abbreviation graph' :=
  (<[ rep := merged ]> (redirect gone rep <$> delete gone (graph gog))).

Lemma contracted_size : (size graph' + 1 = size (graph gog))%nat.
Proof.
  rewrite map_size_insert_Some.
  2:{ rewrite lookup_fmap, lookup_delete_ne, Hrep by lia. by eexists. }
  rewrite map_size_fmap, map_size_delete_Some by (by eexists).
  assert (size (graph gog) ≠ 0)%nat; [|lia].
  intros Hz%map_size_empty_inv. by rewrite Hz, lookup_empty in Hrep.
Qed.

Lemma contracted_rep : graph' !! rep = Some merged.
Proof. by rewrite lookup_insert_eq. Qed.

Lemma contracted_gone : graph' !! gone = None.
Proof.
  rewrite lookup_insert_ne by lia.
  by rewrite lookup_fmap, lookup_delete_eq.
Qed.

Lemma contracted_other v pv :
  v ≠ rep → v ≠ gone → graph gog !! v = Some pv →
  graph' !! v = Some (redirect gone rep pv).
Proof.
  intros Hr Hg Hv.
  by rewrite lookup_insert_ne, lookup_fmap, lookup_delete_ne, Hv by done.
Qed.

Lemma merged_edges v :
  v ≠ rep → v ≠ gone →
  edges merged !! v = combine (edges vrep !! v) (edges vgone !! v).
Proof.
  intros Hr Hg. unfold merged_vertex. simpl.
  by rewrite lookup_merge_edges, !lookup_delete_ne by done.
Qed.
End Contraction.

(** C3: for two distinct live vertices [a] and [b], [contractVertices]
    returns a graph with one vertex less, in which [min a b] is a vertex
    and [max a b] is none.  For every other vertex [v], the weight of
    the edge between [v] and the representative, read in the adjacency
    of the representative and read in the adjacency of [v], is the sum
    of the two former weights where [v] was adjacent to both [a] and
    [b], the one former weight where it was adjacent to one of them, and
    there is no such edge where it was adjacent to neither; [v] has no
    edge to the removed id. *)
Theorem contractVertices_merges (gog : GraphOfGrid) (a b : Z) (va vb : VertexProperties) :
  graph gog !! a = Some va → graph gog !! b = Some vb → a ≠ b →
  ∃ gog' vr,
    contractVertices a b gog = Returned gog'
    ∧ (size (graph gog') + 1 = size (graph gog))%nat
    ∧ graph gog' !! Z.min a b = Some vr
    ∧ graph gog' !! Z.max a b = None
    ∧ (∀ v, v ≠ a → v ≠ b →
         edges vr !! v = combine (edges va !! v) (edges vb !! v))
    ∧ (∀ v pv, v ≠ a → v ≠ b → graph gog !! v = Some pv →
         ∃ pv', graph gog' !! v = Some pv'
           ∧ edges pv' !! Z.min a b = combine (edges pv !! a) (edges pv !! b)
           ∧ edges pv' !! Z.max a b = None).
Proof.
  intros Ha Hb Hne.
  destruct (Z.lt_total a b) as [Hlt|[->|Hlt]]; [|done|].
  - destruct (contractVertices_ordered gog a b va vb Hlt Ha Hb) as [_ ->].
    rewrite Z.min_l, Z.max_r by lia.
    eexists _, _. split; [done|]. simpl.
    split; [by eapply contracted_size|].
    split; [by apply contracted_rep|].
    split; [by apply contracted_gone|].
    split; [intros v ? ?; by apply merged_edges|].
    intros v pv ? ? Hv. eexists. split; [by apply contracted_other|].
    split; [apply redirect_lookup_rep; lia|apply redirect_lookup_gone; lia].
  - destruct (contractVertices_ordered gog b a vb va Hlt Hb Ha) as [<- ->].
    rewrite Z.min_r, Z.max_l by lia.
    eexists _, _. split; [done|]. simpl.
    split; [by eapply contracted_size|].
    split; [by apply contracted_rep|].
    split; [by apply contracted_gone|].
    split; [intros v ? ?; rewrite combine_comm; by apply merged_edges|].
    intros v pv ? ? Hv. eexists. split; [by apply contracted_other|].
    split; [rewrite combine_comm; apply redirect_lookup_rep; lia
           |apply redirect_lookup_gone; lia].
Qed.

Lemma sum_weights_insert k v (m : gmap Z VertexProperties) :
  m !! k = None → sum_weights (<[k := v]> m) = (weight v + sum_weights m)%Qc.
Proof.
  intros Hk. unfold sum_weights. rewrite map_fold_insert_L; [done| |done].
  intros. ring.
Qed.

Lemma sum_weights_delete k v (m : gmap Z VertexProperties) :
  m !! k = Some v → sum_weights m = (weight v + sum_weights (delete k m))%Qc.
Proof.
  intros Hk. rewrite <- (insert_delete_id m k v Hk) at 1.
  apply sum_weights_insert, lookup_delete_eq.
Qed.

Lemma sum_weights_fmap (f : VertexProperties → VertexProperties) (m : gmap Z VertexProperties) :
  (∀ v, weight (f v) = weight v) → sum_weights (f <$> m) = sum_weights m.
Proof.
  intros Hf. induction m as [|k v m Hk IH] using map_ind.
  { by rewrite fmap_empty. }
  rewrite fmap_insert, !sum_weights_insert, Hf, IH; [done..|].
  by rewrite lookup_fmap, Hk.
Qed.

Lemma contraction_sum_weights gog rep gone vrep vgone merged :
  rep ≠ gone → graph gog !! rep = Some vrep → graph gog !! gone = Some vgone →
  weight merged = (weight vrep + weight vgone)%Qc →
  sum_weights (<[ rep := merged ]> (redirect gone rep <$> delete gone (graph gog)))
  = sum_weights (graph gog).
Proof.
  intros Hne Hrep Hgone Hw.
  rewrite <- insert_delete_eq, sum_weights_insert by apply lookup_delete_eq.
  rewrite <- fmap_delete, sum_weights_fmap by apply weight_redirect.
  rewrite (sum_weights_delete gone vgone (graph gog)) by done.
  rewrite (sum_weights_delete rep vrep (delete gone (graph gog)))
    by (by rewrite lookup_delete_ne).
  rewrite Hw, (delete_delete _ rep gone). ring.
Qed.

Lemma contractVertices_total_weight gog a b gog' :
  contractVertices a b gog = Returned gog' → total_weight gog' = total_weight gog.
Proof.
  unfold contractVertices. intros Hc.
  destruct (graph gog !! Z.min a b) as [vrep|] eqn:Hrep; [|done].
  destruct (graph gog !! Z.max a b) as [vgone|] eqn:Hgone; [|done].
  case_decide as Hne; [done|]. simplify_eq. rewrite !total_weight_sum. simpl.
  apply (contraction_sum_weights gog _ _ vrep vgone); [lia|done..].
Qed.

(** C4: the sum of the weights of the live vertices is the same before
    and after any sequence of contractions, and a contraction of two
    distinct live vertices gives the representative the sum of their two
    weights. *)
Theorem contractions_conserve_weight (ops : list (Z * Z)) (gog : GraphOfGrid) :
  total_weight (contractions ops gog) = total_weight gog
  ∧ ∀ a b va vb,
      graph gog !! a = Some va → graph gog !! b = Some vb → a ≠ b →
      ∃ gog' vr, contractVertices a b gog = Returned gog'
        ∧ graph gog' !! Z.min a b = Some vr
        ∧ weight vr = (weight va + weight vb)%Qc
        ∧ total_weight gog' = total_weight gog.
Proof.
  split.
  - revert gog. unfold contractions.
    induction ops as [|[a b] ops IH]; intros gog; [done|]. simpl.
    rewrite IH. destruct (contractVertices a b gog) as [gog'| | |] eqn:Hc; [|done..].
    by eapply contractVertices_total_weight.
  - intros a b va vb Ha Hb Hne.
    destruct (Z.lt_total a b) as [Hlt|[->|Hlt]]; [|done|].
    + destruct (contractVertices_ordered gog a b va vb Hlt Ha Hb) as [_ Hc].
      rewrite Z.min_l by lia. eexists _, _. split; [exact Hc|].
      split; [by apply contracted_rep|]. split; [done|].
      by eapply contractVertices_total_weight.
    + destruct (contractVertices_ordered gog b a vb va Hlt Hb Ha) as [Heq Hc].
      rewrite Heq in Hc. rewrite Z.min_r by lia. eexists _, _. split; [exact Hc|].
      split; [by apply contracted_rep|]. split; [simpl; ring|].
      by eapply contractVertices_total_weight.
Qed.

(** ** Registration of wells *)

Lemma set_iter_sorted (s : gset Z) : StronglySorted Z.le (set_iter s).
Proof. apply (StronglySorted_merge_sort Z.le). Qed.

Lemma set_iter_cons_lt (s : gset Z) rep others :
  set_iter s = rep :: others → Forall (λ o, rep < o) others.
Proof.
  intros Hs. pose proof (set_iter_sorted s) as Hsorted.
  pose proof (NoDup_set_iter s) as Hnd. rewrite Hs in Hsorted, Hnd.
  apply StronglySorted_inv in Hsorted as [_ Hle].
  apply NoDup_cons in Hnd as [Hnin _].
  apply Forall_forall. intros o Ho.
  rewrite Forall_forall in Hle. specialize (Hle o Ho).
  assert (rep ≠ o) by (intros ->; done). lia.
Qed.

Lemma set_begin_least (s : gset Z) r x : set_begin s = Some r → x ∈ s → r ≤ x.
Proof.
  unfold set_begin. intros Hr Hx%elem_of_set_iter.
  destruct (set_iter s) as [|r' others] eqn:Hs; [done|]. simpl in Hr. simplify_eq.
  apply elem_of_cons in Hx as [->|Hx]; [lia|].
  pose proof (set_iter_cons_lt s r others Hs) as Hlt.
  rewrite Forall_forall in Hlt. specialize (Hlt x Hx). lia.
Qed.

Lemma overlaps_union_disjoint (w cellIds extra : gset Z) :
  w ## extra → overlaps w (cellIds ∪ extra) ↔ overlaps w cellIds.
Proof. unfold overlaps. set_solver. Qed.

Lemma merge_overlapping_filter ws : ∀ cellIds extra,
  pairwise_disjoint ws → Forall (λ w, w ## extra) ws →
  merge_overlapping (cellIds ∪ extra) ws =
    (cellIds ∪ extra ∪ ⋃ filter (λ w, overlaps w cellIds) ws,
     filter (λ w, ¬ overlaps w cellIds) ws).
Proof.
  induction ws as [|w ws IH]; intros cellIds extra Hdisj Hextra.
  { simpl. f_equal. set_solver. }
  destruct Hdisj as [Hw Hdisj]. apply Forall_cons in Hextra as [Hwe Hextra].
  cbn [merge_overlapping].
  destruct (decide (overlaps w cellIds)) as [Ho|Ho].
  - rewrite decide_True by (by apply overlaps_union_disjoint).
    rewrite (filter_cons_True (λ w, overlaps w cellIds)) by done.
    rewrite (filter_cons_False (λ w, ¬ overlaps w cellIds)) by tauto.
    rewrite <- (assoc_L (∪)), IH; [f_equal; set_solver|done|].
    apply Forall_forall. intros w' Hw'.
    rewrite Forall_forall in Hw, Hextra. specialize (Hw w' Hw'). specialize (Hextra w' Hw').
    set_solver.
  - rewrite decide_False by (by rewrite overlaps_union_disjoint).
    rewrite (filter_cons_False (λ w, overlaps w cellIds)) by done.
    rewrite (filter_cons_True (λ w, ¬ overlaps w cellIds)) by done.
    by rewrite IH.
Qed.

Lemma merge_overlapping_spec ws cellIds :
  pairwise_disjoint ws →
  merge_overlapping cellIds ws =
    (cellIds ∪ ⋃ filter (λ w, overlaps w cellIds) ws,
     filter (λ w, ¬ overlaps w cellIds) ws).
Proof.
  intros Hdisj.
  replace cellIds with (cellIds ∪ ∅) at 1 by set_solver.
  rewrite merge_overlapping_filter; [f_equal; set_solver|done|].
  apply Forall_forall. set_solver.
Qed.

Lemma length_filter_split {A} (P : A → Prop) `{!∀ x, Decision (P x)} (l : list A) :
  (length (filter (λ x, ¬ P x) l) + length (filter P l) = length l)%nat.
Proof.
  induction l as [|x l IH]; [done|]. rewrite !filter_cons.
  destruct (decide (P x)), (decide (¬ P x)); simpl; try tauto; lia.
Qed.

Lemma contract_members_returns rep others : ∀ gog,
  live gog rep → Forall (λ o, rep < o) others →
  ∃ gog', contract_members true rep others gog = Returned gog'
    ∧ live gog' rep ∧ wells gog' = wells gog.
Proof.
  induction others as [|o others IH]; intros gog Hrep Hlt.
  { by exists gog. }
  apply Forall_cons in Hlt as [Ho Hlt]. cbn [contract_members].
  case_bool_decide as Hlive; simpl.
  { by apply IH. }
  destruct Hrep as [vrep Hrep].
  destruct (graph gog !! o) as [vo|] eqn:Hvo; [|done].
  destruct (contractVertices_ordered gog rep o vrep vo Ho Hrep Hvo) as [_ ->].
  cbn [obind].
  match goal with |- context [contract_members _ _ _ ?g] => set (g1 := g) end.
  destruct (IH g1) as (gog' & -> & Hl & Hw); [|done|by exists gog'].
  unfold live, g1. simpl. rewrite lookup_insert_eq. by eexists.
Qed.

Lemma merged_least_live gog cellIds rep :
  pairwise_disjoint (wells gog) → representatives_live gog → known_cells gog cellIds →
  set_begin (cellIds ∪ ⋃ filter (λ w, overlaps w cellIds) (wells gog)) = Some rep →
  live gog rep.
Proof.
  intros Hdisj Hreps Hknown Hrep.
  set (merged := cellIds ∪ ⋃ filter (λ w, overlaps w cellIds) (wells gog)) in *.
  assert (Hwell : ∀ w, w ∈ wells gog → overlaps w cellIds → rep ∈ w → live gog rep).
  { intros w Hw Ho Hin. destruct (Hreps w Hw) as (r & Hr & Hlive).
    assert (r ∈ merged) as Hrm.
    { apply elem_of_union_r, elem_of_union_list. exists w. split.
      - by apply list_elem_of_filter.
      - by apply set_begin_elem_of. }
    pose proof (set_begin_least _ _ _ Hrep Hrm).
    pose proof (set_begin_least _ _ _ Hr Hin).
    by replace rep with r by lia. }
  pose proof (set_begin_elem_of _ _ Hrep) as Hin.
  apply elem_of_union in Hin as [Hin|Hin].
  - destruct (Hknown rep Hin) as [?|(w & Hw & Hrw)]; [done|].
    apply (Hwell w); [done| |done]. unfold overlaps. set_solver.
  - apply elem_of_union_list in Hin as (w & [Ho Hw]%list_elem_of_filter & Hrw).
    by apply (Hwell w).
Qed.

(** C5: in a registry of pairwise disjoint wells whose representatives
    are live, for cells that are live or members of a well, a call
    [addWell(cellIds, true)] whose merged set has at least two members
    returns, and the registry has afterwards one entry more and [k]
    entries less than before, [k] being the number of wells that overlap
    [cellIds]: the wells that do not overlap stay as they are, and the
    overlapping ones are replaced by one entry, the union of [cellIds]
    and of all of them. *)
Theorem addWell_registry_size (gog : GraphOfGrid) (cellIds : gset Z) :
  let k := length (filter (λ w, overlaps w cellIds) (wells gog)) in
  let merged := (merge_overlapping cellIds (wells gog)).1 in
  pairwise_disjoint (wells gog) → representatives_live gog → known_cells gog cellIds →
  (2 ≤ size merged)%nat →
  ∃ gog', GraphOfGrid_addWell cellIds true gog = Returned gog'
    ∧ (length (wells gog') + k = length (wells gog) + 1)%nat
    ∧ wells gog' = filter (λ w, ¬ overlaps w cellIds) (wells gog) ++ [merged]
    ∧ merged = cellIds ∪ ⋃ filter (λ w, overlaps w cellIds) (wells gog).
Proof.
  intros k merged Hdisj Hreps Hknown Hsize. subst k merged.
  unfold GraphOfGrid_addWell. rewrite merge_overlapping_spec in * by done.
  simpl in Hsize. set (merged := cellIds ∪ _) in *.
  rewrite decide_False by lia.
  destruct (set_iter merged) as [|rep others] eqn:Hiter.
  { pose proof (length_set_iter merged) as Hlen. rewrite Hiter in Hlen. simpl in Hlen. lia. }
  assert (Hrep : set_begin merged = Some rep) by (unfold set_begin; by rewrite Hiter).
  destruct (contract_members_returns rep others gog) as (gog' & -> & _ & _).
  { by eapply merged_least_live. }
  { by eapply set_iter_cons_lt. }
  eexists. split; [done|]. simpl. split; [|done].
  rewrite length_app. simpl.
  pose proof (length_filter_split (λ w, overlaps w cellIds) (wells gog)). lia.
Qed.

(** ** Wells given by cartesian indices *)

Lemma compressed_from_ge gcs : ∀ i cell j, compressed_from gcs i cell = Some j → i ≤ j.
Proof.
  induction gcs as [|gc gcs IH]; intros i cell j; simpl; [done|].
  destruct (compressed_from gcs (i + 1) cell) as [j'|] eqn:E.
  - intros [= <-]. apply IH in E. lia.
  - case_decide; [|done]. intros [= <-]. lia.
Qed.

Lemma compressed_from_None gcs : ∀ i cell, compressed_from gcs i cell = None ↔ cell ∉ gcs.
Proof.
  induction gcs as [|gc gcs IH]; intros i cell; simpl.
  { split; [intros _; apply not_elem_of_nil|done]. }
  rewrite not_elem_of_cons, <- (IH (i + 1)).
  destruct (compressed_from gcs (i + 1) cell); [naive_solver|].
  case_decide; naive_solver.
Qed.

Lemma fill_compressed_lookup gcs : ∀ i c2c,
  Forall (λ gc, 0 ≤ gc < Z.of_nat (length c2c)) gcs →
  ∃ c2c', fill_compressed gcs i c2c = Returned c2c'
    ∧ length c2c' = length c2c
    ∧ ∀ (n : nat) x, c2c !! n = Some x →
        c2c' !! n = Some (default x (compressed_from gcs i (Z.of_nat n))).
Proof.
  induction gcs as [|gc gcs IH]; intros i c2c Hrange.
  { exists c2c. by repeat split. }
  apply Forall_cons in Hrange as [Hgc Hrange]. cbn [fill_compressed].
  unfold vector_set. rewrite decide_True by done. cbn [obind].
  destruct (IH (i + 1) (<[Z.to_nat gc := i]> c2c)) as (c2c' & -> & Hlen & Hlookup).
  { by rewrite length_insert. }
  exists c2c'. split; [done|]. rewrite length_insert in Hlen. split; [done|].
  intros n x Hn. cbn [compressed_from].
  destruct (decide (gc = Z.of_nat n)) as [->|Hne].
  - rewrite (Hlookup n i).
    + by destruct (compressed_from gcs (i + 1) (Z.of_nat n)).
    + rewrite Nat2Z.id. apply list_lookup_insert_eq. by eapply lookup_lt_Some.
  - rewrite (Hlookup n x).
    + by destruct (compressed_from gcs (i + 1) (Z.of_nat n)).
    + rewrite list_lookup_insert_ne; [done|lia].
Qed.

Lemma cartesian_to_compressed_fits grid :
  box_fits grid →
  cartesian_to_compressed grid =
    fill_compressed (globalCell grid) 0 (replicate (Z.to_nat (cartesianSize grid)) (-1)).
Proof.
  intros [Hin Hpos]. unfold box_in_int in Hin.
  unfold cartesian_to_compressed, cartesianSize in *.
  destruct (logicalCartesianSize grid) as [[n0 n1] n2]. destruct Hin as [H01 H012].
  unfold int_mul. rewrite decide_True by done. cbn [obind].
  rewrite decide_True by done. cbn [obind].
  unfold vector_of. by rewrite decide_True by done.
Qed.

Lemma cartesian_to_compressed_no_table grid :
  ¬ box_fits grid → cartesian_to_compressed grid = without_table grid.
Proof.
  intros Hno. unfold without_table.
  destruct (decide (box_in_int grid)) as [Hin|Hin].
  - assert (Hneg : ¬ 0 ≤ cartesianSize grid) by (intros Hpos; by apply Hno).
    unfold box_in_int in Hin. unfold cartesian_to_compressed, cartesianSize in *.
    destruct (logicalCartesianSize grid) as [[n0 n1] n2]. destruct Hin as [H01 H012].
    unfold int_mul. rewrite decide_True by done. cbn [obind].
    rewrite decide_True by done. cbn [obind].
    unfold vector_of. by rewrite decide_False by done.
  - unfold box_in_int in Hin. unfold cartesian_to_compressed.
    destruct (logicalCartesianSize grid) as [[n0 n1] n2].
    unfold int_mul. destruct (decide (is_int (n0 * n1))) as [H01|H01]; [|done].
    cbn [obind]. rewrite decide_False; [done|]. intros H012. by apply Hin.
Qed.

Lemma cartesian_to_compressed_returns grid c2c :
  cartesian_to_compressed grid = Returned c2c → box_fits grid.
Proof.
  intros Hrun. destruct (decide (box_fits grid)) as [|Hno]; [done|].
  rewrite (cartesian_to_compressed_no_table grid Hno) in Hrun.
  unfold without_table in Hrun. by case_decide.
Qed.

Lemma cartesian_to_compressed_lookup grid :
  box_fits grid → grid_consistent grid →
  ∃ c2c, cartesian_to_compressed grid = Returned c2c
    ∧ length c2c = Z.to_nat (cartesianSize grid)
    ∧ ∀ cell, 0 ≤ cell < cartesianSize grid →
        c2c !! Z.to_nat cell = Some (default (-1) (compressed grid cell)).
Proof.
  intros Hfits Hc. rewrite (cartesian_to_compressed_fits grid Hfits).
  unfold grid_consistent, compressed in *.
  destruct (fill_compressed_lookup (globalCell grid) 0
              (replicate (Z.to_nat (cartesianSize grid)) (-1))) as (c2c & -> & Hlen & Hl).
  { rewrite length_replicate. eapply Forall_impl; [done|]. simpl. lia. }
  exists c2c. rewrite length_replicate in Hlen. split; [done|]. split; [done|].
  intros cell Hcell. rewrite (Hl (Z.to_nat cell) (-1)).
  - by rewrite Z2Nat.id by lia.
  - apply lookup_replicate_2. lia.
Qed.

Section Translation.
Context (grid : Grid) (Hgrid : grid_consistent grid).
Context (c2c : list Z) (Hlen : length c2c = Z.to_nat (cartesianSize grid)).
Context (Hc2c : ∀ cell, 0 ≤ cell < cartesianSize grid →
                  c2c !! Z.to_nat cell = Some (default (-1) (compressed grid cell))).

Lemma active_in_range cell : active grid cell → 0 ≤ cell < cartesianSize grid.
Proof. intros Ha. unfold grid_consistent in Hgrid. by rewrite Forall_forall in Hgrid; apply Hgrid. Qed.

Lemma active_compressed cell :
  active grid cell → ∃ j, compressed grid cell = Some j ∧ 0 ≤ j.
Proof.
  intros Ha. unfold compressed.
  destruct (compressed_from (globalCell grid) 0 cell) as [j|] eqn:E.
  - exists j. split; [done|]. by eapply compressed_from_ge.
  - by apply compressed_from_None in E.
Qed.

Lemma inactive_compressed cell : ¬ active grid cell → compressed grid cell = None.
Proof. intros Ha. by apply compressed_from_None. Qed.

Lemma translate_cells_active cells : ∀ wellsgID,
  Forall (active grid) cells →
  translate_cells c2c cells wellsgID =
    Returned (list_to_set (omap (compressed grid) cells) ∪ wellsgID).
Proof.
  induction cells as [|cell cells IH]; intros acc Hact.
  { simpl. f_equal. set_solver. }
  apply Forall_cons in Hact as [Hcell Hact]. cbn [translate_cells].
  pose proof (active_in_range cell Hcell) as Hr.
  destruct (active_compressed cell Hcell) as (j & Hj & Hj0).
  unfold vector_at. rewrite decide_True by lia. rewrite (Hc2c cell Hr), Hj.
  cbn [obind from_option id]. unfold assert.
  rewrite (proj2 (Z.eqb_neq j (-1))) by lia. cbn [negb].
  rewrite IH by done. cbn [omap list_omap]. rewrite Hj.
  f_equal. set_solver.
Qed.

Lemma translate_cells_inactive pre : ∀ bad post wellsgID,
  Forall (active grid) pre → ¬ active grid bad →
  translate_cells c2c (pre ++ bad :: post) wellsgID =
    if decide (0 ≤ bad < cartesianSize grid) then AssertionFailed
    else Thrown out_of_range.
Proof.
  induction pre as [|cell pre IH]; intros bad post acc Hact Hbad.
  - cbn [app translate_cells]. unfold vector_at.
    destruct (decide (0 ≤ bad < cartesianSize grid)) as [Hr|Hr].
    + rewrite decide_True by lia.
      by rewrite (Hc2c bad Hr), (inactive_compressed bad Hbad).
    + destruct (decide (0 ≤ bad)); [|done].
      rewrite (proj2 (lookup_ge_None c2c (Z.to_nat bad))); [done|lia].
  - apply Forall_cons in Hact as [Hcell Hact]. cbn [app translate_cells].
    pose proof (active_in_range cell Hcell) as Hr.
    destruct (active_compressed cell Hcell) as (j & Hj & Hj0).
    unfold vector_at. rewrite decide_True by lia. rewrite (Hc2c cell Hr), Hj.
    cbn [obind from_option id]. unfold assert.
    rewrite (proj2 (Z.eqb_neq j (-1))) by lia. cbn [negb].
    by apply IH.
Qed.

Context (addWell : gset Z → bool → GraphOfGrid → outcome GraphOfGrid).
Context (check : bool).

Lemma addWells_loop_forwards ws : ∀ gog,
  (∀ w c, w ∈ ws → c ∈ w.2 → active grid c) →
  addWells_loop addWell c2c ws check gog =
    forward_wells addWell (compress_well grid <$> ws.*2) check gog.
Proof.
  induction ws as [|w ws IH]; intros gog Hact; [done|].
  cbn [addWells_loop]. rewrite translate_cells_active.
  2:{ apply Forall_forall. intros c Hc%elem_of_set_iter. apply (Hact w); [left|done]. }
  rewrite !fmap_cons. cbn [obind forward_wells].
  unfold compress_well at 1. rewrite (right_id_L ∅ (∪)).
  destruct (addWell _ check gog) as [gog'| | |]; [|done..]. cbn [obind].
  apply IH. intros w' c Hw'. apply Hact. by right.
Qed.

Lemma addWells_loop_fails ws1 : ∀ gog gog1 name cells ws2 pre bad post,
  (∀ w c, w ∈ ws1 → c ∈ w.2 → active grid c) →
  forward_wells addWell (compress_well grid <$> ws1.*2) check gog = Returned gog1 →
  set_iter cells = pre ++ bad :: post →
  Forall (active grid) pre → ¬ active grid bad →
  addWells_loop addWell c2c (ws1 ++ (name, cells) :: ws2) check gog =
    inactive_failure grid bad.
Proof.
  induction ws1 as [|w ws1 IH];
    intros gog gog1 name cells ws2 pre bad post Hact Hfwd Hiter Hpre Hbad.
  - cbn [app addWells_loop]. simpl. rewrite Hiter, translate_cells_inactive by done.
    unfold inactive_failure. by case_decide.
  - cbn [app addWells_loop]. rewrite translate_cells_active.
    2:{ apply Forall_forall. intros c Hc%elem_of_set_iter. apply (Hact w); [left|done]. }
    rewrite !fmap_cons in Hfwd. cbn [forward_wells] in Hfwd.
    unfold compress_well in Hfwd at 1. cbn [obind]. rewrite (right_id_L ∅ (∪)).
    destruct (addWell _ check gog) as [gog'| | |]; [|done..]. cbn [obind] in *.
    eapply IH; [|done..]. intros w' c Hw'. apply Hact. by right.
Qed.
End Translation.

(** C8, as the code has it: for a grid whose logical cartesian box has a
    number of indices that the [int] product of its sizes gives, not
    negative and without overflow, and whose active cells have their
    cartesian index inside the box, [addFutureConnectionWells] behaves as
    follows.
    - If every cell of every well is active, every well is translated to
      the set of the compressed ids of its cells and forwarded to
      [addWell], one well after the other in the iteration order of the
      map.
    - If the wells before some well are translated and added, and [bad]
      is the first cell of that well that is not active, the call fails:
      by the assertion when the index of [bad] lies inside the cartesian
      box, and by the [std::out_of_range] of [std::vector::at] when it
      lies outside. *)
Theorem addFutureConnectionWells_translates
    (addWell : gset Z → bool → GraphOfGrid → outcome GraphOfGrid)
    (gog : GraphOfGrid) (wells : gmap string (gset Z)) (check : bool) :
  let grid := getGrid gog in
  box_fits grid →
  grid_consistent grid →
  ((∀ name cells c, wells !! name = Some cells → c ∈ cells → active grid c) →
   addFutureConnectionWells addWell gog wells check =
     forward_wells addWell (compress_well grid <$> (map_to_list wells).*2) check gog)
  ∧ (∀ ws1 name cells ws2 gog1 pre bad post,
       map_to_list wells = ws1 ++ (name, cells) :: ws2 →
       (∀ w c, w ∈ ws1 → c ∈ w.2 → active grid c) →
       forward_wells addWell (compress_well grid <$> ws1.*2) check gog = Returned gog1 →
       set_iter cells = pre ++ bad :: post →
       Forall (active grid) pre → ¬ active grid bad →
       addFutureConnectionWells addWell gog wells check = inactive_failure grid bad).
Proof.
  intros grid Hfits Hgrid. unfold addFutureConnectionWells. fold grid.
  destruct (cartesian_to_compressed_lookup grid Hfits Hgrid) as (c2c & -> & Hlen & Hc2c).
  cbn [obind]. split.
  - intros Hact. apply addWells_loop_forwards; [done..|].
    intros [name cells] c Hw%elem_of_map_to_list Hc. by eapply Hact.
  - intros ws1 name cells ws2 gog1 pre bad post -> Hact Hfwd Hiter Hpre Hbad.
    by eapply addWells_loop_fails.
Qed.

(** ** The list expander on arbitrary lists *)

Section ListExpanderMore.
Context {Rest : Type} (Rest_ltb : Rest → Rest → bool).
Implicit Types (cellList : list (TheTuple Rest)) (ws : list (gset Z)).

Lemma expand_loop_empty cellList addToList :
  expand_loop ∅ cellList addToList = addToList.
Proof.
  destruct cellList as [|c rest]; [done|]. simpl. rewrite lookup_empty.
  by rewrite decide_True.
Qed.

Lemma expand_loop_first_occurrences cellList : ∀ (wellMap : gmap Z (gset Z)) seen addToList,
  (∀ k, k ∈ seen → wellMap !! k = None) →
  expand_loop wellMap cellList addToList =
    expand_loop wellMap (first_occurrences_from seen cellList) addToList.
Proof.
  induction cellList as [|c rest IH]; intros m seen acc Hseen; [done|].
  cbn [first_occurrences_from]. case_decide as Hc.
  - cbn [expand_loop]. rewrite (Hseen _ Hc). case_decide as Hm.
    + subst m. by rewrite expand_loop_empty.
    + by apply IH.
  - cbn [expand_loop]. destruct (m !! c.1) as [w|] eqn:Hw.
    + case_decide; [done|]. apply IH. intros k [->%elem_of_singleton|Hk]%elem_of_union.
      * apply lookup_delete_eq.
      * rewrite lookup_delete_ne; [by apply Hseen|]. intros Heq. apply Hc. by rewrite Heq.
    + case_decide; [done|]. apply IH. intros k [->%elem_of_singleton|Hk]%elem_of_union.
      * done.
      * by apply Hseen.
Qed.

Lemma elem_of_first_occurrences_from cellList : ∀ seen t,
  t ∈ first_occurrences_from seen cellList → t ∈ cellList ∧ t.1 ∉ seen.
Proof.
  induction cellList as [|c rest IH]; intros seen t; simpl.
  { by intros ?%elem_of_nil. }
  case_decide as Hc.
  - intros [? ?]%IH. split; [by right|done].
  - intros [->|[? Hn]%IH]%elem_of_cons; [split; [left|done]|].
    split; [by right|]. set_solver.
Qed.

Lemma ids_first_occurrences_from cellList : ∀ seen k,
  k ∈ cellList.*1 → k ∉ seen → k ∈ (first_occurrences_from seen cellList).*1.
Proof.
  induction cellList as [|c rest IH]; intros seen k; simpl.
  { by intros ?%elem_of_nil. }
  intros Hk Hseen. case_decide as Hc.
  - apply elem_of_cons in Hk as [->|Hk]; [done|]. by apply IH.
  - rewrite fmap_cons. destruct (decide (k = c.1)) as [->|Hne]; [left|].
    right. apply elem_of_cons in Hk as [->|Hk]; [done|]. apply IH; [done|]. set_solver.
Qed.

Lemma NoDup_first_occurrences_from cellList : ∀ seen,
  NoDup (first_occurrences_from seen cellList).*1.
Proof.
  induction cellList as [|c rest IH]; intros seen; simpl; [constructor|].
  case_decide as Hc; [apply IH|]. rewrite fmap_cons. constructor; [|apply IH].
  intros (t & Ht & Hin)%list_elem_of_fmap.
  apply elem_of_first_occurrences_from in Hin as [_ Hn]. set_solver.
Qed.

Lemma NoDup_fst_one_tuple cellList r :
  NoDup cellList.*1 → (length (filter (λ t, t.1 = r) cellList) ≤ 1)%nat.
Proof.
  induction cellList as [|c rest IH]; [simpl; lia|].
  rewrite fmap_cons. intros [Hc Hnd]%NoDup_cons. rewrite filter_cons. case_decide as Hr.
  - rewrite filter_none; [simpl; lia|]. intros t Ht Heq. apply Hc.
    apply list_elem_of_fmap. exists t. split; [congruence|done].
  - by apply IH.
Qed.

Lemma referenced_first_occurrences cellList w :
  referenced (first_occurrences cellList) w ↔ referenced cellList w.
Proof.
  unfold referenced. rewrite !Exists_exists. split.
  - intros (t & [Ht _]%elem_of_first_occurrences_from & Hr). by exists t.
  - intros (t & Ht & Hr).
    assert (t.1 ∈ (first_occurrences cellList).*1) as (t' & Heq & Ht')%list_elem_of_fmap.
    { apply ids_first_occurrences_from; [|set_solver].
      apply list_elem_of_fmap. by exists t. }
    exists t'. split; [done|]. by rewrite <- Heq.
Qed.

Lemma fill_wellMap_returns ws : ∀ m0 : gmap Z (gset Z),
  Forall (λ w, w ≠ ∅) ws →
  ∃ m, fill_wellMap ws m0 = Returned m
    ∧ ∀ k w, m !! k = Some w → (w ∈ ws ∧ represents k w) ∨ m0 !! k = Some w.
Proof.
  induction ws as [|w ws IH]; intros m0 Hne; simpl.
  { exists m0. split; [done|]. by right. }
  apply Forall_cons in Hne as [Hw Hne].
  destruct (set_begin_is_Some w Hw) as [kw Hkw]. rewrite Hkw.
  destruct (IH (<[kw:=w]> m0) Hne) as (m & -> & Hm).
  exists m. split; [done|]. intros k w' Hk.
  destruct (Hm k w' Hk) as [[? ?]|Hins]; [left; split; [by right|done]|].
  apply lookup_insert_Some in Hins as [[<- <-]|[_ ?]]; [left; split; [left|done]|by right].
Qed.

Lemma expand_loop_unreferenced cellList : ∀ (wellMap : gmap Z (gset Z)) addToList,
  (∀ t, t ∈ cellList → wellMap !! t.1 = None) →
  expand_loop wellMap cellList addToList = addToList.
Proof.
  induction cellList as [|c rest IH]; intros m acc Hnone; [done|].
  cbn [expand_loop]. rewrite (Hnone c) by left.
  case_decide; [done|]. apply IH. intros t Ht. apply Hnone. by right.
Qed.

(** the output of the expander, for a registry as the data model has it *)
Lemma extendImportExportList_permutation (gog : GraphOfGrid) cellList :
  wells_represented (getWells gog) →
  ∃ out, extendImportExportList Rest_ltb gog cellList = Returned out
    ∧ out ≡ₚ cellList ++ added (getWells gog) (first_occurrences cellList).
Proof.
  intros Hwf. unfold extendImportExportList.
  destruct (fill_wellMap_filter _ Hwf) as (m & -> & Hm). cbn [obind].
  rewrite (expand_loop_first_occurrences cellList m ∅) by set_solver.
  fold (first_occurrences cellList).
  rewrite expand_loop_bind.
  2:{ intros k _. apply NoDup_fst_one_tuple, NoDup_first_occurrences_from. }
  eexists. split; [done|]. unfold inplace_merge.
  rewrite merge_Permutation, merge_sort_Permutation. simpl.
  apply Permutation_app_head. unfold added.
  erewrite bind_ext_elem_of; [done|]. intros t _. unfold expansion. by rewrite Hm.
Qed.

Lemma filter_iff {A} (P Q : A → Prop) `{!∀ x, Decision (P x), !∀ x, Decision (Q x)}
    (l : list A) :
  (∀ x, P x ↔ Q x) → filter P l = filter Q l.
Proof.
  intros HPQ. induction l as [|x l IH]; [done|]. rewrite !filter_cons, IH.
  destruct (decide (P x)), (decide (Q x)); naive_solver.
Qed.

(** X1: when no tuple of the list has the representative of a registered
    well as its global id, [extendImportExportList] leaves the list as it
    is: nothing is added and the tuples keep their places, whether the
    list is sorted or not.  The wells are not empty, as [*well.begin()]
    requires. *)
Theorem extendImportExportList_unreferenced (gog : GraphOfGrid) cellList :
  Forall (λ w, w ≠ ∅) (getWells gog) →
  (∀ t w, t ∈ cellList → w ∈ getWells gog → ¬ represents t.1 w) →
  extendImportExportList Rest_ltb gog cellList = Returned cellList.
Proof.
  intros Hne Hnone. unfold extendImportExportList.
  destruct (fill_wellMap_returns _ ∅ Hne) as (m & -> & Hm). cbn [obind].
  rewrite expand_loop_unreferenced.
  - change (merge_sort gID_le []) with (@nil (TheTuple Rest)).
    unfold inplace_merge. by rewrite list_merge_nil_r.
  - intros t Ht. destruct (m !! t.1) as [w|] eqn:Hw; [|done].
    destruct (Hm _ _ Hw) as [[Hin Hr]|Hemp]; [|by rewrite lookup_empty in Hemp].
    by destruct (Hnone t w).
Qed.

(** X2: a well is expanded once, by the first tuple that has its
    representative as global id, because of [wellMap.erase]: for every
    list, with or without repeated ids, the result is a permutation of the
    list followed by the copies made for the first occurrences of its
    ids, and its length is that of the list plus, for every referenced
    well, the number of its members but one. *)
Theorem extendImportExportList_each_well_once (gog : GraphOfGrid) cellList :
  wells_represented (getWells gog) →
  ∃ out, extendImportExportList Rest_ltb gog cellList = Returned out
    ∧ out ≡ₚ cellList ++ added (getWells gog) (first_occurrences cellList)
    ∧ length out =
        (length cellList +
         sum_list ((λ w, size w - 1)%nat <$> filter (referenced cellList) (getWells gog)))%nat.
Proof.
  intros Hwf.
  destruct (extendImportExportList_permutation gog cellList Hwf) as (out & Hout & Hperm).
  exists out. split; [done|]. split; [done|].
  rewrite Hperm, length_app, length_added.
  - by rewrite (filter_iff _ _ _ (referenced_first_occurrences cellList)).
  - apply Hwf.
  - intros w r _ _. apply NoDup_fst_one_tuple, NoDup_first_occurrences_from.
Qed.

(** X3: for every registered well whose representative is the global id
    of some tuple, the result lists every member of the well, each with
    the fields of one and the same tuple of the input, a tuple that has
    the representative as its id. *)
Theorem extendImportExportList_whole_wells (gog : GraphOfGrid) cellList :
  wells_represented (getWells gog) →
  ∃ out, extendImportExportList Rest_ltb gog cellList = Returned out
    ∧ ∀ w, w ∈ getWells gog → referenced cellList w →
        ∃ t, t ∈ cellList ∧ represents t.1 w ∧ ∀ m, m ∈ w → (m, t.2) ∈ out.
Proof.
  intros Hwf.
  destruct (extendImportExportList_permutation gog cellList Hwf) as (out & Hout & Hperm).
  exists out. split; [done|]. intros w Hw Href.
  apply referenced_first_occurrences, Exists_exists in Href as (t & Ht & Hr).
  pose proof (elem_of_first_occurrences_from _ _ _ Ht) as [Hin _].
  exists t. split; [done|]. split; [done|]. intros m Hm. rewrite Hperm.
  apply elem_of_app. destruct (decide (m = t.1)) as [->|Hne].
  - left. by destruct t.
  - right. unfold added. apply list_elem_of_bind. exists t. split; [|done].
    apply list_elem_of_bind. exists w. split; [|by apply list_elem_of_filter].
    unfold wellCells. apply list_elem_of_fmap. exists m. split; [done|].
    apply list_elem_of_filter. split; [done|]. by apply elem_of_set_iter.
Qed.

Lemma pairwise_disjoint_unique ws (w1 w2 : gset Z) x :
  pairwise_disjoint ws → w1 ∈ ws → w2 ∈ ws → x ∈ w1 → x ∈ w2 → w1 = w2.
Proof.
  induction ws as [|w ws IH]; [by intros _ ?%elem_of_nil|].
  intros [Hw Hdisj] H1 H2 Hx1 Hx2. rewrite Forall_forall in Hw.
  apply elem_of_cons in H1 as [->|H1], H2 as [->|H2]; [done| | |by apply IH].
  - specialize (Hw w2 H2). apply elem_of_disjoint in Hw. by destruct (Hw x).
  - specialize (Hw w1 H1). apply elem_of_disjoint in Hw. by destruct (Hw x).
Qed.

Lemma pairwise_disjoint_represented ws :
  Forall (λ w, w ≠ ∅) ws → pairwise_disjoint ws → wells_represented ws.
Proof.
  intros Hne Hdisj. split; [done|].
  induction ws as [|w ws IH]; [constructor|].
  apply Forall_cons in Hne as [Hw Hne]. destruct Hdisj as [Hdw Hdisj].
  rewrite fmap_cons. constructor; [|by apply IH].
  intros (w' & Heq & Hin)%list_elem_of_fmap.
  destruct (set_begin_is_Some w Hw) as [r Hr]. rewrite Hr in Heq. symmetry in Heq.
  apply set_begin_elem_of in Hr, Heq.
  rewrite Forall_forall in Hdw. specialize (Hdw w' Hin).
  apply elem_of_disjoint in Hdw. by destruct (Hdw r).
Qed.

Lemma fmap_fst_bind {A} (f : A → list (TheTuple Rest)) (l : list A) :
  (l ≫= f).*1 = l ≫= (λ x, (f x).*1).
Proof.
  induction l as [|x l IH]; [done|]. by rewrite !bind_cons, fmap_app, IH.
Qed.

Lemma NoDup_fst_eq cellList (t1 t2 : TheTuple Rest) :
  NoDup cellList.*1 → t1 ∈ cellList → t2 ∈ cellList → t1.1 = t2.1 → t1 = t2.
Proof.
  induction cellList as [|c rest IH]; [by intros _ ?%elem_of_nil|].
  rewrite fmap_cons. intros [Hc Hnd]%NoDup_cons H1 H2 Heq.
  apply elem_of_cons in H1 as [->|H1], H2 as [->|H2]; [done| | |by apply IH].
  - destruct Hc. rewrite Heq. by apply list_elem_of_fmap_2.
  - destruct Hc. rewrite <- Heq. by apply list_elem_of_fmap_2.
Qed.

Lemma elem_of_added_ids ws cellList (m : Z) :
  m ∈ (added ws cellList).*1 ↔
  ∃ t w, t ∈ cellList ∧ w ∈ ws ∧ represents t.1 w ∧ m ∈ w ∧ m ≠ t.1.
Proof.
  unfold added. rewrite list_elem_of_fmap. split.
  - intros (x & -> & (t & (w & Hx & [Hr Hw]%list_elem_of_filter)%list_elem_of_bind
                        & Ht)%list_elem_of_bind).
    unfold wellCells in Hx.
    apply list_elem_of_fmap in Hx as (m & -> & [Hne Hm%elem_of_set_iter]%list_elem_of_filter).
    by exists t, w.
  - intros (t & w & Ht & Hw & Hr & Hm & Hne). exists (m, t.2). split; [done|].
    apply list_elem_of_bind. exists t. split; [|done].
    apply list_elem_of_bind. exists w. split; [|by apply list_elem_of_filter].
    unfold wellCells. apply list_elem_of_fmap. exists m. split; [done|].
    apply list_elem_of_filter. split; [done|]. by apply elem_of_set_iter.
Qed.

Lemma NoDup_added_ids ws cellList :
  wells_represented ws → pairwise_disjoint ws → NoDup cellList.*1 →
  NoDup (added ws cellList).*1.
Proof.
  intros Hwf Hdisj Hnd. unfold added. rewrite fmap_fst_bind.
  apply NoDup_bind; [| |by eapply NoDup_fmap_1].
  - intros t1 t2 m H1 H2 Hm1 Hm2. apply (NoDup_fst_eq cellList); [done..|].
    simpl in Hm1, Hm2.
    apply list_elem_of_fmap in Hm1 as (x1 & -> & (w1 & Hx1 & [Hr1 Hw1]%list_elem_of_filter)%list_elem_of_bind).
    apply list_elem_of_fmap in Hm2 as (x2 & Hx & (w2 & Hx2 & [Hr2 Hw2]%list_elem_of_filter)%list_elem_of_bind).
    unfold wellCells in Hx1, Hx2.
    apply list_elem_of_fmap in Hx1 as (m1 & -> & [_ Hm1%elem_of_set_iter]%list_elem_of_filter).
    apply list_elem_of_fmap in Hx2 as (m2 & -> & [_ Hm2%elem_of_set_iter]%list_elem_of_filter).
    simpl in Hx. subst m2.
    assert (w1 = w2) as -> by (by eapply pairwise_disjoint_unique).
    unfold represents in *. congruence.
  - intros t Ht. rewrite (filter_represents_unique ws t.1) by apply Hwf.
    destruct (filter (represents t.1) ws) as [|w ?]; [constructor|].
    simpl. rewrite app_nil_r. unfold wellCells. rewrite <- list_fmap_compose. simpl.
    rewrite list_fmap_id. apply NoDup_filter, NoDup_set_iter.
Qed.

(** X4: no cell is listed twice.  If the registered wells are pairwise
    disjoint, the global ids of the list are distinct, and no id of the
    list is a member of a well other than its representative (as in the
    output of a partitioner that saw the contracted graph), then the
    global ids of the result are distinct. *)
Theorem extendImportExportList_distinct_ids (gog : GraphOfGrid) cellList :
  Forall (λ w, w ≠ ∅) (getWells gog) → pairwise_disjoint (getWells gog) →
  NoDup cellList.*1 → only_representatives (getWells gog) cellList →
  ∃ out, extendImportExportList Rest_ltb gog cellList = Returned out ∧ NoDup out.*1.
Proof.
  intros Hne Hdisj Hnd Honly.
  pose proof (pairwise_disjoint_represented _ Hne Hdisj) as Hwf.
  destruct (extendImportExportList_permutation gog cellList Hwf) as (out & Hout & Hperm).
  exists out. split; [done|]. rewrite Hperm, fmap_app. apply NoDup_app.
  assert (Hfirst : NoDup (first_occurrences cellList).*1)
    by apply NoDup_first_occurrences_from.
  split; [done|]. split; [|by apply NoDup_added_ids].
  intros k (t & -> & Ht)%list_elem_of_fmap
         (t' & w & [Ht' _]%elem_of_first_occurrences_from & Hw & Hr & Hm & Hneq)%elem_of_added_ids.
  pose proof (Honly t w Ht Hw Hm) as Hrt. unfold represents in *. congruence.
Qed.
End ListExpanderMore.

(** ** The callbacks as the partitioner calls them *)

Lemma verticesList_loop_overflow vs : ∀ i gIDs objWeights,
  (i ≤ length gIDs)%nat → (i ≤ length objWeights)%nat →
  (length gIDs < i + length vs ∨ length objWeights < i + length vs)%nat →
  verticesList_loop vs i gIDs objWeights = Undefined.
Proof.
  induction vs as [|v vs IH]; intros i gIDs ws Hg Hw Hsmall; simpl in Hsmall; [lia|].
  cbn [verticesList_loop]. unfold poke at 1.
  case_decide as Hig; [|done]. cbn [obind]. unfold poke at 1.
  case_decide as Hiw; [|done]. cbn [obind].
  apply IH; rewrite ?length_insert; lia.
Qed.

(** X5: [getGraphOfGridVerticesList] has no bound for its buffers: when
    [gIDs] or [objWeights] has fewer entries than the graph has vertices,
    the loop writes past the end of the buffer, which is undefined
    behaviour, and no status is set. *)
Theorem getGraphOfGridVerticesList_small_buffer (st : Store) (dimLocalID : Z)
    (gIDs : list Z) (lIDs : option (list Z)) (objWeights : list Qc) :
  (length gIDs < size (graph (pGraph st))
   ∨ length objWeights < size (graph (pGraph st)))%nat →
  getGraphOfGridVerticesList 1 dimLocalID gIDs lIDs 1 objWeights st = (st, Undefined).
Proof.
  intros Hsmall.
  unfold getGraphOfGridVerticesList, cb_assert, cb_bind, cb_graph, cb_lift. simpl.
  rewrite verticesList_loop_overflow; [done|lia|lia|].
  by rewrite length_map_to_list.
Qed.

(** X6: with [dimGlobalID = 1] and buffers of at least [numCells]
    entries, [getGraphOfGridNumEdges] returns for every batch.  The status
    is [ZOLTAN_OK] exactly when each of the [numCells] requested ids is a
    vertex; with [ZOLTAN_OK] nothing is logged, with [ZOLTAN_FATAL] one
    message is; the buffer keeps its length, its entries from [numCells]
    on are untouched, and so is [lIDs]. *)
Theorem getGraphOfGridNumEdges_returns (st : Store) (dimLocalID : Z) (numCells : nat)
    (gIDs : list Z) (lIDs : option (list Z)) (numEdges : list Z) :
  (numCells ≤ length gIDs)%nat → (numCells ≤ length numEdges)%nat →
  ∃ st' r,
    getGraphOfGridNumEdges 1 dimLocalID numCells gIDs lIDs numEdges st = (st', Returned r)
    ∧ (ne_err r = ZOLTAN_OK ↔ Forall (live (pGraph st)) (take numCells gIDs))
    ∧ (ne_err r = ZOLTAN_OK ∧ st' = st
       ∨ ne_err r = ZOLTAN_FATAL ∧ ∃ msg, st' = log_error msg st)
    ∧ length (ne_numEdges r) = length numEdges
    ∧ drop numCells (ne_numEdges r) = drop numCells numEdges
    ∧ ne_lIDs r = lIDs.
Proof.
  intros Hg Hn. set (requested := take numCells gIDs).
  assert (Hlen : length requested = numCells) by (unfold requested; rewrite length_take; lia).
  unfold getGraphOfGridNumEdges, cb_assert. simpl.
  unfold cb_bind at 1. unfold cb_graph.
  destruct (decide (Forall (live (pGraph st)) requested)) as [Hlive|Hdead].
  - unfold cb_bind.
    rewrite (numEdges_loop_ok (pGraph st) requested) by (done || lia).
    eexists _, _. split; [done|]. simpl. split; [done|]. split; [by left|].
    rewrite overwrite_0, length_fmap, Hlen, length_app, length_fmap, length_drop, Hlen.
    split; [lia|]. split; [|done].
    by rewrite drop_app_length' by (by rewrite length_fmap).
  - apply first_not in Hdead as (pre & bad & post & Hreq & Hpre & Hbad); [|apply _].
    assert (length pre < numCells)%nat as Hpre_lt.
    { apply (f_equal length) in Hreq. rewrite length_app in Hreq. simpl in Hreq. lia. }
    unfold cb_bind.
    rewrite (numEdges_loop_fatal (pGraph st) pre _ _ _ _ _ bad post) by (done || lia).
    eexists _, _. split; [done|]. simpl. split.
    { split; [done|]. intros Hall. destruct Hbad.
      fold requested in Hreq. rewrite Hreq in Hall.
      by apply Forall_app in Hall as [_ [? _]%Forall_cons]. }
    split; [right; split; [done|by eexists]|].
    rewrite overwrite_0, length_fmap, length_app, length_fmap, length_drop.
    split; [lia|]. split; [|done].
    rewrite drop_app_ge by (rewrite length_fmap; lia).
    rewrite length_fmap, drop_drop. f_equal. lia.
Qed.

Lemma first_disagreement {A B} (P : A → B → Prop) `{!∀ x y, Decision (P x y)}
    (l : list A) : ∀ (k : list B),
  length l = length k → ¬ Forall2 P l k →
  ∃ pre bad post pre' e,
    l = pre ++ bad :: post ∧ take (S (length pre)) k = pre' ++ [e]
    ∧ Forall2 P pre pre' ∧ ¬ P bad e.
Proof.
  induction l as [|x l IH]; intros [|y k] Hlen Hn; simplify_eq/=.
  { destruct Hn. constructor. }
  destruct (decide (P x y)) as [Hxy|Hxy].
  - destruct (IH k) as (pre & bad & post & pre' & e & -> & Htake & Hpre & Hbad);
      [done|by intros ?; apply Hn; constructor|].
    exists (x :: pre), bad, post, (y :: pre'), e. simpl. rewrite Htake.
    split; [done|]. split; [done|]. split; [by constructor|done].
  - exists [], x, l, [], y. simpl. rewrite take_0.
    split; [done|]. split; [done|]. split; [constructor|done].
Qed.

Lemma length_write_edges gog id es out :
  fits (id + length es) out →
  length (nborGIDs (write_edges gog id es out)) = length (nborGIDs out)
  ∧ length (nborProc (write_edges gog id es out)) = length (nborProc out)
  ∧ length (edgeWeights (write_edges gog id es out)) = length (edgeWeights out).
Proof.
  intros (?&?&?). unfold write_edges. simpl.
  by rewrite !length_overwrite by (rewrite ?length_fmap; done).
Qed.

Lemma emitted_app gog ids1 ids2 :
  emitted gog (ids1 ++ ids2) = emitted gog ids1 ++ emitted gog ids2.
Proof. unfold emitted. apply bind_app. Qed.

(** X7: in a graph whose neighbours are vertices, for a batch of live ids
    and output arrays with room for their edges, [getGraphOfGridEdgeList]
    returns.  The status is [ZOLTAN_OK] exactly when each of the
    [numCells] expected counts is the number of edges of its vertex; with
    [ZOLTAN_OK] nothing is logged, with [ZOLTAN_FATAL] one message is; the
    three arrays keep their lengths and [lIDs] is untouched. *)
Theorem getGraphOfGridEdgeList_returns (st : Store) (dimLocalID : Z) (numCells : nat)
    (gIDs : list Z) (lIDs : option (list Z)) (numEdges : list Z) (out : EdgeArrays) :
  adjacency_closed (pGraph st) →
  (numCells ≤ length gIDs)%nat → (numCells ≤ length numEdges)%nat →
  Forall (live (pGraph st)) (take numCells gIDs) →
  fits (length (emitted (pGraph st) (take numCells gIDs))) out →
  ∃ st' r,
    getGraphOfGridEdgeList 1 dimLocalID numCells gIDs lIDs numEdges out 1 st
      = (st', Returned r)
    ∧ (el_err r = ZOLTAN_OK
       ↔ Forall2 (agrees (pGraph st)) (take numCells gIDs) (take numCells numEdges))
    ∧ (el_err r = ZOLTAN_OK ∧ st' = st
       ∨ el_err r = ZOLTAN_FATAL ∧ ∃ msg, st' = log_error msg st)
    ∧ length (nborGIDs (el_out r)) = length (nborGIDs out)
    ∧ length (nborProc (el_out r)) = length (nborProc out)
    ∧ length (edgeWeights (el_out r)) = length (edgeWeights out)
    ∧ el_lIDs r = lIDs.
Proof.
  intros Hclosed Hg Hn Hlive Hfits.
  unfold getGraphOfGridEdgeList, cb_assert. simpl.
  unfold cb_bind at 1. unfold cb_graph.
  destruct (decide (Forall2 (agrees (pGraph st)) (take numCells gIDs)
                      (take numCells numEdges))) as [Hagree|Hdis].
  - unfold cb_bind.
    rewrite (edgeList_loop_ok _ Hclosed (take numCells gIDs) (take numCells numEdges));
      [|done|done|by rewrite length_take; lia|done|done].
    eexists _, _. split; [done|]. cbn [el_err el_out el_lIDs]. split; [done|]. split; [by left|].
    destruct (length_write_edges (pGraph st) 0
                (emitted (pGraph st) (take numCells gIDs)) out Hfits) as (-> & -> & ->).
    done.
  - destruct (first_disagreement (agrees (pGraph st)) (take numCells gIDs)
                (take numCells numEdges))
      as (pre & bad & post & pre' & e & Hids & Hexps & Hpre & Hbad);
      [rewrite !length_take; lia|done|].
    rewrite Hids in Hlive, Hfits.
    apply Forall_app in Hlive as [_ [[found Hfound] _]%Forall_cons].
    assert (Hne : Z.of_nat (size (edges found)) ≠ e).
    { intros He. apply Hbad. by exists found. }
    assert (Hfits' : fits (length (emitted (pGraph st) pre)) out).
    { rewrite emitted_app, length_app in Hfits. unfold fits in *. lia. }
    assert (Hexps' : take (S (length pre)) numEdges = pre' ++ [e]).
    { rewrite <- Hexps, take_take. f_equal.
      apply (f_equal length) in Hids. rewrite length_app, length_take in Hids.
      simpl in Hids. lia. }
    unfold cb_bind.
    rewrite (edgeList_loop_fatal _ Hclosed pre pre' numCells 0 gIDs numEdges 0 out st
               bad post e found Hids Hexps' Hpre Hfound Hne Hfits').
    eexists _, _. split; [done|]. cbn [el_err el_out el_lIDs]. split.
    { split; [done|]. intros Hall. destruct Hbad. rewrite Hids in Hall.
      apply Forall2_app_inv_l in Hall as (k1 & k2 & Hk1 & Hk2 & Hk).
      apply Forall2_cons_inv_l in Hk2 as (e' & k2' & He' & _ & ->).
      assert (k1 = pre' ∧ e' = e) as [_ <-]; [|done].
      pose proof (Forall2_length _ _ _ Hk1) as Hl1.
      pose proof (Forall2_length _ _ _ Hpre) as Hl2.
      rewrite Hk in Hexps. rewrite take_app_ge in Hexps by lia.
      replace (S (length pre) - length k1)%nat with 1%nat in Hexps by lia.
      simpl in Hexps. rewrite take_0 in Hexps.
      apply app_inj_1 in Hexps as [? [= ?]]; [done|lia]. }
    split; [right; split; [done|by eexists]|].
    destruct (length_write_edges (pGraph st) 0 (emitted (pGraph st) pre) out Hfits')
      as (-> & -> & ->).
    done.
Qed.

Lemma overwrite_all {A} (xs buf : list A) :
  length xs = length buf → overwrite 0 xs buf = xs.
Proof. intros Hlen. by rewrite overwrite_0, Hlen, drop_all, app_nil_r. Qed.

Lemma agrees_numEdges gog gID :
  live gog gID → agrees gog gID (GraphOfGrid_numEdges gog gID).
Proof.
  intros [v Hv]. exists v. split; [done|]. unfold GraphOfGrid_numEdges. by rewrite Hv.
Qed.

Lemma length_emitted gog ids :
  Forall (live gog) ids →
  Z.of_nat (length (emitted gog ids)) = sum_counts (GraphOfGrid_numEdges gog <$> ids).
Proof.
  induction 1 as [|gID ids [v Hv] _ IH]; [done|].
  unfold emitted in *. rewrite bind_cons, length_app, fmap_cons. simpl.
  rewrite <- IH, (length_edges_of gog gID v Hv).
  unfold GraphOfGrid_numEdges. rewrite Hv. lia.
Qed.

Lemma vertices_live gog : Forall (live gog) (map_to_list (graph gog)).*1.
Proof.
  apply Forall_forall. intros gID ([k v] & -> & Hin%elem_of_map_to_list)%list_elem_of_fmap.
  by exists v.
Qed.

(** X8: the four callbacks fit together as the partitioner uses them.
    With buffers of exactly the sizes the earlier answers announce (the
    number of vertices for the ids, weights and counts, the sum of the
    counts for the three edge arrays), the vertex list is the list of all
    vertices, the edge counts asked for these ids are accepted by
    [getGraphOfGridEdgeList] for the same ids, every call ends with
    [ZOLTAN_OK] and an unchanged store, and the edge arrays hold the edges
    of the vertices, in the order of the vertex list. *)
Theorem partitioner_protocol (st : Store) (dimLocalID : Z) (lIDs : option (list Z))
    (gIDs : list Z) (objWeights : list Qc) (numEdges : list Z) (out : EdgeArrays) :
  let gog := pGraph st in
  let vertices := map_to_list (graph gog) in
  let counts := GraphOfGrid_numEdges gog <$> vertices.*1 in
  let edges := emitted gog vertices.*1 in
  adjacency_closed gog →
  length gIDs = size (graph gog) → length objWeights = size (graph gog) →
  length numEdges = size (graph gog) →
  Z.of_nat (length (nborGIDs out)) = sum_counts counts →
  Z.of_nat (length (nborProc out)) = sum_counts counts →
  Z.of_nat (length (edgeWeights out)) = sum_counts counts →
  getGraphOfGridNumVertices st = (st, Returned (Z.of_nat (length vertices), ZOLTAN_OK))
  ∧ getGraphOfGridVerticesList 1 dimLocalID gIDs lIDs 1 objWeights st =
    (st, Returned {| vl_gIDs := vertices.*1; vl_lIDs := lIDs;
                     vl_objWeights := weight <$> vertices.*2; vl_err := ZOLTAN_OK |})
  ∧ getGraphOfGridNumEdges 1 dimLocalID (size (graph gog)) vertices.*1 lIDs numEdges st =
    (st, Returned {| ne_lIDs := lIDs; ne_numEdges := counts; ne_err := ZOLTAN_OK |})
  ∧ getGraphOfGridEdgeList 1 dimLocalID (size (graph gog)) vertices.*1 lIDs counts out 1 st =
    (st, Returned {| el_lIDs := lIDs;
                     el_out := {| nborGIDs := edges.*1;
                                  nborProc := owner gog <$> edges.*1;
                                  edgeWeights := edges.*2 |};
                     el_err := ZOLTAN_OK |}).
Proof.
  intros gog vertices counts edges Hclosed Hg Hw Hn HoG HoP HoW.
  assert (Hlen : length vertices = size (graph gog)) by apply length_map_to_list.
  assert (Hids : length vertices.*1 = size (graph gog)) by (by rewrite length_fmap).
  pose proof (vertices_live gog) as Hlive. fold vertices in Hlive.
  pose proof (length_emitted gog _ Hlive) as Hemit. fold edges counts in Hemit.
  split; [|split; [|split]].
  - unfold getGraphOfGridNumVertices, cb_bind, cb_graph, cb_ret, GraphOfGrid_size.
    fold gog. by rewrite Hlen.
  - unfold getGraphOfGridVerticesList, cb_assert, cb_bind, cb_graph, cb_lift, cb_ret. simpl.
    fold gog vertices. rewrite verticesList_loop_overwrite by lia.
    by rewrite !overwrite_all by (rewrite ?length_fmap; lia).
  - unfold getGraphOfGridNumEdges, cb_assert. simpl.
    unfold cb_bind at 1. unfold cb_graph. unfold cb_bind. fold gog.
    rewrite (numEdges_loop_ok gog vertices.*1);
      [|by rewrite <- Hids, firstn_all|done|lia|done].
    unfold cb_ret. fold counts. by rewrite overwrite_all by (unfold counts; rewrite length_fmap; lia).
  - unfold getGraphOfGridEdgeList, cb_assert. simpl.
    unfold cb_bind at 1. unfold cb_graph. unfold cb_bind. fold gog.
    rewrite (edgeList_loop_ok gog Hclosed vertices.*1 counts);
      [|by rewrite <- Hids, firstn_all
       |unfold counts; by rewrite <- Hids, <- (length_fmap (GraphOfGrid_numEdges gog)), firstn_all
       |done
       |unfold counts; apply Forall2_fmap_r, Forall_Forall2_diag;
        eapply Forall_impl; [done|]; apply agrees_numEdges
       |fold edges; unfold fits; lia].
    unfold cb_ret, write_edges. fold edges.
    by rewrite !overwrite_all by (rewrite ?length_fmap; lia).
Qed.

Global Instance key_le_total {V} : Total (@key_le V).
Proof. intros x y. unfold key_le. lia. Qed.

Global Instance key_le_trans {V} : Transitive (@key_le V).
Proof. intros x y z. unfold key_le. lia. Qed.

Lemma map_iter_keys_ascending {V} (m : gmap Z V) : StronglySorted Z.lt (map_iter m).*1.
Proof.
  assert (Hs : StronglySorted key_le (map_iter m))
    by apply (StronglySorted_merge_sort key_le).
  assert (Hnd : NoDup (map_iter m).*1).
  { rewrite map_iter_perm. apply NoDup_fst_map_to_list. }
  induction Hs as [|e es Hs IH Hall]; [constructor|].
  rewrite fmap_cons in *. apply NoDup_cons in Hnd as [Hnin Hnd].
  constructor; [by apply IH|].
  apply Forall_forall. intros k (e' & -> & Hin)%list_elem_of_fmap.
  rewrite Forall_forall in Hall. specialize (Hall e' Hin). unfold key_le in Hall.
  assert (e.1 ≠ e'.1); [|lia]. intros Heq. apply Hnin. rewrite Heq.
  by apply list_elem_of_fmap_2.
Qed.

(** X9: the edges of one vertex are written in the order of the
    [std::map] that holds them, by strictly ascending id of the
    neighbour: the array of neighbours is strictly sorted, and position
    by position the three arrays hold exactly the neighbours of the
    vertex, each with the weight of its edge and the owner of the
    neighbour. *)
Theorem getGraphOfGridEdgeList_one_vertex (st : Store) (dimLocalID : Z) (gID : Z)
    (v : VertexProperties) (lIDs : option (list Z)) (out : EdgeArrays) :
  adjacency_closed (pGraph st) →
  graph (pGraph st) !! gID = Some v →
  length (nborGIDs out) = size (edges v) → length (nborProc out) = size (edges v) →
  length (edgeWeights out) = size (edges v) →
  ∃ r, getGraphOfGridEdgeList 1 dimLocalID 1 [gID] lIDs [Z.of_nat (size (edges v))] out 1 st
         = (st, Returned r)
    ∧ el_err r = ZOLTAN_OK
    ∧ StronglySorted Z.lt (nborGIDs (el_out r))
    ∧ ∀ n p w,
        (∃ i, nborGIDs (el_out r) !! i = Some n ∧ nborProc (el_out r) !! i = Some p
              ∧ edgeWeights (el_out r) !! i = Some w)
        ↔ edges v !! n = Some w ∧ p = owner (pGraph st) n.
Proof.
  intros Hclosed Hv HG HP HW.
  pose proof (length_edges_of _ _ _ Hv) as Hlen.
  assert (Hem : emitted (pGraph st) [gID] = map_iter (edges v)).
  { unfold emitted. rewrite bind_cons. cbn [mbind list_bind]. rewrite app_nil_r.
    unfold edges_of. by rewrite Hv. }
  unfold getGraphOfGridEdgeList, cb_assert. cbn [Z.eqb Pos.eqb].
  unfold cb_bind at 1. unfold cb_graph. unfold cb_bind.
  rewrite (edgeList_loop_ok _ Hclosed [gID] [Z.of_nat (size (edges v))]);
    [|done|done|done|repeat constructor; by exists v
     |rewrite Hem, length_map_iter; unfold fits; lia].
  unfold cb_ret, write_edges. rewrite Hem.
  rewrite !overwrite_all by (rewrite ?length_fmap, length_map_iter; lia).
  eexists. split; [done|]. cbn [el_err el_out nborGIDs nborProc edgeWeights].
  split; [done|]. split; [apply map_iter_keys_ascending|].
  intros n p w. split.
  - intros (i & Hn & Hp & Hw). rewrite list_lookup_fmap in Hn.
    rewrite !list_lookup_fmap in Hp. rewrite list_lookup_fmap in Hw.
    destruct (map_iter (edges v) !! i) as [[n' w']|] eqn:Hi; simplify_eq/=. split; [|done].
    apply (elem_of_map_iter (edges v) (_, _)). by eapply list_elem_of_lookup_2.
  - intros [Hnw ->]. apply (elem_of_map_iter (edges v) (n, w)) in Hnw.
    apply list_elem_of_lookup_1 in Hnw as [i Hi]. exists i.
    rewrite !list_lookup_fmap. by rewrite Hi.
Qed.

Lemma status_logged_numEdges_loop gog n : ∀ i gIDs numEdges,
  status_logged snd (numEdges_loop gog n i gIDs numEdges).
Proof.
  induction n as [|n IH]; intros i gIDs numEdges s s' a.
  { intros [= <- <-]. by left. }
  cbn [numEdges_loop]. unfold cb_bind at 1, cb_lift at 1.
  destruct (peek i gIDs) as [gID| | |]; [|done..].
  destruct (GraphOfGrid_numEdges gog gID =? -1).
  - intros [= <- <-]. right. split; [done|]. by eexists.
  - unfold cb_bind at 1, cb_lift at 1.
    destruct (poke i _ numEdges) as [numEdges'| | |]; [|done..]. apply IH.
Qed.

Lemma status_logged_edgeList_loop gog n : ∀ i gIDs numEdges id out,
  status_logged snd (edgeList_loop gog n i gIDs numEdges id out).
Proof.
  induction n as [|n IH]; intros i gIDs numEdges id out s s' a.
  { intros [= <- <-]. by left. }
  cbn [edgeList_loop]. unfold cb_bind at 1, cb_lift at 1.
  destruct (peek i gIDs) as [gID| | |]; [|done..].
  unfold cb_bind at 1, cb_lift at 1.
  destruct (edgeList gog gID) as [eList| | |]; [|done..].
  unfold cb_bind at 1, cb_lift at 1.
  destruct (peek i numEdges) as [expected| | |]; [|done..].
  destruct (negb _).
  - intros [= <- <-]. right. split; [done|]. by eexists.
  - unfold cb_bind at 1, cb_lift at 1.
    destruct (emit_edges gog _ id out) as [[id' out']| | |]; [|done..]. apply IH.
Qed.

Lemma status_logged_bind_ret {A : Type} (err : A → Z) (c : Callback A) :
  status_logged err c → status_logged id (cb_bind c (λ r, cb_ret (err r))).
Proof.
  intros H s s' e. unfold cb_bind, cb_ret.
  destruct (c s) as [s1 [a| | |]] eqn:Hc; [|done..].
  intros [= <- <-]. by apply H.
Qed.

Lemma status_logged_VerticesList dg dl gIDs lIDs wd ws :
  status_logged vl_err (getGraphOfGridVerticesList dg dl gIDs lIDs wd ws).
Proof.
  intros s s' r. unfold getGraphOfGridVerticesList, cb_assert.
  destruct (dg =? 1); [|done]. destruct (wd =? 1); [|done].
  unfold cb_bind, cb_graph, cb_lift, cb_ret.
  destruct (verticesList_loop _ _ _ _) as [[??]| | |]; [|done..].
  intros [= <- <-]. by left.
Qed.

Lemma status_logged_NumEdges dg dl n gIDs lIDs nE :
  status_logged ne_err (getGraphOfGridNumEdges dg dl n gIDs lIDs nE).
Proof.
  intros s s' r. unfold getGraphOfGridNumEdges, cb_assert.
  destruct (dg =? 1); [|done]. unfold cb_bind at 1, cb_graph. unfold cb_bind.
  destruct (numEdges_loop (pGraph s) n 0 gIDs nE s) as [s1 [[buf err]| | |]] eqn:Hloop;
    [|done..].
  intros [= <- <-]. by apply status_logged_numEdges_loop in Hloop.
Qed.

Lemma status_logged_EdgeList dg dl n gIDs lIDs nE out wd :
  status_logged el_err (getGraphOfGridEdgeList dg dl n gIDs lIDs nE out wd).
Proof.
  intros s s' r. unfold getGraphOfGridEdgeList, cb_assert.
  destruct (dg =? 1); [|done]. destruct (wd =? 1); [|done].
  unfold cb_bind at 1, cb_graph. unfold cb_bind.
  destruct (edgeList_loop (pGraph s) n 0 gIDs nE 0 out s) as [s1 [[buf err]| | |]] eqn:Hloop;
    [|done..].
  intros [= <- <-]. by apply status_logged_edgeList_loop in Hloop.
Qed.

Lemma status_logged_call c : status_logged id (call c).
Proof.
  destruct c; cbn [call].
  - intros s s' e [= <- <-]. by left.
  - apply (status_logged_bind_ret vl_err), status_logged_VerticesList.
  - apply (status_logged_bind_ret ne_err), status_logged_NumEdges.
  - apply (status_logged_bind_ret el_err), status_logged_EdgeList.
Qed.

(** X10: in every sequence of calls of the callbacks in which every call
    returns, each call sets [ZOLTAN_OK] or [ZOLTAN_FATAL], the log grows
    by exactly one message for every [ZOLTAN_FATAL], and the messages
    that were in the log stay, in front. *)
Theorem calls_log_one_message_per_fatal (cs : list Call) (st st' : Store) (errs : list Z) :
  calls cs st = (st', Returned errs) →
  length errs = length cs
  ∧ Forall (λ e, e = ZOLTAN_OK ∨ e = ZOLTAN_FATAL) errs
  ∧ length (OpmLog_error st') = (length (OpmLog_error st) + count_fatal errs)%nat
  ∧ OpmLog_error st `prefix_of` OpmLog_error st'.
Proof.
  revert st st' errs. induction cs as [|c cs IH]; intros st st' errs.
  { intros [= <- <-]. unfold count_fatal. simpl. repeat split; [constructor|lia|done]. }
  cbn [calls]. unfold cb_bind at 1.
  destruct (call c st) as [s1 [e| | |]] eqn:Hc; [|done..].
  unfold cb_bind at 1.
  destruct (calls cs s1) as [s2 [es| | |]] eqn:Hcs; [|done..].
  intros [= <- <-]. destruct (IH _ _ _ Hcs) as (Hlen & Hall & Hlog & Hpre).
  apply status_logged_call in Hc. unfold id in Hc. unfold count_fatal in *.
  destruct Hc as [[-> ->]|[-> [msg ->]]].
  - rewrite filter_cons_False by done. simpl.
    repeat split; [lia|constructor; [by left|done]|done|done].
  - rewrite filter_cons_True by done. simpl in *. rewrite length_app in Hlog. simpl in Hlog.
    repeat split; [lia|constructor; [by right|done]|lia|].
    etrans; [|done]. by apply prefix_app_r.
Qed.

(** ** The lookup table of the cartesian indices *)

Lemma compressed_from_lookup gcs : ∀ i cell j,
  compressed_from gcs i cell = Some j → gcs !! Z.to_nat (j - i) = Some cell.
Proof.
  induction gcs as [|gc gcs IH]; intros i cell j; simpl; [done|].
  destruct (compressed_from gcs (i + 1) cell) as [j'|] eqn:E.
  - intros [= <-]. pose proof (compressed_from_ge _ _ _ _ E) as Hge.
    apply IH in E. replace (Z.to_nat (j' - i)) with (S (Z.to_nat (j' - (i + 1)))) by lia.
    done.
  - case_decide as Hgc; [|done]. intros [= <-]. by rewrite Z.sub_diag, Hgc.
Qed.

Lemma compressed_from_NoDup gcs : ∀ i (n : nat) cell,
  NoDup gcs → gcs !! n = Some cell → compressed_from gcs i cell = Some (i + Z.of_nat n).
Proof.
  induction gcs as [|gc gcs IH]; intros i n cell Hnd Hl; [done|].
  apply NoDup_cons in Hnd as [Hnin Hnd]. destruct n as [|n]; simpl in Hl.
  - injection Hl as ->. simpl.
    rewrite (proj2 (compressed_from_None gcs (i + 1) cell) Hnin).
    rewrite decide_True by done. f_equal. lia.
  - simpl. rewrite (IH (i + 1) n cell Hnd Hl). f_equal. lia.
Qed.

Lemma length_fill_compressed gcs : ∀ i c2c c2c',
  fill_compressed gcs i c2c = Returned c2c' → length c2c' = length c2c.
Proof.
  induction gcs as [|gc gcs IH]; intros i c2c c2c'; simpl.
  { by intros [= ->]. }
  unfold vector_set. case_decide; [|done]. cbn [obind]. intros Hf%IH.
  by rewrite length_insert in Hf.
Qed.

Lemma fill_compressed_outside gcs : ∀ i c2c,
  ¬ Forall (λ gc, 0 ≤ gc < Z.of_nat (length c2c)) gcs →
  fill_compressed gcs i c2c = Undefined.
Proof.
  induction gcs as [|gc gcs IH]; intros i c2c Hout.
  { destruct Hout. constructor. }
  simpl. unfold vector_set. case_decide as Hgc; [|done]. cbn [obind].
  apply IH. rewrite length_insert. intros Hall. apply Hout. by constructor.
Qed.

(** X11: the lookup table made by the first loop of
    [addFutureConnectionWells] inverts [globalCell].  For a grid whose
    box has a number of indices that the [int] product of its sizes
    gives, not negative and without overflow, and whose cells have
    distinct cartesian indices, all inside the box, the table has one
    entry per index of the box; [at] gives [i] for the cartesian index of
    cell [i], [-1] for an index of the box that is the index of no cell,
    and throws [std::out_of_range] outside the box. *)
Theorem cartesian_to_compressed_inverse (grid : Grid) :
  box_fits grid → grid_consistent grid → NoDup (globalCell grid) →
  ∃ c2c, cartesian_to_compressed grid = Returned c2c
    ∧ length c2c = Z.to_nat (cartesianSize grid)
    ∧ (∀ (i : nat) gc, globalCell grid !! i = Some gc →
         vector_at c2c gc = Returned (Z.of_nat i))
    ∧ (∀ cell, 0 ≤ cell < cartesianSize grid → ¬ active grid cell →
         vector_at c2c cell = Returned (-1))
    ∧ (∀ cell, ¬ 0 ≤ cell < cartesianSize grid → vector_at c2c cell = Thrown out_of_range).
Proof.
  intros Hfits Hgrid Hnd.
  destruct (cartesian_to_compressed_lookup grid Hfits Hgrid) as (c2c & Hrun & Hlen & Hc2c).
  exists c2c. split; [done|]. split; [done|]. split; [|split].
  - intros i gc Hi.
    assert (Hr : 0 ≤ gc < cartesianSize grid).
    { unfold grid_consistent in Hgrid. rewrite Forall_forall in Hgrid.
      apply Hgrid. by eapply list_elem_of_lookup_2. }
    unfold vector_at. rewrite decide_True by lia. rewrite (Hc2c gc Hr).
    unfold compressed. by rewrite (compressed_from_NoDup _ 0 i gc Hnd Hi).
  - intros cell Hr Hina. unfold vector_at. rewrite decide_True by lia.
    rewrite (Hc2c cell Hr). unfold compressed.
    by rewrite (proj2 (compressed_from_None _ 0 cell) Hina).
  - intros cell Hr. unfold vector_at. case_decide; [|done].
    rewrite (proj2 (lookup_ge_None c2c (Z.to_nat cell))); [done|lia].
Qed.

Lemma without_table_bind {A B : Type} grid (k : A → outcome B) :
  (let* a := without_table grid in k a) = without_table grid.
Proof. unfold without_table. by case_decide. Qed.

(** X12: the first loop writes with [operator[]]: when some cell of the
    grid has its cartesian index outside the cartesian box,
    [addFutureConnectionWells] does not reach [addWell], whatever the
    wells are, even when there is none.  With a box whose number of
    indices the [int] product gives, not negative, the write outside the
    table is undefined behaviour; otherwise the call ends before the
    loop, by the overflow of the product, undefined behaviour as well,
    or by the [std::length_error] of a table of negative size. *)
Theorem addFutureConnectionWells_inconsistent_grid
    (addWell : gset Z → bool → GraphOfGrid → outcome GraphOfGrid)
    (gog : GraphOfGrid) (wells : gmap string (gset Z)) (check : bool) :
  ¬ grid_consistent (getGrid gog) →
  addFutureConnectionWells addWell gog wells check =
    if decide (box_fits (getGrid gog)) then Undefined
    else if decide (box_in_int (getGrid gog)) then Thrown length_error
    else Undefined.
Proof.
  intros Hout. unfold addFutureConnectionWells.
  destruct (decide (box_fits (getGrid gog))) as [Hfits|Hno].
  - rewrite (cartesian_to_compressed_fits _ Hfits).
    rewrite fill_compressed_outside; [done|].
    rewrite length_replicate. intros Hall. apply Hout. unfold grid_consistent.
    eapply Forall_impl; [done|]. simpl. destruct Hfits as [_ Hpos]. lia.
  - rewrite (cartesian_to_compressed_no_table _ Hno), without_table_bind.
    done.
Qed.

Section WellsOfActiveCells.
Context (addWell : gset Z → bool → GraphOfGrid → outcome GraphOfGrid).

Lemma forward_wells_addWellConnections sets check : ∀ gog,
  forward_wells addWell sets check gog = addWellConnections addWell gog sets check.
Proof.
  induction sets as [|s sets IH]; intros gog; [done|]. simpl.
  destruct (addWell s check gog); [|done..]. apply IH.
Qed.

End WellsOfActiveCells.

Lemma fully_active_consistent grid : fully_active grid → grid_consistent grid.
Proof.
  unfold fully_active, grid_consistent. intros ->. apply Forall_forall.
  intros c Hc%elem_of_seqZ. lia.
Qed.

Lemma fully_active_compressed grid cell :
  fully_active grid → 0 ≤ cell < cartesianSize grid → compressed grid cell = Some cell.
Proof.
  unfold fully_active, compressed. intros Hg Hr.
  rewrite (compressed_from_NoDup _ 0 (Z.to_nat cell) cell).
  - f_equal. lia.
  - rewrite Hg. apply NoDup_seqZ.
  - rewrite Hg. rewrite lookup_seqZ. lia.
Qed.

Lemma fully_active_compress_well grid (cells : gset Z) :
  fully_active grid → (∀ c, c ∈ cells → 0 ≤ c < cartesianSize grid) →
  compress_well grid cells = cells.
Proof.
  intros Hg Hr. unfold compress_well. apply set_eq. intros j.
  rewrite elem_of_list_to_set, list_elem_of_omap. split.
  - intros (c & Hc%elem_of_set_iter & Hj).
    rewrite (fully_active_compressed grid c Hg (Hr c Hc)) in Hj. by injection Hj as <-.
  - intros Hj. exists j. split; [by apply elem_of_set_iter|].
    by apply fully_active_compressed; [|apply Hr].
Qed.

(** X13: on a grid in which every cell of the box is active, in the order
    of the cartesian indices, the cartesian index of a cell is its
    compressed id, and [addFutureConnectionWells] does what
    [addWellConnections] does with the cell sets of the wells, taken in
    the iteration order of the map; the cells of the wells lie in the
    box.  This is so for a box whose number of indices the [int] product
    of its sizes gives, not negative; for any other box the call ends
    before the first well, by the overflow of the product or by the
    [std::length_error] of a table of negative size. *)
Theorem addFutureConnectionWells_fully_active
    (addWell : gset Z → bool → GraphOfGrid → outcome GraphOfGrid)
    (gog : GraphOfGrid) (wells : gmap string (gset Z)) (check : bool) :
  fully_active (getGrid gog) →
  (∀ name cells c, wells !! name = Some cells → c ∈ cells →
     0 ≤ c < cartesianSize (getGrid gog)) →
  addFutureConnectionWells addWell gog wells check =
    if decide (box_fits (getGrid gog))
    then addWellConnections addWell gog (map_to_list wells).*2 check
    else if decide (box_in_int (getGrid gog)) then Thrown length_error
    else Undefined.
Proof.
  intros Hg Hr. pose proof (fully_active_consistent _ Hg) as Hgrid.
  unfold addFutureConnectionWells.
  destruct (decide (box_fits (getGrid gog))) as [Hfits|Hno].
  2:{ by rewrite (cartesian_to_compressed_no_table _ Hno), without_table_bind. }
  destruct (cartesian_to_compressed_lookup _ Hfits Hgrid) as (c2c & -> & Hlen & Hc2c).
  cbn [obind].
  rewrite (addWells_loop_forwards (getGrid gog) Hgrid c2c Hlen Hc2c addWell check).
  - rewrite forward_wells_addWellConnections. f_equal.
    apply list_eq. intros i. rewrite !list_lookup_fmap.
    destruct (map_to_list wells !! i) as [[name cells]|] eqn:Hi; [|done]. simpl. f_equal.
    apply fully_active_compress_well; [done|]. intros c Hc.
    apply (Hr name cells); [|done].
    apply elem_of_map_to_list. by eapply list_elem_of_lookup_2.
  - intros [name cells] c Hw%elem_of_map_to_list Hc. simpl in *.
    unfold active. rewrite Hg. apply elem_of_seqZ.
    pose proof (Hr name cells c Hw Hc). lia.
Qed.

(** X14: [addWellConnections] adds the wells one batch after the other:
    adding [ws1 ++ ws2] is adding [ws1] and then, if that returned,
    adding [ws2] to the graph it gave; a failure of [addWell] in the
    first batch is the failure of the whole call, and no later well is
    added. *)
Theorem addWellConnections_in_batches
    (addWell : gset Z → bool → GraphOfGrid → outcome GraphOfGrid)
    (gog : GraphOfGrid) (ws1 ws2 : list (gset Z)) (check : bool) :
  addWellConnections addWell gog (ws1 ++ ws2) check =
    let* gog' := addWellConnections addWell gog ws1 check in
    addWellConnections addWell gog' ws2 check.
Proof.
  revert gog. induction ws1 as [|w ws1 IH]; intros gog; [done|]. simpl.
  destruct (addWell w check gog); [|done..]. apply IH.
Qed.

(** X15: what is handed to [addWell] for a well of active cells.  For a
    grid whose cells have distinct cartesian indices, all inside the box,
    the inner loop of [addFutureConnectionWells] returns a set with as
    many ids as the well has cells: the positions in [globalCell] of the
    cells of the well. *)
Theorem translated_well (grid : Grid) (c2c : list Z) (cells : gset Z) :
  grid_consistent grid → NoDup (globalCell grid) →
  cartesian_to_compressed grid = Returned c2c →
  (∀ c, c ∈ cells → active grid c) →
  ∃ wellsgID, translate_cells c2c (set_iter cells) ∅ = Returned wellsgID
    ∧ size wellsgID = size cells
    ∧ ∀ gID, gID ∈ wellsgID ↔
        0 ≤ gID ∧ ∃ c, c ∈ cells ∧ globalCell grid !! Z.to_nat gID = Some c.
Proof.
  intros Hgrid Hnd Hrun Hact.
  pose proof (cartesian_to_compressed_returns grid c2c Hrun) as Hfits.
  destruct (cartesian_to_compressed_lookup grid Hfits Hgrid) as (c2c' & Hrun' & Hlen & Hc2c).
  rewrite Hrun in Hrun'. injection Hrun' as <-.
  rewrite (translate_cells_active grid Hgrid c2c Hlen Hc2c).
  2:{ apply Forall_forall. intros c Hc%elem_of_set_iter. by apply Hact. }
  eexists. split; [done|]. rewrite (right_id_L ∅ (∪)).
  assert (Hmem : ∀ gID, gID ∈ (list_to_set (omap (compressed grid) (set_iter cells)) : gset Z)
            ↔ 0 ≤ gID ∧ ∃ c, c ∈ cells ∧ globalCell grid !! Z.to_nat gID = Some c).
  { intros gID. rewrite elem_of_list_to_set, list_elem_of_omap. split.
    - intros (c & Hc%elem_of_set_iter & Hj). unfold compressed in Hj.
      pose proof (compressed_from_ge _ _ _ _ Hj) as Hge.
      apply compressed_from_lookup in Hj. rewrite Z.sub_0_r in Hj.
      split; [done|]. by exists c.
    - intros (Hge & c & Hc & Hl). exists c. split; [by apply elem_of_set_iter|].
      unfold compressed. rewrite (compressed_from_NoDup _ 0 _ c Hnd Hl). f_equal. lia. }
  split; [|done].
  rewrite <- (length_set_iter cells).
  assert (Hinj : ∀ l, NoDup l → Forall (active grid) l →
            size (list_to_set (omap (compressed grid) l) : gset Z) = length l).
  { induction l as [|c l IH]; intros Hl Ha; [done|].
    apply NoDup_cons in Hl as [Hcl Hl]. apply Forall_cons in Ha as [Hc Ha].
    destruct (active_compressed grid c Hc) as (j & Hj & Hj0).
    cbn [omap list_omap]. rewrite Hj. cbn [list_to_set].
    rewrite size_union, size_singleton, IH by
      (try done; apply disjoint_singleton_l; rewrite elem_of_list_to_set, list_elem_of_omap;
       intros (c' & Hc' & Hj'); unfold compressed in Hj, Hj';
       apply compressed_from_lookup in Hj, Hj'; congruence).
    done. }
  apply Hinj; [apply NoDup_set_iter|].
  apply Forall_forall. intros c Hc%elem_of_set_iter. by apply Hact.
Qed.

(** ** The tests and the scenarios of the spec *)

Example scenario_A :
  GraphOfGrid_size grid_2_2_2 = 8
  ∧ Forall (λ c, GraphOfGrid_numEdges grid_2_2_2 c = 3) (seqZ 0 8).
Proof. split; [done|]. by vm_compute; repeat constructor. Qed.

Example scenario_C :
  GraphOfGrid_size grid_5_4_3 = 60
  ∧ foldr Z.add 0 (GraphOfGrid_numEdges grid_5_4_3 <$> seqZ 0 60) = 266.
Proof. by vm_compute. Qed.

Example imp_expanded :
  extendImportExportList importTuple_ltb grid_with_two_wells imp =
    Returned [ (0, (1, AttributeSet_owner, 1)); (1, (1, AttributeSet_owner, 1));
               (2, (1, AttributeSet_owner, 1)); (3, (4, AttributeSet_copy, 2));
               (5, (0, AttributeSet_copy, 3)); (8, (0, AttributeSet_copy, 3));
               (11, (0, AttributeSet_copy, 3)) ].
Proof. by vm_compute. Qed.

Lemma extendImportExportList_expands_witness :
  wells_represented (getWells grid_with_two_wells)
  ∧ one_tuple_per_well (getWells grid_with_two_wells) imp
  ∧ ∃ out, extendImportExportList importTuple_ltb grid_with_two_wells imp = Returned out
      ∧ length out =
          (length imp +
           sum_list ((λ w, size w - 1)%nat <$>
                     filter (referenced imp) (getWells grid_with_two_wells)))%nat
      ∧ out ≡ₚ imp ++ added (getWells grid_with_two_wells) imp
      ∧ (∀ x, x ∈ out ↔
           x ∈ imp
           ∨ ∃ t w, t ∈ imp ∧ w ∈ getWells grid_with_two_wells ∧ represents t.1 w
                    ∧ x.1 ∈ w ∧ x.1 ≠ t.1 ∧ x.2 = t.2)
      ∧ (Sorted gID_le imp → Sorted gID_le out).
Proof.
  assert (H1 : wells_represented (getWells grid_with_two_wells)).
  { split; [by vm_compute; repeat constructor|].
    vm_compute. repeat constructor; set_solver. }
  assert (H2 : one_tuple_per_well (getWells grid_with_two_wells) imp).
  { intros w r Hw Hr. vm_compute in Hw.
    repeat (apply elem_of_cons in Hw as [->|Hw]); [..|by apply elem_of_nil in Hw];
      vm_compute in Hr; simplify_eq; vm_compute; lia. }
  split; [exact H1|]. split; [exact H2|].
  exact (extendImportExportList_expands importTuple_ltb grid_with_two_wells imp H1 H2).
Defined.

Lemma extendImportExportList_no_wells_witness :
  getWells grid_2_2_2 = []
  ∧ extendImportExportList importTuple_ltb grid_2_2_2 imp = Returned imp.
Proof.
  split; [reflexivity|].
  exact (extendImportExportList_no_wells importTuple_ltb grid_2_2_2 imp eq_refl).
Defined.

Lemma getGraphOfGridVerticesList_fills_witness :
  (size (graph (pGraph (store_of two_cells))) ≤ length [9; 9; 9])%nat
  ∧ (size (graph (pGraph (store_of two_cells))) ≤ length [0%Qc; 0%Qc; 0%Qc])%nat
  ∧ (length (map_to_list (graph (pGraph (store_of two_cells))))
       = size (graph (pGraph (store_of two_cells)))
     ∧ getGraphOfGridVerticesList 1 1 [9; 9; 9] None 1 [0%Qc; 0%Qc; 0%Qc]
         (store_of two_cells) =
       (store_of two_cells,
        Returned
          {| vl_gIDs := (map_to_list (graph (pGraph (store_of two_cells)))).*1
                        ++ drop (length (map_to_list (graph (pGraph (store_of two_cells)))))
                             [9; 9; 9];
             vl_lIDs := None;
             vl_objWeights :=
               (weight <$> (map_to_list (graph (pGraph (store_of two_cells)))).*2)
               ++ drop (length (map_to_list (graph (pGraph (store_of two_cells)))))
                    [0%Qc; 0%Qc; 0%Qc];
             vl_err := ZOLTAN_OK |})).
Proof.
  assert (H1 : (size (graph (pGraph (store_of two_cells))) ≤ length [9; 9; 9])%nat)
    by (vm_compute; lia).
  assert (H2 : (size (graph (pGraph (store_of two_cells)))
                ≤ length [0%Qc; 0%Qc; 0%Qc])%nat) by (vm_compute; lia).
  split; [exact H1|]. split; [exact H2|].
  exact (getGraphOfGridVerticesList_fills (store_of two_cells) 1 [9; 9; 9] None
           [0%Qc; 0%Qc; 0%Qc] H1 H2).
Defined.

Example vertices_of_two_cells :
  getGraphOfGridVerticesList 1 1 [9; 9; 9] None 1 [0%Qc; 0%Qc; 0%Qc] (store_of two_cells)
  = (store_of two_cells,
     Returned {| vl_gIDs := [1; 0; 9]; vl_lIDs := None;
                 vl_objWeights := [1%Qc; 1%Qc; 0%Qc]; vl_err := ZOLTAN_OK |}).
Proof. by vm_compute. Qed.

Lemma getGraphOfGridNumEdges_status_witness :
  (3 ≤ length [0; 10; 3])%nat ∧ (3 ≤ length [7; 7; 7])%nat
  ∧ ¬ Forall (live (pGraph (store_of grid_2_2_2))) (take 3 [0; 10; 3])
  ∧ ∃ pre bad post, take 3 [0; 10; 3] = pre ++ bad :: post
      ∧ Forall (live (pGraph (store_of grid_2_2_2))) pre
      ∧ ¬ live (pGraph (store_of grid_2_2_2)) bad
      ∧ getGraphOfGridNumEdges 1 1 3 [0; 10; 3] None [7; 7; 7] (store_of grid_2_2_2) =
          (log_error (numEdges_message bad) (store_of grid_2_2_2),
           Returned {| ne_lIDs := None;
                       ne_numEdges :=
                         (GraphOfGrid_numEdges (pGraph (store_of grid_2_2_2)) <$> pre)
                         ++ drop (length pre) [7; 7; 7];
                       ne_err := ZOLTAN_FATAL |})
      ∧ names (numEdges_message bad) bad.
Proof.
  assert (H1 : (3 ≤ length [0; 10; 3])%nat) by (simpl; lia).
  assert (H2 : (3 ≤ length [7; 7; 7])%nat) by (simpl; lia).
  assert (H3 : ¬ Forall (live (pGraph (store_of grid_2_2_2))) (take 3 [0; 10; 3])).
  { intros H. apply Forall_cons in H as [_ H]. apply Forall_cons in H as [H _].
    destruct H as [v Hv]. vm_compute in Hv. discriminate. }
  split; [exact H1|]. split; [exact H2|]. split; [exact H3|].
  exact (proj2 (getGraphOfGridNumEdges_status (store_of grid_2_2_2) 1 3 [0; 10; 3] None
                  [7; 7; 7] H1 H2) H3).
Defined.

Example numEdges_of_dead_vertex :
  getGraphOfGridNumEdges 1 1 3 [0; 10; 3] None [7; 7; 7] (store_of grid_2_2_2)
  = ({| pGraph := grid_2_2_2;
        OpmLog_error :=
          ["getGraphOfGridNumEdges error: Vertex with ID 10 is not in graph."%string] |},
     Returned {| ne_lIDs := None; ne_numEdges := [3; 7; 7]; ne_err := ZOLTAN_FATAL |}).
Proof. by vm_compute. Qed.

Lemma adjacency_closed_two_cells : adjacency_closed two_cells.
Proof.
  intros gID v n Hv [w Hw]. unfold live, two_cells in *. simpl in *.
  destruct (decide (gID = 0)) as [->|H0]; [|destruct (decide (gID = 1)) as [->|H1]].
  - rewrite lookup_insert_eq in Hv. simplify_eq. simpl in Hw.
    apply lookup_singleton_Some in Hw as [<- _]. by eexists.
  - rewrite lookup_insert_ne, lookup_singleton_eq in Hv by done. simplify_eq. simpl in Hw.
    apply lookup_singleton_Some in Hw as [<- _]. by eexists.
  - by rewrite lookup_insert_ne, lookup_singleton_ne in Hv.
Defined.

Lemma getGraphOfGridEdgeList_status_witness :
  adjacency_closed (pGraph (store_of two_cells))
  ∧ (2 ≤ length [1; 0])%nat
  ∧ take 2 [1; 0] = [1] ++ 0 :: []
  ∧ take (S (length [1])) [1; 5] = [1] ++ [5]
  ∧ Forall2 (agrees (pGraph (store_of two_cells))) [1] [1]
  ∧ getGraphOfGridEdgeList 1 1 2 [1; 0] None [1; 5] (empty_arrays 2) 1 (store_of two_cells) =
      (log_error (edgeList_message 5 1 0) (store_of two_cells),
       Returned {| el_lIDs := None;
                   el_out := write_edges (pGraph (store_of two_cells)) 0
                               (emitted (pGraph (store_of two_cells)) [1]) (empty_arrays 2);
                   el_err := ZOLTAN_FATAL |})
  ∧ names (edgeList_message 5 1 0) 0
  ∧ names (edgeList_message 5 1 0) 5
  ∧ names (edgeList_message 5 1 0) 1%nat.
Proof.
  assert (H1 : (2 ≤ length [1; 0])%nat) by (simpl; lia).
  assert (H2 : Forall2 (agrees (pGraph (store_of two_cells))) [1] [1]).
  { repeat constructor. eexists. split; [by vm_compute|done]. }
  split; [exact adjacency_closed_two_cells|]. split; [exact H1|].
  split; [reflexivity|]. split; [reflexivity|]. split; [exact H2|].
  refine (proj1 (proj2 (getGraphOfGridEdgeList_status (store_of two_cells) 1 2 [1; 0] None
                          [1; 5] (empty_arrays 2) adjacency_closed_two_cells H1))
            [1] 0 [] [1] 5 {| nproc := 0; weight := 1%Qc; edges := {[ 1 := 1%Qc ]} |}
            eq_refl eq_refl H2 _ _ _).
  - by vm_compute.
  - by vm_compute.
  - vm_compute. lia.
Defined.

(** The batch [7; 0] with the expected counts [1; 5] on the two cells:
    vertex 0 has one neighbour, not five, but id 7 comes first and is not
    live, so that [edgeList] throws: the status is not set to
    [ZOLTAN_FATAL]. *)
Lemma getGraphOfGridEdgeList_dead_id_first :
  GraphOfGrid_numEdges two_cells 0 ≠ 5
  ∧ getGraphOfGridEdgeList 1 1 2 [7; 0] None [1; 5] (empty_arrays 2) 1 (store_of two_cells)
    = (store_of two_cells, Thrown logic_error)
  ∧ ¬ ∃ st' r,
        getGraphOfGridEdgeList 1 1 2 [7; 0] None [1; 5] (empty_arrays 2) 1
          (store_of two_cells) = (st', Returned r)
        ∧ el_err r = ZOLTAN_FATAL.
Proof.
  assert (Hrun : getGraphOfGridEdgeList 1 1 2 [7; 0] None [1; 5] (empty_arrays 2) 1
                   (store_of two_cells) = (store_of two_cells, Thrown logic_error))
    by (by vm_compute).
  split; [by vm_compute|]. split; [exact Hrun|].
  intros (st' & r & Hr & _). rewrite Hrun in Hr. discriminate.
Qed.

Lemma contractVertices_merges_witness :
  graph grid_2_2_2 !! 0 = Some (cartesian_vertex (2, 2, 2) 0)
  ∧ graph grid_2_2_2 !! 1 = Some (cartesian_vertex (2, 2, 2) 1)
  ∧ 0 ≠ 1
  ∧ ∃ gog' vr,
      contractVertices 0 1 grid_2_2_2 = Returned gog'
      ∧ (size (graph gog') + 1 = size (graph grid_2_2_2))%nat
      ∧ graph gog' !! Z.min 0 1 = Some vr
      ∧ graph gog' !! Z.max 0 1 = None
      ∧ (∀ v, v ≠ 0 → v ≠ 1 →
           edges vr !! v = combine (edges (cartesian_vertex (2, 2, 2) 0) !! v)
                                   (edges (cartesian_vertex (2, 2, 2) 1) !! v))
      ∧ (∀ v pv, v ≠ 0 → v ≠ 1 → graph grid_2_2_2 !! v = Some pv →
           ∃ pv', graph gog' !! v = Some pv'
             ∧ edges pv' !! Z.min 0 1 = combine (edges pv !! 0) (edges pv !! 1)
             ∧ edges pv' !! Z.max 0 1 = None).
Proof.
  assert (H0 : graph grid_2_2_2 !! 0 = Some (cartesian_vertex (2, 2, 2) 0))
    by (vm_compute; reflexivity).
  assert (H1 : graph grid_2_2_2 !! 1 = Some (cartesian_vertex (2, 2, 2) 1))
    by (vm_compute; reflexivity).
  assert (H2 : 0 ≠ 1) by lia.
  split; [exact H0|]. split; [exact H1|]. split; [exact H2|].
  exact (contractVertices_merges grid_2_2_2 0 1 _ _ H0 H1 H2).
Defined.

Example scenario_B :
  let g1 := returned_or grid_2_2_2 (contractVertices 0 1 grid_2_2_2) in
  let g2 := returned_or g1 (contractVertices 0 2 g1) in
  GraphOfGrid_size g1 = 7
  ∧ weight_of g1 0 = Some (Q2Qc 2%Q)
  ∧ edge_weight_to g1 3 0 = Some (Q2Qc 1%Q)
  ∧ weight_of g2 0 = Some (Q2Qc 3%Q)
  ∧ edge_weight_to g2 3 0 = Some (Q2Qc 2%Q).
Proof. by vm_compute. Qed.

Lemma contractions_conserve_weight_witness :
  total_weight (contractions [(0, 1); (0, 2); (5, 5)] grid_2_2_2) = total_weight grid_2_2_2
  ∧ (graph grid_2_2_2 !! 0 = Some (cartesian_vertex (2, 2, 2) 0)
     ∧ graph grid_2_2_2 !! 1 = Some (cartesian_vertex (2, 2, 2) 1)
     ∧ 0 ≠ 1
     ∧ ∃ gog' vr, contractVertices 0 1 grid_2_2_2 = Returned gog'
         ∧ graph gog' !! Z.min 0 1 = Some vr
         ∧ weight vr = Qcplus (weight (cartesian_vertex (2, 2, 2) 0))
                              (weight (cartesian_vertex (2, 2, 2) 1))
         ∧ total_weight gog' = total_weight grid_2_2_2).
Proof.
  assert (H0 : graph grid_2_2_2 !! 0 = Some (cartesian_vertex (2, 2, 2) 0))
    by (vm_compute; reflexivity).
  assert (H1 : graph grid_2_2_2 !! 1 = Some (cartesian_vertex (2, 2, 2) 1))
    by (vm_compute; reflexivity).
  assert (H2 : 0 ≠ 1) by lia.
  split; [exact (proj1 (contractions_conserve_weight [(0, 1); (0, 2); (5, 5)] grid_2_2_2))|].
  split; [exact H0|]. split; [exact H1|]. split; [exact H2|].
  exact (proj2 (contractions_conserve_weight [] grid_2_2_2) 0 1 _ _ H0 H1 H2).
Defined.

Example scenario_D :
  let g1 := returned_or three_wells
              (GraphOfGrid_addWell fourth_well true three_wells) in
  let g2 := returned_or g1 (GraphOfGrid_addWell {[ 2; 8 ]} true g1) in
  let g3 := returned_or g2 (GraphOfGrid_addWell {[ 2; 38 ]} true g2) in
  let g4 := returned_or g3 (GraphOfGrid_addWell {[ 8; 38 ]} true g3) in
  (GraphOfGrid_size three_wells, length (getWells three_wells)) = (52, 3%nat)
  ∧ (GraphOfGrid_size g1, length (getWells g1)) = (49, 3%nat)
  ∧ (GraphOfGrid_size g2, length (getWells g2)) = (48, 3%nat)
  ∧ (GraphOfGrid_size g3, length (getWells g3)) = (47, 2%nat)
  ∧ (GraphOfGrid_size g4, length (getWells g4)) = (47, 2%nat).
Proof. by vm_compute. Qed.

Lemma addWell_registry_size_witness :
  pairwise_disjoint (wells three_wells)
  ∧ representatives_live three_wells
  ∧ known_cells three_wells fourth_well
  ∧ (2 ≤ size (merge_overlapping fourth_well (wells three_wells)).1)%nat
  ∧ ∃ gog', GraphOfGrid_addWell fourth_well true three_wells = Returned gog'
      ∧ (length (wells gog')
         + length (filter (λ w, overlaps w fourth_well) (wells three_wells))
         = length (wells three_wells) + 1)%nat
      ∧ wells gog' =
          filter (λ w, ¬ overlaps w fourth_well) (wells three_wells)
          ++ [(merge_overlapping fourth_well (wells three_wells)).1]
      ∧ (merge_overlapping fourth_well (wells three_wells)).1 =
          fourth_well ∪ ⋃ filter (λ w, overlaps w fourth_well) (wells three_wells).
Proof.
  assert (Hws : wells three_wells = [ {[ 0; 1; 2; 3; 4 ]}; {[ 52; 32; 12 ]}; {[ 59; 48; 37 ]} ])
    by (by vm_compute).
  assert (H1 : pairwise_disjoint (wells three_wells)).
  { rewrite Hws. simpl.
    repeat split; repeat constructor; by apply (bool_decide_unpack _); vm_compute. }
  assert (H2 : representatives_live three_wells).
  { intros w Hw. rewrite Hws in Hw.
    repeat (apply elem_of_cons in Hw as [->|Hw]); [..|by apply elem_of_nil in Hw];
      eexists; (split; [by vm_compute|]); by vm_compute; eexists. }
  assert (H3 : known_cells three_wells fourth_well).
  { intros c Hc. left. unfold fourth_well in Hc. set_unfold in Hc.
    destruct Hc as [[[->| ->]| ->]| ->]; by vm_compute; eexists. }
  assert (H4 : (2 ≤ size (merge_overlapping fourth_well (wells three_wells)).1)%nat)
    by (vm_compute; lia).
  split; [exact H1|]. split; [exact H2|]. split; [exact H3|]. split; [exact H4|].
  exact (addWell_registry_size three_wells fourth_well H1 H2 H3 H4).
Defined.

Lemma grid_consistent_row_with_gap : grid_consistent (getGrid row_with_gap).
Proof. repeat constructor; vm_compute; congruence. Defined.

Lemma box_fits_row_with_gap : box_fits (getGrid row_with_gap).
Proof. by apply (bool_decide_unpack _); vm_compute. Defined.

Lemma addFutureConnectionWells_translates_witness :
  box_fits (getGrid row_with_gap)
  ∧ grid_consistent (getGrid row_with_gap)
  ∧ map_to_list ({[ "W"%string := {[ 0; 1 ]} ]} : gmap string (gset Z))
      = [] ++ ("W"%string, {[ 0; 1 ]}) :: []
  ∧ forward_wells GraphOfGrid_addWell
      (compress_well (getGrid row_with_gap) <$> ([] : list (string * gset Z)).*2)
      true row_with_gap = Returned row_with_gap
  ∧ set_iter {[ 0; 1 ]} = [0] ++ 1 :: []
  ∧ Forall (active (getGrid row_with_gap)) [0]
  ∧ ¬ active (getGrid row_with_gap) 1
  ∧ addFutureConnectionWells GraphOfGrid_addWell row_with_gap
      {[ "W"%string := {[ 0; 1 ]} ]} true
    = inactive_failure (getGrid row_with_gap) 1.
Proof.
  assert (H1 : map_to_list ({[ "W"%string := {[ 0; 1 ]} ]} : gmap string (gset Z))
               = [] ++ ("W"%string, {[ 0; 1 ]}) :: []) by apply map_to_list_singleton.
  assert (H2 : set_iter {[ 0; 1 ]} = [0] ++ 1 :: []) by (by vm_compute).
  assert (H3 : Forall (active (getGrid row_with_gap)) [0]).
  { repeat constructor. }
  assert (H4 : ¬ active (getGrid row_with_gap) 1).
  { unfold active. simpl. set_solver. }
  split; [exact box_fits_row_with_gap|].
  split; [exact grid_consistent_row_with_gap|]. split; [exact H1|].
  split; [reflexivity|]. split; [exact H2|]. split; [exact H3|]. split; [exact H4|].
  refine (proj2 (addFutureConnectionWells_translates GraphOfGrid_addWell row_with_gap
                   {[ "W"%string := {[ 0; 1 ]} ]} true box_fits_row_with_gap
                   grid_consistent_row_with_gap)
            [] "W"%string {[ 0; 1 ]} [] row_with_gap [0] 1 [] H1 _ eq_refl H2 H3 H4).
  intros w c Hw. by apply elem_of_nil in Hw.
Defined.

Example inactive_cell_fails_assertion :
  addFutureConnectionWells GraphOfGrid_addWell row_with_gap
    {[ "W"%string := {[ 0; 1 ]} ]} true = AssertionFailed.
Proof. by vm_compute. Qed.

Example active_cells_are_forwarded :
  addFutureConnectionWells GraphOfGrid_addWell row_with_gap
    {[ "W"%string := {[ 0; 2 ]} ]} true
  = GraphOfGrid_addWell {[ 0; 1 ]} true row_with_gap.
Proof. by vm_compute. Qed.

(** A well that names the cartesian index 7 in a box of three cells:
    the index is that of no active cell, and the call ends with the
    [std::out_of_range] of [std::vector::at], before the assertion is
    reached. *)
Lemma addFutureConnectionWells_index_outside :
  ¬ active (getGrid row_with_gap) 7
  ∧ addFutureConnectionWells GraphOfGrid_addWell row_with_gap
      {[ "W"%string := {[ 7 ]} ]} true = Thrown out_of_range
  ∧ addFutureConnectionWells GraphOfGrid_addWell row_with_gap
      {[ "W"%string := {[ 7 ]} ]} true ≠ AssertionFailed.
Proof.
  assert (Hrun : addFutureConnectionWells GraphOfGrid_addWell row_with_gap
                   {[ "W"%string := {[ 7 ]} ]} true = Thrown out_of_range)
    by (by vm_compute).
  split; [unfold active; simpl; set_solver|]. split; [exact Hrun|].
  rewrite Hrun. discriminate.
Qed.

(** ** The further properties on the data of the tests *)

(** The product of the sizes of a box of 2^32 indices overflows before
    the table is made; a negative size makes the constructor of the
    table throw. *)
Example table_of_a_box_beyond_int :
  addFutureConnectionWells GraphOfGrid_addWell box_beyond_int
    {[ "W"%string := {[ 5 ]} ]} true = Undefined.
Proof. by vm_compute. Qed.

Example table_of_negative_size :
  addFutureConnectionWells GraphOfGrid_addWell box_of_negative_size ∅ true
  = Thrown length_error.
Proof. by vm_compute. Qed.

Lemma wells_represented_two_wells : wells_represented (getWells grid_with_two_wells).
Proof.
  split; [by vm_compute; repeat constructor|].
  by apply (bool_decide_unpack _); vm_compute.
Defined.

Lemma wells_not_empty_two_wells : Forall (λ w, w ≠ ∅) (getWells grid_with_two_wells).
Proof. exact (proj1 wells_represented_two_wells). Defined.

Lemma extendImportExportList_unreferenced_witness :
  Forall (λ w, w ≠ ∅) (getWells grid_with_two_wells)
  ∧ (∀ t w, t ∈ imp_outside_wells → w ∈ getWells grid_with_two_wells → ¬ represents t.1 w)
  ∧ extendImportExportList importTuple_ltb grid_with_two_wells imp_outside_wells
    = Returned imp_outside_wells.
Proof.
  assert (H2 : ∀ t w, t ∈ imp_outside_wells → w ∈ getWells grid_with_two_wells
                 → ¬ represents t.1 w).
  { intros t w Ht Hw. apply list_elem_of_singleton in Ht as ->.
    vm_compute in Hw.
    repeat (apply elem_of_cons in Hw as [->|Hw]); [..|by apply elem_of_nil in Hw];
      by vm_compute. }
  split; [exact wells_not_empty_two_wells|]. split; [exact H2|].
  exact (extendImportExportList_unreferenced importTuple_ltb grid_with_two_wells
           imp_outside_wells wells_not_empty_two_wells H2).
Defined.

Lemma extendImportExportList_each_well_once_witness :
  wells_represented (getWells grid_with_two_wells)
  ∧ ∃ out, extendImportExportList importTuple_ltb grid_with_two_wells imp_repeated
             = Returned out
      ∧ out ≡ₚ imp_repeated
               ++ added (getWells grid_with_two_wells) (first_occurrences imp_repeated)
      ∧ length out =
          (length imp_repeated +
           sum_list ((λ w, size w - 1)%nat <$>
                     filter (referenced imp_repeated) (getWells grid_with_two_wells)))%nat.
Proof.
  split; [exact wells_represented_two_wells|].
  exact (extendImportExportList_each_well_once importTuple_ltb grid_with_two_wells
           imp_repeated wells_represented_two_wells).
Defined.

Lemma extendImportExportList_whole_wells_witness :
  wells_represented (getWells grid_with_two_wells)
  ∧ ∃ out, extendImportExportList importTuple_ltb grid_with_two_wells imp = Returned out
      ∧ ∀ w, w ∈ getWells grid_with_two_wells → referenced imp w →
          ∃ t, t ∈ imp ∧ represents t.1 w ∧ ∀ m, m ∈ w → (m, t.2) ∈ out.
Proof.
  split; [exact wells_represented_two_wells|].
  exact (extendImportExportList_whole_wells importTuple_ltb grid_with_two_wells imp
           wells_represented_two_wells).
Defined.

Lemma extendImportExportList_distinct_ids_witness :
  Forall (λ w, w ≠ ∅) (getWells grid_with_two_wells)
  ∧ pairwise_disjoint (getWells grid_with_two_wells)
  ∧ NoDup imp.*1
  ∧ only_representatives (getWells grid_with_two_wells) imp
  ∧ ∃ out, extendImportExportList importTuple_ltb grid_with_two_wells imp = Returned out
      ∧ NoDup out.*1.
Proof.
  assert (H2 : pairwise_disjoint (getWells grid_with_two_wells)).
  { assert (Hws : getWells grid_with_two_wells = [ {[ 0; 1; 2 ]}; {[ 5; 8; 11 ]} ])
      by (by vm_compute).
    rewrite Hws. simpl.
    repeat split; repeat constructor; by apply (bool_decide_unpack _); vm_compute. }
  assert (H3 : NoDup imp.*1) by (by apply (bool_decide_unpack _); vm_compute).
  assert (H4 : only_representatives (getWells grid_with_two_wells) imp).
  { assert (Hall : Forall (λ t : TheTuple (Z * Z * Z),
                     Forall (λ w : gset Z, t.1 ∈ w → represents t.1 w)
                       (getWells grid_with_two_wells)) imp)
      by (by apply (bool_decide_unpack _); vm_compute).
    intros t w Ht Hw. rewrite Forall_forall in Hall. specialize (Hall t Ht).
    rewrite Forall_forall in Hall. by apply Hall. }
  split; [exact wells_not_empty_two_wells|]. split; [exact H2|]. split; [exact H3|].
  split; [exact H4|].
  exact (extendImportExportList_distinct_ids importTuple_ltb grid_with_two_wells imp
           wells_not_empty_two_wells H2 H3 H4).
Defined.

Lemma getGraphOfGridVerticesList_small_buffer_witness :
  (length [9] < size (graph (pGraph (store_of two_cells)))
   ∨ length [0%Qc; 0%Qc; 0%Qc] < size (graph (pGraph (store_of two_cells))))%nat
  ∧ getGraphOfGridVerticesList 1 1 [9] None 1 [0%Qc; 0%Qc; 0%Qc] (store_of two_cells)
    = (store_of two_cells, Undefined).
Proof.
  assert (H1 : (length [9] < size (graph (pGraph (store_of two_cells)))
                ∨ length [0%Qc; 0%Qc; 0%Qc] < size (graph (pGraph (store_of two_cells))))%nat)
    by (left; vm_compute; lia).
  split; [exact H1|].
  exact (getGraphOfGridVerticesList_small_buffer (store_of two_cells) 1 [9] None
           [0%Qc; 0%Qc; 0%Qc] H1).
Defined.

Lemma getGraphOfGridNumEdges_returns_witness :
  (2 ≤ length [0; 7])%nat ∧ (2 ≤ length [9; 9; 9])%nat
  ∧ ∃ st' r,
      getGraphOfGridNumEdges 1 1 2 [0; 7] None [9; 9; 9] (store_of two_cells)
        = (st', Returned r)
      ∧ (ne_err r = ZOLTAN_OK ↔ Forall (live (pGraph (store_of two_cells))) (take 2 [0; 7]))
      ∧ (ne_err r = ZOLTAN_OK ∧ st' = store_of two_cells
         ∨ ne_err r = ZOLTAN_FATAL ∧ ∃ msg, st' = log_error msg (store_of two_cells))
      ∧ length (ne_numEdges r) = length [9; 9; 9]
      ∧ drop 2 (ne_numEdges r) = drop 2 [9; 9; 9]
      ∧ ne_lIDs r = None.
Proof.
  assert (H1 : (2 ≤ length [0; 7])%nat) by (simpl; lia).
  assert (H2 : (2 ≤ length [9; 9; 9])%nat) by (simpl; lia).
  split; [exact H1|]. split; [exact H2|].
  exact (getGraphOfGridNumEdges_returns (store_of two_cells) 1 2 [0; 7] None [9; 9; 9] H1 H2).
Defined.

Lemma getGraphOfGridEdgeList_returns_witness :
  adjacency_closed (pGraph (store_of two_cells))
  ∧ (2 ≤ length [0; 1])%nat ∧ (2 ≤ length [1; 5])%nat
  ∧ Forall (live (pGraph (store_of two_cells))) (take 2 [0; 1])
  ∧ fits (length (emitted (pGraph (store_of two_cells)) (take 2 [0; 1]))) (empty_arrays 2)
  ∧ ∃ st' r,
      getGraphOfGridEdgeList 1 1 2 [0; 1] None [1; 5] (empty_arrays 2) 1 (store_of two_cells)
        = (st', Returned r)
      ∧ (el_err r = ZOLTAN_OK
         ↔ Forall2 (agrees (pGraph (store_of two_cells))) (take 2 [0; 1]) (take 2 [1; 5]))
      ∧ (el_err r = ZOLTAN_OK ∧ st' = store_of two_cells
         ∨ el_err r = ZOLTAN_FATAL ∧ ∃ msg, st' = log_error msg (store_of two_cells))
      ∧ length (nborGIDs (el_out r)) = length (nborGIDs (empty_arrays 2))
      ∧ length (nborProc (el_out r)) = length (nborProc (empty_arrays 2))
      ∧ length (edgeWeights (el_out r)) = length (edgeWeights (empty_arrays 2))
      ∧ el_lIDs r = None.
Proof.
  assert (H1 : (2 ≤ length [0; 1])%nat) by (simpl; lia).
  assert (H2 : (2 ≤ length [1; 5])%nat) by (simpl; lia).
  assert (H3 : Forall (live (pGraph (store_of two_cells))) (take 2 [0; 1]))
    by (by apply (bool_decide_unpack _); vm_compute).
  assert (H4 : fits (length (emitted (pGraph (store_of two_cells)) (take 2 [0; 1])))
                 (empty_arrays 2)) by (vm_compute; lia).
  split; [exact adjacency_closed_two_cells|]. split; [exact H1|]. split; [exact H2|].
  split; [exact H3|]. split; [exact H4|].
  exact (getGraphOfGridEdgeList_returns (store_of two_cells) 1 2 [0; 1] None [1; 5]
           (empty_arrays 2) adjacency_closed_two_cells H1 H2 H3 H4).
Defined.

Lemma partitioner_protocol_witness :
  adjacency_closed two_cells
  ∧ length [9; 9] = size (graph two_cells) ∧ length [0%Qc; 0%Qc] = size (graph two_cells)
  ∧ length [7; 7] = size (graph two_cells)
  ∧ Z.of_nat (length (nborGIDs (empty_arrays 2)))
    = sum_counts (GraphOfGrid_numEdges two_cells <$> (map_to_list (graph two_cells)).*1)
  ∧ Z.of_nat (length (nborProc (empty_arrays 2)))
    = sum_counts (GraphOfGrid_numEdges two_cells <$> (map_to_list (graph two_cells)).*1)
  ∧ Z.of_nat (length (edgeWeights (empty_arrays 2)))
    = sum_counts (GraphOfGrid_numEdges two_cells <$> (map_to_list (graph two_cells)).*1)
  ∧ getGraphOfGridNumVertices (store_of two_cells)
    = (store_of two_cells,
       Returned (Z.of_nat (length (map_to_list (graph two_cells))), ZOLTAN_OK))
  ∧ getGraphOfGridVerticesList 1 1 [9; 9] None 1 [0%Qc; 0%Qc] (store_of two_cells) =
    (store_of two_cells,
     Returned {| vl_gIDs := (map_to_list (graph two_cells)).*1; vl_lIDs := None;
                 vl_objWeights := weight <$> (map_to_list (graph two_cells)).*2;
                 vl_err := ZOLTAN_OK |})
  ∧ getGraphOfGridNumEdges 1 1 (size (graph two_cells)) (map_to_list (graph two_cells)).*1
      None [7; 7] (store_of two_cells) =
    (store_of two_cells,
     Returned {| ne_lIDs := None;
                 ne_numEdges := GraphOfGrid_numEdges two_cells
                                  <$> (map_to_list (graph two_cells)).*1;
                 ne_err := ZOLTAN_OK |})
  ∧ getGraphOfGridEdgeList 1 1 (size (graph two_cells)) (map_to_list (graph two_cells)).*1
      None (GraphOfGrid_numEdges two_cells <$> (map_to_list (graph two_cells)).*1)
      (empty_arrays 2) 1 (store_of two_cells) =
    (store_of two_cells,
     Returned {| el_lIDs := None;
                 el_out :=
                   {| nborGIDs := (emitted two_cells (map_to_list (graph two_cells)).*1).*1;
                      nborProc := owner two_cells
                                    <$> (emitted two_cells (map_to_list (graph two_cells)).*1).*1;
                      edgeWeights := (emitted two_cells (map_to_list (graph two_cells)).*1).*2 |};
                 el_err := ZOLTAN_OK |}).
Proof.
  assert (H1 : length [9; 9] = size (graph two_cells)) by (by vm_compute).
  assert (H2 : length [0%Qc; 0%Qc] = size (graph two_cells)) by (by vm_compute).
  assert (H3 : length [7; 7] = size (graph two_cells)) by (by vm_compute).
  assert (H4 : Z.of_nat (length (nborGIDs (empty_arrays 2)))
               = sum_counts (GraphOfGrid_numEdges two_cells
                               <$> (map_to_list (graph two_cells)).*1)) by (by vm_compute).
  assert (H5 : Z.of_nat (length (nborProc (empty_arrays 2)))
               = sum_counts (GraphOfGrid_numEdges two_cells
                               <$> (map_to_list (graph two_cells)).*1)) by (by vm_compute).
  assert (H6 : Z.of_nat (length (edgeWeights (empty_arrays 2)))
               = sum_counts (GraphOfGrid_numEdges two_cells
                               <$> (map_to_list (graph two_cells)).*1)) by (by vm_compute).
  split; [exact adjacency_closed_two_cells|]. split; [exact H1|]. split; [exact H2|].
  split; [exact H3|]. split; [exact H4|]. split; [exact H5|]. split; [exact H6|].
  exact (partitioner_protocol (store_of two_cells) 1 None [9; 9] [0%Qc; 0%Qc] [7; 7]
           (empty_arrays 2) adjacency_closed_two_cells H1 H2 H3 H4 H5 H6).
Defined.

Lemma getGraphOfGridEdgeList_one_vertex_witness :
  adjacency_closed (pGraph (store_of two_cells))
  ∧ graph (pGraph (store_of two_cells)) !! 0 = Some vertex_0_of_two_cells
  ∧ length (nborGIDs (empty_arrays 1)) = size (edges vertex_0_of_two_cells)
  ∧ length (nborProc (empty_arrays 1)) = size (edges vertex_0_of_two_cells)
  ∧ length (edgeWeights (empty_arrays 1)) = size (edges vertex_0_of_two_cells)
  ∧ ∃ r, getGraphOfGridEdgeList 1 1 1 [0] None
           [Z.of_nat (size (edges vertex_0_of_two_cells))]
           (empty_arrays 1) 1 (store_of two_cells)
         = (store_of two_cells, Returned r)
    ∧ el_err r = ZOLTAN_OK
    ∧ StronglySorted Z.lt (nborGIDs (el_out r))
    ∧ ∀ n p w,
        (∃ i, nborGIDs (el_out r) !! i = Some n ∧ nborProc (el_out r) !! i = Some p
              ∧ edgeWeights (el_out r) !! i = Some w)
        ↔ edges vertex_0_of_two_cells !! n = Some w
          ∧ p = owner (pGraph (store_of two_cells)) n.
Proof.
  assert (H1 : graph (pGraph (store_of two_cells)) !! 0 = Some vertex_0_of_two_cells)
    by (by vm_compute).
  assert (H2 : length (nborGIDs (empty_arrays 1)) = size (edges vertex_0_of_two_cells))
    by (by vm_compute).
  assert (H3 : length (nborProc (empty_arrays 1)) = size (edges vertex_0_of_two_cells))
    by (by vm_compute).
  assert (H4 : length (edgeWeights (empty_arrays 1)) = size (edges vertex_0_of_two_cells))
    by (by vm_compute).
  split; [exact adjacency_closed_two_cells|]. split; [exact H1|]. split; [exact H2|].
  split; [exact H3|]. split; [exact H4|].
  exact (getGraphOfGridEdgeList_one_vertex (store_of two_cells) 1 0 vertex_0_of_two_cells
           None (empty_arrays 1) adjacency_closed_two_cells H1 H2 H3 H4).
Defined.

Lemma calls_log_one_message_per_fatal_witness :
  calls [CallNumVertices; CallNumEdges 1 1 1 [7] None [9]; CallNumEdges 1 1 1 [0] None [9]]
    (store_of two_cells)
  = (log_error (numEdges_message 7) (store_of two_cells),
     Returned [ZOLTAN_OK; ZOLTAN_FATAL; ZOLTAN_OK])
  ∧ length [ZOLTAN_OK; ZOLTAN_FATAL; ZOLTAN_OK]
    = length [CallNumVertices; CallNumEdges 1 1 1 [7] None [9];
              CallNumEdges 1 1 1 [0] None [9]]
  ∧ Forall (λ e, e = ZOLTAN_OK ∨ e = ZOLTAN_FATAL) [ZOLTAN_OK; ZOLTAN_FATAL; ZOLTAN_OK]
  ∧ length (OpmLog_error (log_error (numEdges_message 7) (store_of two_cells)))
    = (length (OpmLog_error (store_of two_cells))
       + count_fatal [ZOLTAN_OK; ZOLTAN_FATAL; ZOLTAN_OK])%nat
  ∧ OpmLog_error (store_of two_cells)
      `prefix_of` OpmLog_error (log_error (numEdges_message 7) (store_of two_cells)).
Proof.
  assert (H1 : calls [CallNumVertices; CallNumEdges 1 1 1 [7] None [9];
                      CallNumEdges 1 1 1 [0] None [9]] (store_of two_cells)
               = (log_error (numEdges_message 7) (store_of two_cells),
                  Returned [ZOLTAN_OK; ZOLTAN_FATAL; ZOLTAN_OK])) by (by vm_compute).
  split; [exact H1|].
  exact (calls_log_one_message_per_fatal _ _ _ _ H1).
Defined.

Lemma cartesian_to_compressed_inverse_witness :
  box_fits (getGrid row_with_gap)
  ∧ grid_consistent (getGrid row_with_gap) ∧ NoDup (globalCell (getGrid row_with_gap))
  ∧ ∃ c2c, cartesian_to_compressed (getGrid row_with_gap) = Returned c2c
    ∧ length c2c = Z.to_nat (cartesianSize (getGrid row_with_gap))
    ∧ (∀ (i : nat) gc, globalCell (getGrid row_with_gap) !! i = Some gc →
         vector_at c2c gc = Returned (Z.of_nat i))
    ∧ (∀ cell, 0 ≤ cell < cartesianSize (getGrid row_with_gap) →
         ¬ active (getGrid row_with_gap) cell → vector_at c2c cell = Returned (-1))
    ∧ (∀ cell, ¬ 0 ≤ cell < cartesianSize (getGrid row_with_gap) →
         vector_at c2c cell = Thrown out_of_range).
Proof.
  assert (H2 : NoDup (globalCell (getGrid row_with_gap)))
    by (by apply (bool_decide_unpack _); vm_compute).
  split; [exact box_fits_row_with_gap|].
  split; [exact grid_consistent_row_with_gap|]. split; [exact H2|].
  exact (cartesian_to_compressed_inverse (getGrid row_with_gap)
           box_fits_row_with_gap grid_consistent_row_with_gap H2).
Defined.

Lemma addFutureConnectionWells_inconsistent_grid_witness :
  ¬ grid_consistent (getGrid cell_outside_box)
  ∧ addFutureConnectionWells GraphOfGrid_addWell cell_outside_box
      {[ "W"%string := {[ 0 ]} ]} true
    = if decide (box_fits (getGrid cell_outside_box)) then Undefined
      else if decide (box_in_int (getGrid cell_outside_box)) then Thrown length_error
      else Undefined.
Proof.
  assert (H1 : ¬ grid_consistent (getGrid cell_outside_box)).
  { unfold grid_consistent. intros [Hr _]%Forall_cons. vm_compute in Hr.
    destruct Hr as [_ Hr]. discriminate Hr. }
  split; [exact H1|].
  exact (addFutureConnectionWells_inconsistent_grid GraphOfGrid_addWell cell_outside_box
           {[ "W"%string := {[ 0 ]} ]} true H1).
Defined.

Lemma addFutureConnectionWells_fully_active_witness :
  fully_active (getGrid grid_2_2_2)
  ∧ (∀ name cells c,
       ({[ "W"%string := {[ 0; 1 ]} ]} : gmap string (gset Z)) !! name = Some cells →
       c ∈ cells → 0 ≤ c < cartesianSize (getGrid grid_2_2_2))
  ∧ addFutureConnectionWells GraphOfGrid_addWell grid_2_2_2
      {[ "W"%string := {[ 0; 1 ]} ]} true
    = if decide (box_fits (getGrid grid_2_2_2))
      then addWellConnections GraphOfGrid_addWell grid_2_2_2
             (map_to_list ({[ "W"%string := {[ 0; 1 ]} ]} : gmap string (gset Z))).*2 true
      else if decide (box_in_int (getGrid grid_2_2_2)) then Thrown length_error
      else Undefined.
Proof.
  assert (H1 : fully_active (getGrid grid_2_2_2)) by (by vm_compute).
  assert (H2 : ∀ name cells c,
            ({[ "W"%string := {[ 0; 1 ]} ]} : gmap string (gset Z)) !! name = Some cells →
            c ∈ cells → 0 ≤ c < cartesianSize (getGrid grid_2_2_2)).
  { intros name cells c [_ <-]%lookup_singleton_Some Hc.
    change (cartesianSize (getGrid grid_2_2_2)) with 8.
    apply elem_of_union in Hc as [Hc%elem_of_singleton|Hc%elem_of_singleton]; lia. }
  split; [exact H1|]. split; [exact H2|].
  exact (addFutureConnectionWells_fully_active GraphOfGrid_addWell grid_2_2_2
           {[ "W"%string := {[ 0; 1 ]} ]} true H1 H2).
Defined.

Lemma translated_well_witness :
  grid_consistent (getGrid row_with_gap) ∧ NoDup (globalCell (getGrid row_with_gap))
  ∧ cartesian_to_compressed (getGrid row_with_gap) = Returned [0; -1; 1]
  ∧ (∀ c, c ∈ ({[ 0; 2 ]} : gset Z) → active (getGrid row_with_gap) c)
  ∧ ∃ wellsgID, translate_cells [0; -1; 1] (set_iter {[ 0; 2 ]}) ∅ = Returned wellsgID
    ∧ size wellsgID = size ({[ 0; 2 ]} : gset Z)
    ∧ ∀ gID, gID ∈ wellsgID ↔
        0 ≤ gID ∧ ∃ c, c ∈ ({[ 0; 2 ]} : gset Z)
                       ∧ globalCell (getGrid row_with_gap) !! Z.to_nat gID = Some c.
Proof.
  assert (H2 : NoDup (globalCell (getGrid row_with_gap)))
    by (by apply (bool_decide_unpack _); vm_compute).
  assert (H3 : cartesian_to_compressed (getGrid row_with_gap) = Returned [0; -1; 1])
    by (by vm_compute).
  assert (H4 : ∀ c, c ∈ ({[ 0; 2 ]} : gset Z) → active (getGrid row_with_gap) c).
  { intros c [Hc%elem_of_singleton|Hc%elem_of_singleton]%elem_of_union; subst c;
      unfold active; by apply (bool_decide_unpack _); vm_compute. }
  split; [exact grid_consistent_row_with_gap|]. split; [exact H2|]. split; [exact H3|].
  split; [exact H4|].
  exact (translated_well (getGrid row_with_gap) [0; -1; 1] {[ 0; 2 ]}
           grid_consistent_row_with_gap H2 H3 H4).
Defined.
